(** * The WhatsApp agent: similarity engine, router, delivery, property search

    A shallow embedding of
      - [src/functions/calculateSimilarity.ts]  (the four measures, the
        weighted score and the contextual boosts; the retry loop of
        [EnhancedWhatsAppService.sendMessage]),
      - [findRelevantQAPairs]                   (exact lookup, scoring pass,
        legacy fallback),
      - [src/functions/generateResponse.ts]     (threshold routing and the
        fallback chain; the criteria, the scoring and the search of
        [PropertySearchService]),
      - [callWhatsAppAPI.ts], [sendWhatsAppMessage], [processTextMessage.ts]
        and [MessageTrackingService.trackSentMessage],
    together with the part of the JavaScript runtime these functions rely on.

    Conventions of the embedding.
      - A JavaScript string is the list of its UTF-16 code units.
      - Lengths, counts and array indices are [nat]; priorities are [Z].
      - The numbers of the similarity engine come in two models.
        [Binary64] is the engine over IEEE 754 doubles: it computes what the
        code computes, and statements that depend on the rounding of an
        operation are made about it.  [number], a real number or [NaN], is
        the same code with exact arithmetic; the statements made about it
        (ranges, thresholds, orders, symmetry, the value [NaN]) do not turn
        on a rounding in the last place, and the scores they evaluate are
        shown to be the same numbers in double precision.
      - [toLowerCase] is the runtime's Unicode case mapping; the development is
        parametric in it, and instantiates it with [lowerCase] on the
        characters it evaluates.
      - Logging is not part of the model. *)

From Stdlib Require Import Floats.
From Stdlib Require Import Ascii String.
From Stdlib Require Import List ZArith NArith Arith Bool Lia.
From Stdlib Require Import Reals Lra Psatz.
From Stdlib Require Import Permutation Sorted.
Import ListNotations.

Set Warnings "-inexact-float".

(* ================================================================== *)
(** * Part I.  The JavaScript runtime                                 *)
(* ================================================================== *)

Module JS.

(** ** Strings *)

Definition jsstring := list N.

(** A string literal made of ASCII characters. *)
Definition str (s : string) : jsstring :=
  map N_of_ascii (list_ascii_of_string s).

Fixpoint strEq (s t : jsstring) : bool :=
  match s, t with
  | [], [] => true
  | c :: s', d :: t' => N.eqb c d && strEq s' t'
  | _, _ => false
  end.

Definition chars (lo hi : N) (c : N) : bool := N.leb lo c && N.leb c hi.

(** ECMAScript WhiteSpace and LineTerminator code points: what
    [String.prototype.trim] strips and what the regular expression class
    [\s] matches. *)
Definition isWhiteSpace (c : N) : bool :=
  chars 9 13 c || N.eqb c 32 || N.eqb c 160 || N.eqb c 5760 ||
  chars 8192 8202 c || N.eqb c 8232 || N.eqb c 8233 || N.eqb c 8239 ||
  N.eqb c 8287 || N.eqb c 12288 || N.eqb c 65279.

(** The class [\w] of a regular expression without the [u] and [i] flags:
    [A-Za-z0-9_]. *)
Definition isWordChar (c : N) : bool :=
  chars 65 90 c || chars 97 122 c || chars 48 57 c || N.eqb c 95.

Fixpoint dropWhile (p : N -> bool) (s : jsstring) : jsstring :=
  match s with
  | [] => []
  | c :: s' => if p c then dropWhile p s' else s
  end.

(** [s.trim()] *)
Definition trim (s : jsstring) : jsstring :=
  rev (dropWhile isWhiteSpace (rev (dropWhile isWhiteSpace s))).

(** [s.split(/\s+/)]: the pieces between maximal runs of white space.  A
    string that starts (ends) with white space yields a leading (trailing)
    empty piece, and the empty string yields one empty piece.  [cur] is the
    piece being read, reversed; [inSep] tells that the previous code unit was
    white space. *)
Fixpoint splitGo (inSep : bool) (cur : jsstring) (s : jsstring)
  : list jsstring :=
  match s with
  | [] => [rev cur]
  | c :: s' =>
      if isWhiteSpace c
      then if inSep then splitGo true cur s'
           else rev cur :: splitGo true [] s'
      else splitGo false (c :: cur) s'
  end.

Definition splitSpaces (s : jsstring) : list jsstring := splitGo false [] s.

(** [s.match(/\b\w{3,}\b/g) || []]: a match starts at a word boundary, takes
    word characters greedily and must end at a word boundary, so the matches
    are the maximal runs of word characters of length at least 3, from left
    to right.  [cur] is the run being read, reversed. *)
Definition emitRun (cur : jsstring) (rest : list jsstring) : list jsstring :=
  if 3 <=? length cur then rev cur :: rest else rest.

Fixpoint matchGo (cur : jsstring) (s : jsstring) : list jsstring :=
  match s with
  | [] => emitRun cur []
  | c :: s' =>
      if isWordChar c then matchGo (c :: cur) s'
      else emitRun cur (matchGo [] s')
  end.

Definition matchKeywords (s : jsstring) : list jsstring := matchGo [] s.

Fixpoint isPrefix (p s : jsstring) : bool :=
  match p, s with
  | [], _ => true
  | c :: p', d :: s' => N.eqb c d && isPrefix p' s'
  | _ :: _, [] => false
  end.

(** [s.includes(p)] *)
Fixpoint includes (s p : jsstring) : bool :=
  isPrefix p s ||
  match s with
  | [] => false
  | _ :: s' => includes s' p
  end.

(** [s.charAt(i)]: the code unit at [i], if any. *)
Definition charAt (s : jsstring) (i : nat) : option N := nth_error s i.

Definition charEq (a b : option N) : bool :=
  match a, b with
  | Some c, Some d => N.eqb c d
  | None, None => true
  | _, _ => false
  end.

(** ** Sets of strings

    A [Set] keeps its elements in insertion order; adding an element that is
    present changes nothing. *)

Definition has (s : list jsstring) (x : jsstring) : bool := existsb (strEq x) s.

Definition setAdd (s : list jsstring) (x : jsstring) : list jsstring :=
  if has s x then s else s ++ [x].

(** [new Set(l)] *)
Definition mkSet (l : list jsstring) : list jsstring := fold_left setAdd l [].

(** ** Numbers

    [number] is a real number or [NaN], with exact arithmetic: no operation
    rounds, and no operation of the modelled code produces an infinity.
    The doubles of the code are the numbers of [Binary64], further down. *)

Inductive number : Type :=
| Fin (r : R)
| NaN.

Definition ofNat (n : nat) : number := Fin (INR n).
Definition ofZ (z : Z) : number := Fin (IZR z).

Definition lift2 (f : R -> R -> R) (x y : number) : number :=
  match x, y with
  | Fin a, Fin b => Fin (f a b)
  | _, _ => NaN
  end.

Definition add_ := lift2 Rplus.
Definition sub_ := lift2 Rminus.
Definition mul_ := lift2 Rmult.

(** [x / y].  The modelled code guards every division against a zero
    divisor; the model gives such a division no numeric value. *)
Definition div_ (x y : number) : number :=
  match x, y with
  | Fin a, Fin b => if Req_dec_T b 0 then NaN else Fin (a / b)
  | _, _ => NaN
  end.

(** [Math.sqrt] *)
Definition Math_sqrt (x : number) : number :=
  match x with
  | Fin a => if Rlt_dec a 0 then NaN else Fin (sqrt a)
  | NaN => NaN
  end.

(** [Math.round]: the nearest integer, a tie going up. *)
Definition Math_round (x : number) : number :=
  match x with
  | Fin a => Fin (IZR (Zfloor (a + / 2)))
  | NaN => NaN
  end.

(** [Math.min] of two numbers. *)
Definition Math_min (x y : number) : number := lift2 Rmin x y.

(** Comparisons; every comparison with [NaN] is false. *)
Definition gtb (x y : number) : bool :=
  match x, y with
  | Fin a, Fin b => if Rlt_dec b a then true else false
  | _, _ => false
  end.

Definition geb (x y : number) : bool :=
  match x, y with
  | Fin a, Fin b => if Rle_dec b a then true else false
  | _, _ => false
  end.

(** [x === y] on numbers. *)
Definition eqn (x y : number) : bool :=
  match x, y with
  | Fin a, Fin b => if Req_dec_T a b then true else false
  | _, _ => false
  end.

(** ** Plain objects used as maps from words to counts

    [const freq = {}] creates an object whose prototype is
    [Object.prototype].  Reading [freq[k]] for a key that is not an own
    property finds the inherited property, if [Object.prototype] has one of
    that name. *)

Inductive value : Type :=
| Count (n : nat)      (* a number; here always a count *)
| Other.               (* a function, an object, or a string that is not
                          numeric: truthy, and NaN when used as a number *)

Definition object := list (jsstring * value).

Definition objectPrototypeKeys : list jsstring :=
  [ str "constructor"; str "__proto__"; str "hasOwnProperty";
    str "isPrototypeOf"; str "propertyIsEnumerable"; str "toString";
    str "toLocaleString"; str "valueOf"; str "__defineGetter__";
    str "__defineSetter__"; str "__lookupGetter__"; str "__lookupSetter__" ].

Definition inherited (k : jsstring) : bool := has objectPrototypeKeys k.

Fixpoint getOwn (o : object) (k : jsstring) : option value :=
  match o with
  | [] => None
  | (k', v) :: o' => if strEq k k' then Some v else getOwn o' k
  end.

(** [o[k]]; [None] is [undefined]. *)
Definition getProp (o : object) (k : jsstring) : option value :=
  match getOwn o k with
  | Some v => Some v
  | None => if inherited k then Some Other else None
  end.

Fixpoint putOwn (o : object) (k : jsstring) (v : value) : object :=
  match o with
  | [] => [(k, v)]
  | (k', v') :: o' => if strEq k k' then (k, v) :: o' else (k', v') :: putOwn o' k v
  end.

(** [o[k] = v].  Assigning a value that is not an object to [__proto__] is
    ignored. *)
Definition setProp (o : object) (k : jsstring) (v : value) : object :=
  if strEq k (str "__proto__") then o else putOwn o k v.

(** [x || 0] *)
Definition orZero (x : option value) : value :=
  match x with
  | None => Count 0
  | Some (Count n) => Count n
  | Some Other => Other
  end.

(** [x + 1]: addition on a number, concatenation of ["1"] otherwise. *)
Definition plusOne (x : value) : value :=
  match x with
  | Count n => Count (S n)
  | Other => Other
  end.

(** The numeric value of [x] in a product. *)
Definition toNumber (x : value) : number :=
  match x with
  | Count n => ofNat n
  | Other => NaN
  end.

(** ** Arrays of numbers that grow by assignment

    [a[i] = v] overwrites position [i], and appends when [i] is the length
    of [a] (the only out-of-range write the modelled code performs). *)

Fixpoint store {A} (a : list A) (i : nat) (v : A) : list A :=
  match a, i with
  | [], _ => [v]
  | _ :: a', O => v :: a'
  | x :: a', S i' => x :: store a' i' v
  end.

(** [Array.prototype.sort(compare)] for a consistent [compare]: the sorted
    order that keeps elements comparing equal in their original order.  An
    element moves behind those it compares greater than. *)
Fixpoint insertBy {A} (compare : A -> A -> number) (x : A) (sorted : list A)
  : list A :=
  match sorted with
  | [] => [x]
  | y :: rest =>
      if gtb (compare x y) (Fin 0) then y :: insertBy compare x rest
      else x :: sorted
  end.

Definition sort {A} (compare : A -> A -> number) (l : list A) : list A :=
  fold_right (insertBy compare) [] l.

(** ** Truthiness and defaults *)

(** A string that is truthy: not empty. *)
Definition nonEmpty (s : jsstring) : bool := negb (length s =? 0).

(** An optional string that is truthy: present and not empty. *)
Definition truthy (s : option jsstring) : bool :=
  match s with Some s' => nonEmpty s' | None => false end.

(** [s || fallback] *)
Definition orElse (s : option jsstring) (fallback : jsstring) : jsstring :=
  match s with
  | Some s' => if nonEmpty s' then s' else fallback
  | None => fallback
  end.

(** The default a destructuring takes for a property that is left out. *)
Definition fromOption {A} (x : option A) (default : A) : A :=
  match x with Some a => a | None => default end.

(** ** Quantities: [/(\d+)\s*(u1|u2|...)/]

    The regular expressions of this shape are matched by reading a run of
    digits, then white space, then one of the units.  No unit the code
    lists starts with a digit or with white space, so a match takes the
    whole run of digits and all the white space after it: giving some back
    cannot make a unit fit.  The alternatives are tried in the order they
    are written. *)

(** The class [\d]: [0-9]. *)
Definition isDigit (c : N) : bool := chars 48 57 c.

Fixpoint takeWhile (p : N -> bool) (s : jsstring) : jsstring :=
  match s with
  | [] => []
  | c :: s' => if p c then c :: takeWhile p s' else []
  end.

(** The first of [units] that [s] starts with. *)
Fixpoint firstPrefix (units : list jsstring) (s : jsstring) : option jsstring :=
  match units with
  | [] => None
  | u :: rest => if isPrefix u s then Some u else firstPrefix rest s
  end.

(** A match that starts at the first character of [s]: the digits and the
    unit (the groups 1 and 2 of the match). *)
Definition quantityAt (units : list jsstring) (s : jsstring)
  : option (jsstring * jsstring) :=
  let digits := takeWhile isDigit s in
  if length digits =? 0 then None
  else
    match firstPrefix units (dropWhile isWhiteSpace (dropWhile isDigit s)) with
    | Some unit => Some (digits, unit)
    | None => None
    end.

(** [s.match(/(\d+)\s*(u1|u2|...)/)]: the leftmost match. *)
Fixpoint matchQuantity (units : list jsstring) (s : jsstring)
  : option (jsstring * jsstring) :=
  match quantityAt units s with
  | Some m => Some m
  | None =>
      match s with
      | [] => None
      | _ :: s' => matchQuantity units s'
      end
  end.

(** [parseInt(digits)] for a string of decimal digits (the value is exact:
    the rounding of large integers to doubles is not modelled). *)
Definition parseInt (digits : jsstring) : nat :=
  fold_left (fun value c => 10 * value + N.to_nat (c - 48)) digits 0.

End JS.

Import JS.

Declare Scope js_scope.
Delimit Scope js_scope with js.
Infix "+" := add_ : js_scope.
Infix "-" := sub_ : js_scope.
Infix "*" := mul_ : js_scope.
Infix "/" := div_ : js_scope.

(** The case mapping on the characters this development evaluates: ASCII and
    Latin-1 capitals, and U+212A KELVIN SIGN, whose lower-case form is the
    ASCII letter k.  Arabic letters, digits and punctuation have no case. *)
Definition lowerUnit (c : N) : N :=
  if chars 65 90 c then (c + 32)%N
  else if chars 192 222 c && negb (N.eqb c 215) then (c + 32)%N
  else if N.eqb c 8490 then 107%N
  else c.

Definition lowerCase (s : jsstring) : jsstring := map lowerUnit s.

(* ================================================================== *)
(** * Part II.  Data model and collaborators                          *)
(* ================================================================== *)

(** A row of the [QAPair] table ([prisma/schema.prisma]). *)
Record QAPair : Type := mkQAPair {
  id : jsstring;
  question : jsstring;
  answer : jsstring;
  category : jsstring;
  language : jsstring;
  isActive : bool;
  tags : list jsstring;
  priority : Z;
  createdAt : Z
}.

(** [QAPairWithSimilarity]: the fields of the entry it was built from
    ([{ ...qa, similarity }]), and a similarity. *)
Record QAPairWithSimilarity : Type := withSimilarity {
  entry : QAPair;
  similarity : number
}.

(** What [generateAIResponse] resolves to; the router reads these two
    fields (it also logs [source] and [propertySearchResult]). *)
Record AIResponse : Type := mkAIResponse {
  response : jsstring;
  confidence : number
}.

Record Client : Type := mkClient { clientId : jsstring }.

(** The local [responseSource] of [generateResponse]:
      [`QA Database (${similarity.toFixed(1)}% match)`],
      [`AI Agent (confidence: ${(confidence * 100).toFixed(1)}%)`],
      [`QA Fallback (${similarity.toFixed(1)}% match)`],
      ['Default Response'].
    Each constructor carries the number its template prints. *)
Inductive ResponseSource : Type :=
| QADatabase (similarity : number)
| AIAgent (confidence : number)
| QAFallback (similarity : number)
| DefaultResponse.

(** An awaited call settles with a value or rejects.  The value a call
    rejects with is not kept: the handlers only read its [message] for the
    log, and it is taken to be an [Error]. *)
Inductive result (A : Type) : Type :=
| Ok (a : A)
| Throw.
Arguments Ok {A} a.
Arguments Throw {A}.

(** The calls a run makes to its collaborators, and the source it logs. *)
Inductive Event : Type :=
| CallFindOrCreateClient (from senderName : jsstring)
| CallSaveMessage (text : jsstring) (isBot : bool)
| CallUpdateClientActivity (text : jsstring)
| CallFindExactMatch (message : jsstring)
| CallFindMany
| CallExtractKeywords (message : jsstring)
| CallFindMatchByFullMessage (message : jsstring) (limit : nat)
| CallFindMatchByKeywords (keywords : list jsstring) (limit : nat)
| CallGenerateAIResponse (message language from : jsstring)
| LogResponseSource (source : ResponseSource).

(** Collaborators whose code is not part of the routing core: the helpers
    [generateResponse] and [findRelevantQAPairs] import from other modules,
    each as the result it settles with on given arguments.  The table
    [qaPairs] is what the database holds during the run; [exactMatchFails]
    and [findManyFails] tell whether the two queries of the scoring pass
    reject. *)
Record Env : Type := mkEnv {
  qaPairs : list QAPair;
  exactMatchFails : bool;
  findManyFails : bool;
  extractKeywords : jsstring -> nat -> result (list jsstring);
  findMatchByFullMessage : jsstring -> nat -> result (list QAPair);
  findMatchByKeywords : list jsstring -> nat -> result (list QAPair);
  detectLanguage : jsstring -> jsstring;
  generateAIResponse : jsstring -> jsstring -> jsstring -> result AIResponse;
  defaultMessage : jsstring -> jsstring;
  findOrCreateClient : jsstring -> jsstring -> result Client;
  saveMessage : jsstring -> jsstring -> bool -> result unit;
  updateClientActivity : jsstring -> jsstring -> result unit
}.

(** ** Asynchronous code: a log of events and a result or an exception *)

Definition M (A : Type) : Type := (list Event * result A)%type.

Definition ret {A} (a : A) : M A := ([], Ok a).

Definition bind {A B} (m : M A) (k : A -> M B) : M B :=
  match m with
  | (log, Ok a) => let (log', r) := k a in (log ++ log', r)
  | (log, Throw) => (log, Throw)
  end.

(** [await f(...)], recorded as event [e]. *)
Definition call {A} (e : Event) (r : result A) : M A := ([e], r).

(** [try { body } catch { handler }] *)
Definition tryCatch {A} (body handler : M A) : M A :=
  match body with
  | (log, Ok a) => (log, Ok a)
  | (log, Throw) => let (log', r) := handler in (log ++ log', r)
  end.

Declare Scope monad_scope.
Delimit Scope monad_scope with monad.
Notation "x <- m ;; k" := (bind m (fun x => k))
  (at level 61, m at next level, right associativity) : monad_scope.
Notation "m ;;; k" := (bind m (fun _ => k))
  (at level 61, right associativity) : monad_scope.

(* ================================================================== *)
(** * Part III.  Sample data                                          *)
(* ================================================================== *)

(** Entries in the style of [scripts/seed-qa-pairs.ts]. *)
Definition qaSchedule : QAPair :=
  mkQAPair (str "qa-schedule")
    (str "How do I schedule an appointment?")
    (str "To schedule an appointment, go to the Appointments section.")
    (str "appointment") (str "en") true
    [str "appointment"; str "scheduling"; str "calendar"] 10 1.

Definition qaClient : QAPair :=
  mkQAPair (str "qa-client")
    (str "How do I add a new client?")
    (str "You can add a new client from the Clients section.")
    (str "client") (str "en") true
    [str "client"; str "add"; str "contact"] 8 2.

Definition qaRetired : QAPair :=
  mkQAPair (str "qa-retired")
    (str "How do I schedule an appointment?")
    (str "Call the office.")
    (str "appointment") (str "en") false [] 20 3.

(** An entry whose question holds the words of the message in another
    order, whose answer repeats the message and whose tags all occur in it. *)
Definition qaReordered : QAPair :=
  mkQAPair (str "qa-reordered") (str "def abc") (str "abc def")
    (str "general") (str "en") true [str "abc"; str "def"; str "ab"] 0 4.

(** An entry stored with an empty answer. *)
Definition qaEmptyAnswer : QAPair :=
  mkQAPair (str "qa-empty") (str "abd") []
    (str "general") (str "en") true [str "abc"; str "ab"] 0 5.

(** Collaborators that work, except for the generative fallback, which
    rejects every call. *)
Definition envWith (table : list QAPair) : Env :=
  mkEnv table false false
    (fun _ _ => Ok []) (fun _ _ => Ok []) (fun _ _ => Ok [])
    (fun _ => str "en")
    (fun _ _ _ => Throw)
    (fun _ => str "Hello! How can I help you today?")
    (fun from _ => Ok (mkClient from))
    (fun _ _ _ => Ok tt)
    (fun _ _ => Ok tt).

Definition envSeed : Env := envWith [qaClient; qaRetired; qaSchedule].
Definition envReordered : Env := envWith [qaReordered].
Definition envEmptyAnswer : Env := envWith [qaEmptyAnswer].

(** The exact lookup rejects; the keyword lookup of the [catch] branch
    answers. *)
Definition envLegacy : Env :=
  mkEnv [qaSchedule] true false
    (fun _ _ => Ok [str "appointment"]) (fun _ _ => Ok [])
    (fun _ _ => Ok [qaSchedule])
    (fun _ => str "en")
    (fun _ _ _ => Throw)
    (fun _ => str "Hello! How can I help you today?")
    (fun from _ => Ok (mkClient from))
    (fun _ _ _ => Ok tt)
    (fun _ _ => Ok tt).

(** The same collaborators with a generative fallback that answers. *)
Definition generatedReply : AIResponse :=
  mkAIResponse (str "Our office is open from 9 to 5.") (Fin 0.8).

Definition envAnswering : Env :=
  mkEnv [qaClient; qaRetired; qaSchedule] false false
    (fun _ _ => Ok []) (fun _ _ => Ok []) (fun _ _ => Ok [])
    (fun _ => str "en")
    (fun _ _ _ => Ok generatedReply)
    (fun _ => str "Hello! How can I help you today?")
    (fun from _ => Ok (mkClient from))
    (fun _ _ _ => Ok tt)
    (fun _ _ => Ok tt).

(** Three times U+212A KELVIN SIGN. *)
Definition kelvin3 : jsstring := [8490; 8490; 8490]%N.

(** Two Arabic messages: "marhaba" and "kayfa ujadwil maw'id?" (the second
    is a question of [seed-qa-pairs.ts]). *)
Definition marhaba : jsstring := [1605; 1585; 1581; 1576; 1575]%N.

Definition kayfaUjadwil : jsstring :=
  [1603; 1610; 1601; 32; 1571; 1580; 1583; 1608; 1604; 32;
   1605; 1608; 1593; 1583; 1567]%N.

(** A message and a question whose weighted sum is 39.375 in exact
    arithmetic, halfway between two numbers with 2 decimals. *)
Definition msgAbcDef : jsstring := str "abc def".
Definition questionVilla : jsstring := str "villa abc what def schedule what".

(** A booking desk: six active entries that resemble the message
    [msgBooking], two of them with the same question, one active entry that
    does not resemble it, and a withdrawn entry that resembles it most. *)
Definition msgBooking : jsstring := str "how can i book an appointment".

Definition qaRoom : QAPair :=
  mkQAPair (str "qa-room")
    (str "How can I book a room?")
    (str "Rooms are booked at the front desk.")
    (str "rooms") (str "en") true [str "room"] 3 11.

Definition qaRoomReception : QAPair :=
  mkQAPair (str "qa-room-reception")
    (str "How can I book a room?")
    (str "Ask the reception for a free room.")
    (str "rooms") (str "en") true [str "rooms"] 7 12.

Definition qaMove : QAPair :=
  mkQAPair (str "qa-move")
    (str "How can I move an appointment?")
    (str "Drag the entry to another day.")
    (str "appointment") (str "en") true [str "move"] 4 13.

Definition qaTable : QAPair :=
  mkQAPair (str "qa-table")
    (str "How can I book a table?")
    (str "Tables are booked by phone.")
    (str "restaurant") (str "en") true [str "table"] 2 14.

Definition qaCancel : QAPair :=
  mkQAPair (str "qa-cancel")
    (str "How do I cancel an appointment?")
    (str "Open the Appointments section and press Cancel.")
    (str "appointment") (str "en") true [str "cancel"] 5 15.

Definition qaAppointment : QAPair :=
  mkQAPair (str "qa-appointment")
    (str "How do I schedule an appointment?")
    (str "Go to the Appointments section.")
    (str "appointment") (str "en") true
    [str "appointment"; str "calendar"] 10 16.

Definition qaHours : QAPair :=
  mkQAPair (str "qa-hours")
    (str "What are your opening hours?")
    (str "We are open from 9 to 5.")
    (str "general") (str "en") true [str "hours"] 9 17.

Definition qaWithdrawn : QAPair :=
  mkQAPair (str "qa-withdrawn")
    (str "How can I book an appointment?!")
    (str "Call the office.")
    (str "appointment") (str "en") false [] 20 18.

Definition envBooking : Env :=
  envWith [qaRoom; qaMove; qaHours; qaWithdrawn; qaTable; qaAppointment;
           qaRoomReception; qaCancel].

(** The entries of [envBooking] that score above 20 for [msgBooking], in
    the order of their scores. *)
Definition bookingRanked : list QAPairWithSimilarity :=
  [ withSimilarity qaMove (Fin 64.33);
    withSimilarity qaRoomReception (Fin 60.1);
    withSimilarity qaRoom (Fin 60.1);
    withSimilarity qaTable (Fin 59.41);
    withSimilarity qaCancel (Fin 51.55);
    withSimilarity qaAppointment (Fin 50.73) ].

(* ================================================================== *)
(** * Part IV.  The similarity engine: [calculateSimilarity.ts]       *)
(* ================================================================== *)

(** ** Levenshtein distance

    The matrix has one row per prefix of [str2] and one column per prefix of
    [str1]. *)

Definition matrixGet (matrix : list (list nat)) (i j : nat) : nat :=
  nth j (nth i matrix []) 0.

(** [matrix[i][j] = v] *)
Definition matrixSet (matrix : list (list nat)) (i j v : nat)
  : list (list nat) :=
  store matrix i (store (nth i matrix []) j v).

(** [Math.min(a, b, c)] *)
Definition min3 (a b c : nat) : nat := Nat.min (Nat.min a b) c.

Definition levenshteinCell (str1 str2 : jsstring) (i : nat)
  (matrix : list (list nat)) (j : nat) : list (list nat) :=
  if charEq (charAt str2 (i - 1)) (charAt str1 (j - 1))
  then matrixSet matrix i j (matrixGet matrix (i - 1) (j - 1))
  else matrixSet matrix i j
         (min3 (matrixGet matrix (i - 1) (j - 1) + 1)  (* substitution *)
               (matrixGet matrix i (j - 1) + 1)        (* insertion *)
               (matrixGet matrix (i - 1) j + 1)).      (* deletion *)

Definition levenshteinDistance (str1 str2 : jsstring) : nat :=
  let len1 := length str1 in
  let len2 := length str2 in
  let matrix := [] in
  (* create matrix *)
  let matrix := fold_left (fun m i => store m i [i]) (seq 0 (S len2)) matrix in
  let matrix := fold_left (fun m j => matrixSet m 0 j j) (seq 0 (S len1)) matrix in
  (* fill matrix *)
  let matrix :=
    fold_left (fun m i => fold_left (levenshteinCell str1 str2 i) (seq 1 len1) m)
              (seq 1 len2) matrix in
  matrixGet matrix len2 len1.

Definition levenshteinSimilarity (str1 str2 : jsstring) : number :=
  let maxLength := Nat.max (length str1) (length str2) in
  if maxLength =? 0 then Fin 100
  else
    let distance := levenshteinDistance str1 str2 in
    (((ofNat maxLength - ofNat distance) / ofNat maxLength) * Fin 100)%js.

(** ** The engine in double precision

    JavaScript numbers are IEEE 754 binary64 values, and [+], [-], [*], [/]
    and [Math.sqrt] round to the nearest one, a tie going to the even
    mantissa: the operations of [PrimFloat].  [Binary64] is the engine with
    these numbers.  It computes what the code computes, digit for digit, and
    is the model for statements that depend on the rounding.  The
    definitions over [number] around it are the same code with exact
    arithmetic. *)

Module Binary64.

Local Open Scope float_scope.

(** A length or a count as a number.  Exact below [2 ^ 53]; the length of
    a JavaScript string is below that. *)
Definition ofNat (n : nat) : float :=
  PrimFloat.of_uint63 (Uint63.of_Z (Z.of_nat n)).

(** [Math.round]: the integer closest to [x], the one towards plus infinity
    when two are equally close; [x] itself when it is an integer, an
    infinity or [NaN].  A finite [x] is [m * 2 ^ e] up to its sign. *)
Definition Math_round (x : float) : float :=
  match Prim2SF x with
  | S754_finite negative m e =>
      if (0 <=? e)%Z then x
      else
        let unit := (2 ^ (- e))%Z in
        let whole := (Z.pos m / unit)%Z in
        let rest := (Z.pos m mod unit)%Z in
        let up := if negative then (unit <? 2 * rest)%Z
                  else (unit <=? 2 * rest)%Z in
        let magnitude :=
          PrimFloat.of_uint63 (Uint63.of_Z (if up then whole + 1 else whole)) in
        if negative then - magnitude else magnitude
  | _ => x
  end.

(** [Math.min] of two numbers: [NaN] if either is, and [-0] below [+0]. *)
Definition Math_min (x y : float) : float :=
  if PrimFloat.is_nan x || PrimFloat.is_nan y then nan
  else if x <? y then x
  else if y <? x then y
  else if PrimFloat.get_sign x then x else y.

(** The numeric value of [x] in a product. *)
Definition toNumber (x : value) : float :=
  match x with
  | Count n => ofNat n
  | Other => nan
  end.

Definition levenshteinSimilarity (str1 str2 : jsstring) : float :=
  let maxLength := Nat.max (length str1) (length str2) in
  if (maxLength =? 0)%nat then 100
  else
    let distance := levenshteinDistance str1 str2 in
    ((ofNat maxLength - ofNat distance) / ofNat maxLength) * 100.

Section Engine.

Variable toLowerCase : jsstring -> jsstring.

Definition jaccardSimilarity (str1 str2 : jsstring) : float :=
  let words1 := mkSet (splitSpaces (toLowerCase str1)) in
  let words2 := mkSet (splitSpaces (toLowerCase str2)) in
  let intersection := mkSet (filter (fun x => has words2 x) words1) in
  let union := mkSet (words1 ++ words2) in
  if (length union =? 0)%nat then 100
  else (ofNat (length intersection) / ofNat (length union)) * 100.

(** [freq[word] = (freq[word] || 0) + 1] *)
Definition countWord (freq : object) (word : jsstring) : object :=
  setProp freq word (plusOne (orZero (getProp freq word))).

(** One turn of the loop over [allWords]. *)
Definition cosineStep (freq1 freq2 : object)
  (acc : float * float * float) (word : jsstring) : float * float * float :=
  let '(dotProduct, magnitude1, magnitude2) := acc in
  let f1 := toNumber (orZero (getProp freq1 word)) in
  let f2 := toNumber (orZero (getProp freq2 word)) in
  (dotProduct + f1 * f2, magnitude1 + f1 * f1, magnitude2 + f2 * f2).

Definition cosineSimilarity (str1 str2 : jsstring) : float :=
  let words1 := splitSpaces (toLowerCase str1) in
  let words2 := splitSpaces (toLowerCase str2) in
  let freq1 := fold_left countWord words1 [] in
  let freq2 := fold_left countWord words2 [] in
  let allWords := mkSet (words1 ++ words2) in
  let '(dotProduct, magnitude1, magnitude2) :=
    fold_left (cosineStep freq1 freq2) allWords (0, 0, 0) in
  if (magnitude1 =? 0) || (magnitude2 =? 0) then 0
  else (dotProduct / (PrimFloat.sqrt magnitude1 * PrimFloat.sqrt magnitude2))
       * 100.

Definition keywordSimilarity (str1 str2 : jsstring) : float :=
  let keywords1 := matchKeywords (toLowerCase str1) in
  let keywords2 := matchKeywords (toLowerCase str2) in
  if ((length keywords1 =? 0) && (length keywords2 =? 0))%nat then 100
  else if ((length keywords1 =? 0) || (length keywords2 =? 0))%nat then 0
  else
    let set1 := mkSet keywords1 in
    let set2 := mkSet keywords2 in
    let intersection := mkSet (filter (fun x => has set2 x) set1) in
    let union := mkSet (set1 ++ set2) in
    (ofNat (length intersection) / ofNat (length union)) * 100.

(** The weighted combination of the four measures, before rounding. *)
Definition weightedScore (msg1 msg2 : jsstring) : float :=
  let levenshtein := levenshteinSimilarity msg1 msg2 in
  let jaccard := jaccardSimilarity msg1 msg2 in
  let cosine := cosineSimilarity msg1 msg2 in
  let keyword := keywordSimilarity msg1 msg2 in
  (levenshtein * 0.2) + (jaccard * 0.3) + (cosine * 0.3) + (keyword * 0.2).

Definition calculateSimilarity (userMessage qaQuestion : jsstring) : float :=
  let msg1 := toLowerCase (trim userMessage) in
  let msg2 := toLowerCase (trim qaQuestion) in
  if strEq msg1 msg2 then 100
  else if ((length msg1 =? 0) || (length msg2 =? 0))%nat then 0
  else Math_round (weightedScore msg1 msg2 * 100) / 100.

Definition calculateContextualSimilarity
  (userMessage qaQuestion qaAnswer : jsstring) (qaTags : list jsstring)
  : float :=
  let score := calculateSimilarity userMessage qaQuestion in
  let userWords := splitSpaces (toLowerCase userMessage) in
  let tagMatches :=
    filter (fun tag =>
              existsb (fun word => includes word (toLowerCase tag)
                                   || includes (toLowerCase tag) word)
                      userWords)
           qaTags in
  let score :=
    if (0 <? length tagMatches)%nat
    then score + Math_min (ofNat (length tagMatches) * 5) 15
    else score in
  let answerSimilarity := calculateSimilarity userMessage qaAnswer in
  let score :=
    if 30 <? answerSimilarity
    then score + Math_min (answerSimilarity * 0.1) 10
    else score in
  Math_min score 100.

End Engine.

End Binary64.

Section Core.

Variable toLowerCase : jsstring -> jsstring.

Definition jaccardSimilarity (str1 str2 : jsstring) : number :=
  let words1 := mkSet (splitSpaces (toLowerCase str1)) in
  let words2 := mkSet (splitSpaces (toLowerCase str2)) in
  let intersection := mkSet (filter (fun x => has words2 x) words1) in
  let union := mkSet (words1 ++ words2) in
  if length union =? 0 then Fin 100
  else ((ofNat (length intersection) / ofNat (length union)) * Fin 100)%js.

(** [freq[word] = (freq[word] || 0) + 1] *)
Definition countWord (freq : object) (word : jsstring) : object :=
  setProp freq word (plusOne (orZero (getProp freq word))).

(** One turn of the loop over [allWords]. *)
Definition cosineStep (freq1 freq2 : object)
  (acc : number * number * number) (word : jsstring)
  : number * number * number :=
  let '(dotProduct, magnitude1, magnitude2) := acc in
  let f1 := toNumber (orZero (getProp freq1 word)) in
  let f2 := toNumber (orZero (getProp freq2 word)) in
  (dotProduct + f1 * f2, magnitude1 + f1 * f1, magnitude2 + f2 * f2)%js.

Definition cosineSimilarity (str1 str2 : jsstring) : number :=
  let words1 := splitSpaces (toLowerCase str1) in
  let words2 := splitSpaces (toLowerCase str2) in
  let freq1 := fold_left countWord words1 [] in
  let freq2 := fold_left countWord words2 [] in
  let allWords := mkSet (words1 ++ words2) in
  let '(dotProduct, magnitude1, magnitude2) :=
    fold_left (cosineStep freq1 freq2) allWords (Fin 0, Fin 0, Fin 0) in
  if eqn magnitude1 (Fin 0) || eqn magnitude2 (Fin 0) then Fin 0
  else ((dotProduct / (Math_sqrt magnitude1 * Math_sqrt magnitude2))
        * Fin 100)%js.

Definition keywordSimilarity (str1 str2 : jsstring) : number :=
  let keywords1 := matchKeywords (toLowerCase str1) in
  let keywords2 := matchKeywords (toLowerCase str2) in
  if (length keywords1 =? 0) && (length keywords2 =? 0) then Fin 100
  else if (length keywords1 =? 0) || (length keywords2 =? 0) then Fin 0
  else
    let set1 := mkSet keywords1 in
    let set2 := mkSet keywords2 in
    let intersection := mkSet (filter (fun x => has set2 x) set1) in
    let union := mkSet (set1 ++ set2) in
    ((ofNat (length intersection) / ofNat (length union)) * Fin 100)%js.

(** The weighted combination of the four measures, before rounding. *)
Definition weightedScore (msg1 msg2 : jsstring) : number :=
  let levenshtein := levenshteinSimilarity msg1 msg2 in
  let jaccard := jaccardSimilarity msg1 msg2 in
  let cosine := cosineSimilarity msg1 msg2 in
  let keyword := keywordSimilarity msg1 msg2 in
  (levenshtein * Fin 0.2 + jaccard * Fin 0.3 + cosine * Fin 0.3
   + keyword * Fin 0.2)%js.

Definition calculateSimilarity (userMessage qaQuestion : jsstring) : number :=
  let msg1 := toLowerCase (trim userMessage) in
  let msg2 := toLowerCase (trim qaQuestion) in
  if strEq msg1 msg2 then Fin 100
  else if (length msg1 =? 0) || (length msg2 =? 0) then Fin 0
  else (Math_round (weightedScore msg1 msg2 * Fin 100) / Fin 100)%js.

Definition calculateContextualSimilarity
  (userMessage qaQuestion qaAnswer : jsstring) (qaTags : list jsstring)
  : number :=
  let score := calculateSimilarity userMessage qaQuestion in
  let userWords := splitSpaces (toLowerCase userMessage) in
  let tagMatches :=
    filter (fun tag =>
              existsb (fun word => includes word (toLowerCase tag)
                                   || includes (toLowerCase tag) word)
                      userWords)
           qaTags in
  let score :=
    if 0 <? length tagMatches
    then (score + Math_min (ofNat (length tagMatches) * Fin 5) (Fin 15))%js
    else score in
  let answerSimilarity := calculateSimilarity userMessage qaAnswer in
  let score :=
    if gtb answerSimilarity (Fin 30)
    then (score + Math_min (answerSimilarity * Fin 0.1) (Fin 10))%js
    else score in
  Math_min score (Fin 100).

(* ================================================================== *)
(** * Part V.  Candidate search: [findRelevantQAPairs]                *)
(* ================================================================== *)

(** The normal form of a message or question: trimmed, then lower-cased (as
    at the head of [calculateSimilarity]). *)
Definition normalize (s : jsstring) : jsstring := toLowerCase (trim s).

(** [orderBy: [{ priority: 'desc' }, { createdAt: 'desc' }]] *)
Definition byPriorityThenCreation (a b : QAPair) : number :=
  if Z.eqb (priority b) (priority a)
  then ofZ (createdAt b - createdAt a)
  else ofZ (priority b - priority a).

Definition byPriority (a b : QAPair) : number :=
  ofZ (priority b - priority a).

(** [prisma.qAPair.findMany({ where: { isActive: true }, orderBy: ... })] *)
Definition findMany (env : Env) : result (list QAPair) :=
  if findManyFails env then Throw
  else Ok (sort byPriorityThenCreation (filter isActive (qaPairs env))).

(** Modelled from the spec: [findExactMatch] is imported from
    [./findExactMatch], which is not among the sources.  The spec has
    [findExactMatches(normalizedText)] return the active entries whose
    question equals the message up to case and surrounding white space, and
    has the router pick the top one by priority: the matches come ordered by
    descending priority. *)
Definition isExactMatch (message : jsstring) (qa : QAPair) : bool :=
  isActive qa && strEq (normalize (question qa)) (normalize message).

Definition findExactMatch (env : Env) (message : jsstring)
  : result (list QAPair) :=
  if exactMatchFails env then Throw
  else Ok (sort byPriority (filter (isExactMatch message) (qaPairs env))).

(** The comparison function handed to [sort]. *)
Definition bySimilarityThenPriority (a b : QAPairWithSimilarity) : number :=
  if negb (eqn (similarity b) (similarity a))
  then (similarity b - similarity a)%js
  else ofZ (priority (entry b) - priority (entry a)).

Definition scoreQAPair (message : jsstring) (qa : QAPair)
  : QAPairWithSimilarity :=
  withSimilarity qa
    (calculateContextualSimilarity message (question qa) (answer qa) (tags qa)).

(** The [catch] branch: the original keyword lookup. *)
Definition legacyLookup (env : Env) (message : jsstring) (limit : nat)
  : M (list QAPairWithSimilarity) :=
  tryCatch
    (keywords <- call (CallExtractKeywords message)
                      (extractKeywords env message 2) ;;
     if length keywords =? 0
     then
       fallbackResults <- call (CallFindMatchByFullMessage message limit)
                               (findMatchByFullMessage env message limit) ;;
       ret (map (fun qa => withSimilarity qa (Fin 50)) fallbackResults)
     else
       fallbackResults <- call (CallFindMatchByKeywords keywords limit)
                               (findMatchByKeywords env keywords limit) ;;
       ret (map (fun qa => withSimilarity qa (Fin 50)) fallbackResults))%monad
    (ret []).

Definition findRelevantQAPairs (env : Env) (message : jsstring) (limit : nat)
  : M (list QAPairWithSimilarity) :=
  tryCatch
    (exactMatches <- call (CallFindExactMatch message)
                          (findExactMatch env message) ;;
     if 0 <? length exactMatches
     then ret (map (fun qa => withSimilarity qa (Fin 100)) exactMatches)
     else
       allQAPairs <- call CallFindMany (findMany env) ;;
       if length allQAPairs =? 0 then ret []
       else
         let qaPairsWithSimilarity := map (scoreQAPair message) allQAPairs in
         let sortedQAPairs :=
           firstn limit
             (sort bySimilarityThenPriority
                (filter (fun qa => gtb (similarity qa) (Fin 20))
                        qaPairsWithSimilarity)) in
         ret sortedQAPairs)%monad
    (legacyLookup env message limit).

(* ================================================================== *)
(** * Part VI.  The router: [generateResponse.ts]                     *)
(* ================================================================== *)

(** ["\n\n💡 *Related topic*: "]; the light bulb is the surrogate pair
    D83D DCA1. *)
Definition relatedTopic : jsstring :=
  [10; 10; 55357; 56481]%N ++ str " *Related topic*: ".

Definition errorMessage : jsstring :=
  str "Sorry, there was an error processing your message. Please try again later.".

(** Modelled from the spec: [getDefaultResponse] is imported from
    [./getDefaultResponse], which is not among the sources.  The spec has it
    return a fixed canned message parameterized only by the detected
    language. *)
Definition getDefaultResponse (env : Env) (message language : jsstring)
  : jsstring :=
  defaultMessage env language.

(** The [if (relevantQAs.length > 0) ... else ...] block of
    [generateResponse]: the text of the response and its source. *)
Definition selectResponse (env : Env) (message from language : jsstring)
  (relevantQAs : list QAPairWithSimilarity) : M (jsstring * ResponseSource) :=
  match relevantQAs with
  | bestMatch :: _ =>
      let similarityThreshold := Fin 90 in
      if geb (similarity bestMatch) similarityThreshold
      then ret (answer (entry bestMatch), QADatabase (similarity bestMatch))
      else
        tryCatch
          (aiResponse <- call (CallGenerateAIResponse message language from)
                              (generateAIResponse env message language from) ;;
           let text := response aiResponse in
           let text :=
             if geb (similarity bestMatch) (Fin 50)
             then text ++ relatedTopic ++ question (entry bestMatch)
             else text in
           ret (text, AIAgent (confidence aiResponse)))%monad
          (ret (answer (entry bestMatch), QAFallback (similarity bestMatch)))
  | [] =>
      tryCatch
        (aiResponse <- call (CallGenerateAIResponse message language from)
                            (generateAIResponse env message language from) ;;
         ret (response aiResponse, AIAgent (confidence aiResponse)))%monad
        (ret (getDefaultResponse env message language, DefaultResponse))
  end.

Definition generateResponse (env : Env) (message from senderName : jsstring)
  : M jsstring :=
  tryCatch
    (client <- call (CallFindOrCreateClient from senderName)
                    (findOrCreateClient env from senderName) ;;
     call (CallSaveMessage message false)
          (saveMessage env message (clientId client) false) ;;;
     call (CallUpdateClientActivity message)
          (updateClientActivity env (clientId client) message) ;;;
     relevantQAs <- findRelevantQAPairs env message 5 ;;
     let language := detectLanguage env message in
     selected <- selectResponse env message from language relevantQAs ;;
     let (text, responseSource) := selected in
     ([LogResponseSource responseSource], Ok tt) ;;;
     call (CallSaveMessage text true)
          (saveMessage env text (clientId client) true) ;;;
     call (CallUpdateClientActivity text)
          (updateClientActivity env (clientId client) text) ;;;
     ret text)%monad
    (ret errorMessage).

(* ================================================================== *)
(** * Part VII.  Vocabulary of the statements                         *)
(* ================================================================== *)

(** ** Edit distance

    [edits n s t]: [s] is turned into [t] by a left-to-right script that
    keeps a character or performs one of [n] single-character edits:
    substitution, insertion, deletion. *)
Inductive edits : nat -> jsstring -> jsstring -> Prop :=
| edits_nil : edits 0 [] []
| edits_keep c s t n : edits n s t -> edits n (c :: s) (c :: t)
| edits_substitute c d s t n : edits n s t -> edits (S n) (c :: s) (d :: t)
| edits_insert d s t n : edits n s t -> edits (S n) s (d :: t)
| edits_delete c s t n : edits n s t -> edits (S n) (c :: s) t.

(** The classic distance: the least number of edits. *)
Definition isEditDistance (d : nat) (s t : jsstring) : Prop :=
  edits d s t /\ forall n, edits n s t -> d <= n.

(** The recurrence the matrix tabulates, on strings read from their last
    character backwards. *)
Fixpoint lev (s t : jsstring) : nat :=
  match s with
  | [] => length t
  | a :: s' =>
      (fix inner (t : jsstring) : nat :=
         match t with
         | [] => length s
         | b :: t' =>
             if N.eqb a b then lev s' t'
             else min3 (lev s' t' + 1) (lev s' t + 1) (inner t' + 1)
         end) t
  end.

(** The value the matrix holds at row [i], column [j] once it is filled. *)
Definition prefixDistance (str1 str2 : jsstring) (i j : nat) : nat :=
  lev (rev (firstn j str1)) (rev (firstn i str2)).

Definition filledRow (str1 str2 : jsstring) (i : nat) : list nat :=
  map (prefixDistance str1 str2 i) (seq 0 (S (length str1))).

Definition freshRow (i : nat) : list nat := [i].

(** [100 * (maxLen - editDistance) / maxLen] *)
Definition editSimilarity (d : nat) (s t : jsstring) : number :=
  let maxLen := Nat.max (length s) (length t) in
  Fin (100 * (INR maxLen - INR d) / INR maxLen).

(** [y] is [x] rounded to 2 decimal places (a tie going up). *)
Definition roundedTo2 (x y : number) : Prop :=
  match x, y with
  | Fin a, Fin b =>
      exists k : Z, b = (IZR k / 100)%R /\ (b - 0.005 <= a < b + 0.005)%R
  | NaN, NaN => True
  | _, _ => False
  end.

(** A number within bounds; in particular not [NaN]. *)
Definition between (lo hi : R) (x : number) : Prop :=
  exists r, x = Fin r /\ (lo <= r <= hi)%R.

(** ** Keywords *)

(** [wordRun3 s]: [s] contains three consecutive word characters. *)
Fixpoint wordRun3 (s : jsstring) : bool :=
  match s with
  | [] => false
  | c1 :: s' =>
      match s' with
      | c2 :: c3 :: _ => isWordChar c1 && isWordChar c2 && isWordChar c3
      | _ => false
      end || wordRun3 s'
  end.

(** ** Word frequencies *)

Definition countIn (w : jsstring) (l : list jsstring) : nat :=
  length (filter (strEq w) l).

(** The own property that holds a count. *)
Definition countVal (n : nat) : option value :=
  match n with O => None | S _ => Some (Count n) end.

(** [freq[word] || 0], as a number. *)
Definition wordFreq (freq : object) (word : jsstring) : number :=
  toNumber (orZero (getProp freq word)).

Definition sumN (l : list number) : number := fold_right add_ (Fin 0) l.

Definition sumR (l : list R) : R := fold_right Rplus 0%R l.

(** No word of [s] is the name of a property of [Object.prototype]. *)
Definition ownWords (s : jsstring) : Prop :=
  Forall (fun x => inherited x = false) (splitSpaces (toLowerCase s)).

(** ** Collaborators outside the router *)

(** The client lookup and the two persistence calls resolve, whatever they
    are given. *)
Definition persistenceWorks (env : Env) : Prop :=
  (forall from senderName,
     exists client, findOrCreateClient env from senderName = Ok client) /\
  (forall text client isBot, saveMessage env text client isBot = Ok tt) /\
  (forall client text, updateClientActivity env client text = Ok tt).

(** ** Orders *)

(** [compare] does not put [x] after [y]. *)
Definition notAfter {A} (compare : A -> A -> number) (x y : A) : Prop :=
  gtb (compare x y) (Fin 0) = false.

(** [a] ranks before [b]: a higher similarity, or the same similarity and a
    priority at least as high. *)
Definition ranksBefore (a b : QAPairWithSimilarity) : Prop :=
  exists sa sb, similarity a = Fin sa /\ similarity b = Fin sb /\
    ((sb < sa)%R \/ (sa = sb /\ (priority (entry b) <= priority (entry a))%Z)).

Definition scored (c : QAPairWithSimilarity) : Prop :=
  exists s, similarity c = Fin s.

Definition priorityAtLeast (a b : QAPair) : Prop :=
  (priority b <= priority a)%Z.

(* ================================================================== *)
(** * Part VIII.  Computations against the outside world              *)
(* ================================================================== *)

(** The code of the parts that follow reaches the network and the database,
    whose answers may differ from one call to the next (the code retries).
    A computation therefore runs against a clock that counts the calls made
    so far: each collaborator answers as a function of the time of the call
    and of its arguments.  A rejection carries the [message] of its [Error],
    which the code copies into its results. *)

Inductive outcome (A : Type) : Type :=
| Resolved (a : A)
| Rejected (message : jsstring).
Arguments Resolved {A} a.
Arguments Rejected {A} message.

(** A computation with actions of type [E]: the trace of its actions, its
    outcome, and the time after. *)
Definition Run (E A : Type) : Type := nat -> list E * outcome A * nat.

Definition pure {E A} (a : A) : Run E A := fun now => ([], Resolved a, now).

Definition throw {E A} (message : jsstring) : Run E A :=
  fun now => ([], Rejected message, now).

Definition andThen {E A B} (m : Run E A) (k : A -> Run E B) : Run E B :=
  fun now =>
    match m now with
    | (trace, Resolved a, now') =>
        let '(trace', r, now'') := k a now' in (trace ++ trace', r, now'')
    | (trace, Rejected message, now') => (trace, Rejected message, now')
    end.

(** [try { body } catch (error) { handler(error.message) }] *)
Definition attempt {E A} (body : Run E A) (handler : jsstring -> Run E A)
  : Run E A :=
  fun now =>
    match body now with
    | (trace, Resolved a, now') => (trace, Resolved a, now')
    | (trace, Rejected message, now') =>
        let '(trace', r, now'') := handler message now' in
        (trace ++ trace', r, now'')
    end.

(** A call of a collaborator: it is recorded, answered for the current
    time, and the clock advances. *)
Definition perform {E A} (a : E) (answer : nat -> outcome A) : Run E A :=
  fun now => ([a], answer now, S now).

(** A call of a function that does not touch the outside world. *)
Definition settle {E A} (r : outcome A) : Run E A := fun now => ([], r, now).

Declare Scope io_scope.
Delimit Scope io_scope with io.
Notation "x <- m ;; k" := (andThen m (fun x => k))
  (at level 61, m at next level, right associativity) : io_scope.
Notation "m ;;; k" := (andThen m (fun _ => k))
  (at level 61, right associativity) : io_scope.

(* ================================================================== *)
(** * Part IX.  Message delivery                                      *)
(* ================================================================== *)

(** [callWhatsAppAPI.ts], [sendWhatsAppMessage],
    [MessageTrackingService.trackSentMessage] and [markAsRead],
    [processTextMessage.ts] and [EnhancedWhatsAppService.sendMessage].

    Logging is not modelled. *)

(** The body of the request: [{ messaging_product: 'whatsapp',
    recipient_type: 'individual', to, type: 'text',
    text: { preview_url: false, body } }], with [status: 'read'] added when
    read receipts are tracked. *)
Record MessagePayload : Type := mkMessagePayload {
  payloadTo : jsstring;
  payloadBody : jsstring;
  payloadStatusRead : bool
}.

(** What the code reads of a parsed response body: the [id] of its first
    message ([messages?.[0]?.id], [None] when there is none) and its
    rendering by [JSON.stringify]. *)
Record ResponseBody : Type := mkResponseBody {
  firstMessageId : option jsstring;
  stringified : jsstring
}.

Record FetchResponse : Type := mkFetchResponse {
  ok : bool;
  json : outcome ResponseBody
}.

Record WhatsAppConfig : Type := mkWhatsAppConfig {
  phoneNumberId : jsstring;
  accessToken : jsstring
}.

(** The [data] of the three [prisma.message.update] calls (the dates they
    set to [new Date()] are left out):
    [trackSentMessage], and the two updates of [sendMessage]. *)
Inductive MessageUpdate : Type :=
| TrackingStarted (whatsappMessageId : jsstring) (isAutomated : bool)
    (responseSource : option jsstring)      (* status: 'sent' *)
| MarkedSent (whatsappMessageId : jsstring) (* status: 'sent' *)
| MarkedFailed (errorDetails : jsstring).   (* status: 'failed' *)

(** The [data] of the [prisma.message.create] call of [sendMessage]:
    [isBot: true, status: 'pending'] and these fields. *)
Record PendingMessage : Type := mkPendingMessage {
  pendingText : jsstring;
  pendingClientId : jsstring;
  pendingIsAutomated : bool;
  pendingResponseSource : jsstring
}.

Inductive Action : Type :=
| Routed (e : Event)                 (* a call made by [generateResponse] *)
| ReadConfig                         (* getWhatsAppConfig() *)
| Post (apiUrl accessToken : jsstring) (payload : MessagePayload)  (* fetch *)
| UpdateMessage (recordId : jsstring) (data : MessageUpdate)
| CreateMessage (data : PendingMessage)
| FindClient (phone : jsstring)      (* prisma.client.findUnique *)
| CreateClient (phone name : jsstring)
| Sleep (milliseconds : nat).        (* setTimeout *)

(** The collaborators of the layer.  [getSenderName(value, from)] is given
    for the [value] object of the webhook that delivered the message. *)
Record Services : Type := mkServices {
  getWhatsAppConfig : nat -> outcome WhatsAppConfig;
  fetch : nat -> jsstring -> jsstring -> MessagePayload -> outcome FetchResponse;
  messageUpdate : nat -> jsstring -> MessageUpdate -> outcome unit;
  messageCreate : nat -> PendingMessage -> outcome jsstring;
  clientFindUnique : nat -> jsstring -> outcome (option jsstring);
  clientCreate : nat -> jsstring -> jsstring -> outcome jsstring;
  getSenderName : jsstring -> outcome jsstring
}.

Definition IO (A : Type) : Type := Run Action A.

(** The router within this layer.  Its calls are answered by [Env]; it
    never rejects ([generateResponse_resolves]), so the message given to a
    rejection here is never seen. *)
Definition routed {A} (m : M A) : IO A :=
  fun now =>
    (map Routed (fst m),
     match snd m with Ok a => Resolved a | Throw => Rejected [] end,
     now).

(** ** [callWhatsAppAPI]: of the [{ response, messageId }] it resolves with,
    its callers read [messageId]. *)
Definition callWhatsAppAPI (sv : Services)
  (phoneNumberId accessToken to text : jsstring) (trackReadReceipts : bool)
  : IO jsstring :=
  let apiUrl :=
    str "https://graph.facebook.com/v17.0/" ++ phoneNumberId ++ str "/messages" in
  let messagePayload := mkMessagePayload to text trackReadReceipts in
  (response <- perform (Post apiUrl accessToken messagePayload)
                       (fun now => fetch sv now apiUrl accessToken messagePayload) ;;
   if negb (ok response)
   then
     errorData <- settle (json response) ;;
     throw (str "WhatsApp API error: " ++ stringified errorData)
   else
     responseData <- settle (json response) ;;
     let messageId := orElse (firstMessageId responseData) [] in
     if negb (nonEmpty messageId)
     then throw (str "No message ID returned from WhatsApp API")
     else pure messageId)%io.

(** ** [MessageTrackingService] *)

Definition trackSentMessage (sv : Services)
  (whatsappMessageId internalMessageId to content : jsstring)
  (isAutomated : bool) (responseSource : option jsstring) : IO unit :=
  attempt
    (perform (UpdateMessage internalMessageId
                (TrackingStarted whatsappMessageId isAutomated responseSource))
             (fun now => messageUpdate sv now internalMessageId
                           (TrackingStarted whatsappMessageId isAutomated
                              responseSource)))
    (fun _ => pure tt).

(** [markAsRead] logs, and resolves to [true]. *)
Definition markAsRead (messageId : jsstring) : IO bool :=
  attempt (pure true) (fun _ => pure false).

(** ** [sendWhatsAppMessage] *)

Record SendMessageResult : Type := mkSendMessageResult {
  success : bool;
  messageId : option jsstring;
  error : option jsstring
}.

Definition sendWhatsAppMessage (sv : Services) (to text : jsstring)
  (internalMessageId : option jsstring)
  (trackReadReceipts isAutomated : bool) (responseSource : option jsstring)
  : IO SendMessageResult :=
  attempt
    (config <- perform ReadConfig (getWhatsAppConfig sv) ;;
     messageId <- callWhatsAppAPI sv (phoneNumberId config) (accessToken config)
                    to text trackReadReceipts ;;
     (if truthy internalMessageId && nonEmpty messageId
      then trackSentMessage sv messageId (orElse internalMessageId []) to text
             isAutomated responseSource
      else pure tt) ;;;
     pure (mkSendMessageResult true (Some messageId) None))%io
    (fun message =>
       let errorMessage := str "Failed to send WhatsApp message: " ++ message in
       pure (mkSendMessageResult false None (Some errorMessage))).

(** ** [processTextMessage] *)

(** The fields of a [WhatsAppMessage] the function reads: [id], [from] and
    [text.body]; [msgText] is [None] when the message has no [text]. *)
Record WhatsAppMessage : Type := mkWhatsAppMessage {
  msgId : jsstring;
  msgFrom : jsstring;
  msgText : option jsstring
}.

Definition processTextMessage (sv : Services) (env : Env)
  (message : WhatsAppMessage) : IO unit :=
  attempt
    (match msgText message with
     | None => pure tt
     | Some text =>
         let from := msgFrom message in
         senderName <- settle (getSenderName sv from) ;;
         markAsRead (msgId message) ;;;
         response <- routed (generateResponse env text from senderName) ;;
         let responseSource := str "Intelligent System" in
         let internalMessageId := [] in
         sendWhatsAppMessage sv from response (Some internalMessageId)
           true true (Some responseSource) ;;;
         pure tt
     end)%io
    (fun _ =>
       attempt
         (sendWhatsAppMessage sv (msgFrom message)
            (str "Sorry, there was an error processing your message. Please try again later.")
            None true true (Some (str "Error Fallback")) ;;;
          pure tt)%io
         (fun _ => pure tt)).

(** ** [EnhancedWhatsAppService] *)

(** [WhatsAppMessageOptions]; [None] is a property left out, for which the
    destructuring of [sendMessage] takes the default.  [retryAttempts] is a
    natural number. *)
Record WhatsAppMessageOptions : Type := mkWhatsAppMessageOptions {
  optTo : jsstring;
  optText : jsstring;
  optTrackReadReceipts : option bool;
  optIsAutomated : option bool;
  optResponseSource : option jsstring;
  optRetryAttempts : option nat;
  optPriority : option jsstring
}.

Definition getOrCreateClientId (sv : Services) (phoneNumber : jsstring)
  : IO jsstring :=
  attempt
    (client <- perform (FindClient phoneNumber)
                       (fun now => clientFindUnique sv now phoneNumber) ;;
     match client with
     | Some clientId => pure clientId
     | None =>
         let name := str "Client " ++ phoneNumber in
         perform (CreateClient phoneNumber name)
                 (fun now => clientCreate sv now phoneNumber name)
     end)%io
    (fun message => throw message).

(** One turn of the retry loop of [sendMessage]: [inl] is the value the
    function returns from inside the loop, [inr] the new [lastError]. *)
Definition sendAttempt (sv : Services) (to text recordId : jsstring)
  (trackReadReceipts isAutomated : bool) (responseSource : jsstring)
  (retryAttempts attemptNo : nat) : IO (SendMessageResult + jsstring) :=
  attempt
    (result <- sendWhatsAppMessage sv to text (Some recordId)
                 trackReadReceipts isAutomated (Some responseSource) ;;
     if success result && truthy (messageId result)
     then
       let whatsappMessageId := orElse (messageId result) [] in
       perform (UpdateMessage recordId (MarkedSent whatsappMessageId))
               (fun now => messageUpdate sv now recordId
                             (MarkedSent whatsappMessageId)) ;;;
       pure (inl (mkSendMessageResult true (Some whatsappMessageId) None))
     else pure (inr (orElse (error result) (str "Unknown error"))))%io
    (fun message =>
       ((if attemptNo <? retryAttempts
         then
           let delay := 2 ^ attemptNo * 1000 in
           perform (Sleep delay) (fun _ => Resolved tt)
         else pure tt) ;;;
        pure (inr message))%io).

(** [for (let attempt = 1; attempt <= retryAttempts; attempt++)]:
    [remaining] turns are left, the next one being number [attemptNo]. *)
Fixpoint sendAttempts (sv : Services) (to text recordId : jsstring)
  (trackReadReceipts isAutomated : bool) (responseSource : jsstring)
  (retryAttempts remaining attemptNo : nat) (lastError : jsstring)
  : IO (SendMessageResult + jsstring) :=
  match remaining with
  | O => pure (inr lastError)
  | S remaining' =>
      (turn <- sendAttempt sv to text recordId trackReadReceipts isAutomated
                 responseSource retryAttempts attemptNo ;;
       match turn with
       | inl result => pure (inl result)
       | inr lastError' =>
           sendAttempts sv to text recordId trackReadReceipts isAutomated
             responseSource retryAttempts remaining' (S attemptNo) lastError'
       end)%io
  end.

Definition sendMessage (sv : Services) (options : WhatsAppMessageOptions)
  : IO SendMessageResult :=
  attempt
    (let to := optTo options in
     let text := optText options in
     let trackReadReceipts := fromOption (optTrackReadReceipts options) true in
     let isAutomated := fromOption (optIsAutomated options) false in
     let responseSource :=
       fromOption (optResponseSource options) (str "Enhanced WhatsApp Service") in
     let retryAttempts := fromOption (optRetryAttempts options) 3 in
     clientId <- getOrCreateClientId sv to ;;
     recordId <- perform (CreateMessage
                            (mkPendingMessage text clientId isAutomated
                               responseSource))
                         (fun now => messageCreate sv now
                                       (mkPendingMessage text clientId
                                          isAutomated responseSource)) ;;
     turns <- sendAttempts sv to text recordId trackReadReceipts isAutomated
                responseSource retryAttempts retryAttempts 1 [] ;;
     match turns with
     | inl result => pure result
     | inr lastError =>
         perform (UpdateMessage recordId (MarkedFailed lastError))
                 (fun now => messageUpdate sv now recordId
                               (MarkedFailed lastError)) ;;;
         pure (mkSendMessageResult false None (Some lastError))
     end)%io
    (fun message => pure (mkSendMessageResult false None (Some message))).

(* ================================================================== *)
(** * Part X.  Property search: [PropertySearchService]               *)
(* ================================================================== *)

(** The class [PropertySearchService] of [generateResponse.ts]: the helpers
    that read criteria from a lower-cased message (except [extractCity] and
    [extractBedrooms]), the scoring of properties, and [searchProperties].
    The two database queries [performDirectSearch] and
    [performBroaderSearch] are collaborators. *)

(** ** Arabic literals of the code, as UTF-16 code units *)

(** "hammam", "hammamat": bathroom, bathrooms. *)
Definition hammam : jsstring := [1581; 1605; 1575; 1605]%N.
Definition hammamat : jsstring := [1581; 1605; 1575; 1605; 1575; 1578]%N.
(** "mafrush", "ghayr mafrush": furnished, not furnished. *)
Definition mafrush : jsstring := [1605; 1601; 1585; 1608; 1588]%N.
Definition ghayrMafrush : jsstring :=
  [1594; 1610; 1585; 32; 1605; 1601; 1585; 1608; 1588]%N.
(** "masbah", "hadiqa", "mawaqif", "mawaqif sayyarat", "mis'ad", "jaraj":
    pool, garden, parking, car parking, elevator, garage. *)
Definition masbah : jsstring := [1605; 1587; 1576; 1581]%N.
Definition hadiqa : jsstring := [1581; 1583; 1610; 1602; 1577]%N.
Definition mawaqif : jsstring := [1605; 1608; 1575; 1602; 1601]%N.
Definition mawaqifSayyarat : jsstring :=
  [1605; 1608; 1575; 1602; 1601; 32; 1587; 1610; 1575; 1585; 1575; 1578]%N.
Definition misad : jsstring := [1605; 1589; 1593; 1583]%N.
Definition jaraj : jsstring := [1580; 1585; 1575; 1580]%N.
(** The names of the property types: villa (three spellings), apartment
    (two), town house (two), studio (two), duplex, penthouse, house, home. *)
Definition fila : jsstring := [1601; 1610; 1604; 1575]%N.
Definition filah : jsstring := [1601; 1610; 1604; 1577]%N.
Definition filal : jsstring := [1601; 1604; 1604]%N.
Definition shaqqa : jsstring := [1588; 1602; 1577]%N.
Definition shuqaq : jsstring := [1588; 1602; 1602]%N.
Definition tawnHaws : jsstring :=
  [1578; 1575; 1608; 1606; 32; 1607; 1575; 1608; 1587]%N.
Definition tawnhaws : jsstring :=
  [1578; 1575; 1608; 1606; 1607; 1575; 1608; 1587]%N.
Definition istudyu : jsstring := [1575; 1587; 1578; 1608; 1583; 1610; 1608]%N.
Definition studyu : jsstring := [1587; 1578; 1608; 1583; 1610; 1608]%N.
Definition dublaks : jsstring := [1583; 1608; 1576; 1604; 1603; 1587]%N.
Definition banthaws : jsstring := [1576; 1606; 1578; 1607; 1575; 1608; 1587]%N.
Definition bayt : jsstring := [1576; 1610; 1578]%N.
Definition manzil : jsstring := [1605; 1606; 1586; 1604]%N.

(** ** Criteria read from the message *)

Definition extractBathrooms (message : jsstring) : option nat :=
  match matchQuantity [hammam; hammamat; str "bathroom"; str "bathrooms"]
          message with
  | Some (digits, _) => Some (parseInt digits)
  | None => None
  end.


Definition propertyTypes : list (list jsstring * jsstring) :=
  [ ([fila; filah; str "villa"; filal], str "VILLA");
    ([shaqqa; shuqaq; str "apartment"; str "flat"], str "APARTMENT");
    ([tawnHaws; tawnhaws; str "townhouse"; str "town house"], str "TOWNHOUSE");
    ([istudyu; studyu; str "studio"], str "STUDIO");
    ([dublaks; str "duplex"], str "DUPLEX");
    ([banthaws; str "penthouse"], str "PENTHOUSE");
    ([bayt; manzil; str "house"; str "home"], str "VILLA") ].

Definition extractPropertyType (message : jsstring) : option jsstring :=
  match find (fun entry => existsb (fun keyword => includes message keyword)
                                   (fst entry))
             propertyTypes with
  | Some entry => Some (snd entry)
  | None => None
  end.

Definition extractFeatures (message : jsstring) : list jsstring :=
  let features := [] in
  let features :=
    if includes message masbah || includes message (str "pool")
    then features ++ [masbah] else features in
  let features :=
    if includes message hadiqa || includes message (str "garden")
    then features ++ [hadiqa] else features in
  let features :=
    if includes message mawaqif || includes message (str "parking")
    then features ++ [mawaqifSayyarat] else features in
  let features :=
    if includes message misad || includes message (str "elevator")
    then features ++ [misad] else features in
  features.



Definition extractFurnishedStatus (message : jsstring) : option bool :=
  if includes message mafrush || includes message (str "furnished")
  then Some true
  else if includes message ghayrMafrush || includes message (str "unfurnished")
  then Some false
  else None.

Definition extractParkingRequirement (message : jsstring) : bool :=
  includes message mawaqif || includes message (str "parking")
  || includes message jaraj || includes message (str "garage").

(** ** Scoring *)

(** The fields of a row of the [Property] table the scoring reads, with the
    types of [prisma/schema.prisma]. *)
Record Property : Type := mkProperty {
  propertyId : jsstring;
  city : jsstring;
  cityAr : option jsstring;
  location : jsstring;
  locationAr : option jsstring;
  bedrooms : option Z;
  area : option R;
  propertyType : jsstring;
  price : R;
  features : list jsstring;
  featuresAr : list jsstring;
  amenities : list jsstring;
  amenitiesAr : list jsstring;
  isFeatured : bool
}.

(** [PropertySearchCriteria['criteria']]; [None] is a property that is
    [undefined].  The numbers are integers and reals (not [NaN]). *)
Record SearchCriteria : Type := mkSearchCriteria {
  criteriaCity : option jsstring;
  criteriaBedrooms : option Z;
  criteriaArea : option R;
  criteriaFeatures : option (list jsstring);
  criteriaPriceRange : option (R * R);           (* min, max *)
  criteriaPropertyType : option jsstring;
  criteriaBathrooms : option Z;
  criteriaFurnished : option bool;
  criteriaParking : option bool
}.

Definition cityMatches (property : Property) (cityName : jsstring) : bool :=
  let cityLower := toLowerCase cityName in
  existsb (fun field => truthy field
                        && includes (toLowerCase (orElse field [])) cityLower)
          [Some (city property); cityAr property;
           Some (location property); locationAr property].

Definition areaMatches (propertyArea : option R) (targetArea : R) : bool :=
  match propertyArea with
  | None => false
  | Some propertyArea =>
      if Req_dec_T propertyArea 0 then false
      else
        let tolerance := 0.3%R in
        geb (Fin propertyArea) (Fin (targetArea * (1 - tolerance)))
        && geb (Fin (targetArea * (1 + tolerance))) (Fin propertyArea)
  end.

Definition getMatchedFeatures (property : Property)
  (targetFeatures : list jsstring) : list jsstring :=
  let propertyFeatures :=
    features property ++ featuresAr property ++ amenities property
    ++ amenitiesAr property in
  filter (fun feature =>
            existsb (fun pf =>
                       includes (toLowerCase pf) (toLowerCase feature)
                       || includes (toLowerCase feature) (toLowerCase pf))
                    propertyFeatures)
         targetFeatures.

Definition priceInRange (price : R) (range : R * R) : bool :=
  geb (Fin price) (Fin (fst range)) && geb (Fin (snd range)) (Fin price).

(** The entries of [matchReasons]: the Arabic phrases for "matching
    location", "matching number of rooms", "matching area", "matching
    property type", "n matching features", "suitable price" and "featured
    property". *)
Inductive MatchReason : Type :=
| MatchingLocation
| MatchingBedrooms
| MatchingArea
| MatchingType
| MatchingFeatures (n : nat)
| SuitablePrice
| FeaturedProperty.

(** [{ ...property, matchScore, matchReasons }] *)
Record PropertyWithScore : Type := mkPropertyWithScore {
  property : Property;
  matchScore : nat;
  matchReasons : list MatchReason
}.

(** The body of the [map] of [scoreProperties]. *)
Definition scoreProperty (criteria : SearchCriteria) (property : Property)
  : PropertyWithScore :=
  let score := 0%nat in
  let matchReasons := [] in
  (* city match (30 points) *)
  let '(score, matchReasons) :=
    match criteriaCity criteria with
    | Some cityName =>
        if nonEmpty cityName && cityMatches property cityName
        then ((score + 30)%nat, matchReasons ++ [MatchingLocation])
        else (score, matchReasons)
    | None => (score, matchReasons)
    end in
  (* bedroom match (25 points) *)
  let '(score, matchReasons) :=
    match criteriaBedrooms criteria, bedrooms property with
    | Some wanted, Some found =>
        if negb (Z.eqb wanted 0) && Z.eqb found wanted
        then ((score + 25)%nat, matchReasons ++ [MatchingBedrooms])
        else (score, matchReasons)
    | _, _ => (score, matchReasons)
    end in
  (* area match (20 points) *)
  let '(score, matchReasons) :=
    match criteriaArea criteria with
    | Some targetArea =>
        if (if Req_dec_T targetArea 0 then false else true)
           && areaMatches (area property) targetArea
        then ((score + 20)%nat, matchReasons ++ [MatchingArea])
        else (score, matchReasons)
    | None => (score, matchReasons)
    end in
  (* property type (20 points) *)
  let '(score, matchReasons) :=
    match criteriaPropertyType criteria with
    | Some wanted =>
        if nonEmpty wanted && strEq (propertyType property) wanted
        then ((score + 20)%nat, matchReasons ++ [MatchingType])
        else (score, matchReasons)
    | None => (score, matchReasons)
    end in
  (* features match (5 points each) *)
  let '(score, matchReasons) :=
    match criteriaFeatures criteria with
    | Some targetFeatures =>
        let matchedFeatures := getMatchedFeatures property targetFeatures in
        ((score + length matchedFeatures * 5)%nat,
         if (0 <? length matchedFeatures)%nat
         then matchReasons ++ [MatchingFeatures (length matchedFeatures)]
         else matchReasons)
    | None => (score, matchReasons)
    end in
  (* price range match (15 points) *)
  let '(score, matchReasons) :=
    match criteriaPriceRange criteria with
    | Some range =>
        if priceInRange (price property) range
        then ((score + 15)%nat, matchReasons ++ [SuitablePrice])
        else (score, matchReasons)
    | None => (score, matchReasons)
    end in
  (* featured property bonus (3 points) *)
  let '(score, matchReasons) :=
    if isFeatured property
    then ((score + 3)%nat, matchReasons ++ [FeaturedProperty])
    else (score, matchReasons) in
  mkPropertyWithScore property score matchReasons.

(** [(a, b) => (b.matchScore || 0) - (a.matchScore || 0)] *)
Definition byMatchScore (a b : PropertyWithScore) : number :=
  ofZ (Z.of_nat (matchScore b) - Z.of_nat (matchScore a)).

Definition scoreProperties (properties : list Property)
  (criteria : SearchCriteria) : list PropertyWithScore :=
  sort byMatchScore (map (scoreProperty criteria) properties).

(** ** [searchProperties] *)







(* ================================================================== *)
(** * Part XI.  Vocabulary of the further statements                  *)
(* ================================================================== *)

(** A similarity a candidate may carry: a number above the floor of 20 and
    at most 100. *)
Definition validSimilarity (c : QAPairWithSimilarity) : Prop :=
  exists s, similarity c = Fin s /\ (20 < s <= 100)%R.

(** The events that are calls of the generative fallback. *)
Definition isGenerativeCall (e : Event) : bool :=
  match e with
  | CallGenerateAIResponse _ _ _ => true
  | _ => false
  end.

(** ** Runs of the delivery layer *)

Definition traceOf {E A} (run : list E * outcome A * nat) : list E :=
  fst (fst run).

Definition outcomeOf {E A} (run : list E * outcome A * nat) : outcome A :=
  snd (fst run).

Definition timeOf {E A} (run : list E * outcome A * nat) : nat := snd run.

Definition isPost (a : Action) : bool :=
  match a with Post _ _ _ => true | _ => false end.

Definition isSleep (a : Action) : bool :=
  match a with Sleep _ => true | _ => false end.

Definition isUpdateMessage (a : Action) : bool :=
  match a with UpdateMessage _ _ => true | _ => false end.

(** The two shapes of a [SendMessageResult]. *)
Definition sent (whatsappMessageId : jsstring) : SendMessageResult :=
  mkSendMessageResult true (Some whatsappMessageId) None.

Definition notSent (why : jsstring) : SendMessageResult :=
  mkSendMessageResult false None (Some why).

(** Every wait of the trace comes directly after an update that marks the
    message as sent. *)
Inductive backoffsFollowSent : list Action -> Prop :=
| bfs_nil : backoffsFollowSent []
| bfs_action a trace :
    isSleep a = false -> backoffsFollowSent trace ->
    backoffsFollowSent (a :: trace)
| bfs_backoff recordId whatsappMessageId milliseconds trace :
    backoffsFollowSent trace ->
    backoffsFollowSent (UpdateMessage recordId (MarkedSent whatsappMessageId)
                          :: Sleep milliseconds :: trace).

(** The address [callWhatsAppAPI] posts to. *)
Definition messagesUrl (phoneNumberId : jsstring) : jsstring :=
  str "https://graph.facebook.com/v17.0/" ++ phoneNumberId ++ str "/messages".

(** The time a trace spends waiting, in milliseconds. *)
Definition sleepOf (a : Action) : nat :=
  match a with Sleep milliseconds => milliseconds | _ => 0 end.

Definition totalSleep (trace : list Action) : nat := list_sum (map sleepOf trace).

(** The requests of the trace all carry this recipient and this text. *)
Definition postsCarry (to text : jsstring) (trace : list Action) : Prop :=
  forall apiUrl accessToken payload,
    In (Post apiUrl accessToken payload) trace ->
    payloadTo payload = to /\ payloadBody payload = text.

(* ================================================================== *)
(** * Part XII.  Proofs                                               *)
(* ================================================================== *)

(** ** The matrix of [levenshteinDistance] *)

Lemma lev_nil_r s : lev s [] = length s.
Proof. destruct s; reflexivity. Qed.

Lemma lev_cons a s b t :
  lev (a :: s) (b :: t) =
  if N.eqb a b then lev s t
  else min3 (lev s t + 1) (lev s (b :: t) + 1) (lev (a :: s) t + 1).
Proof. reflexivity. Qed.

Section Matrix.
Variables str1 str2 : jsstring.
Let len1 := length str1.
Let len2 := length str2.

Lemma store_at_length {A} (l : list A) v : store l (length l) v = l ++ [v].
Proof. induction l; simpl; congruence. Qed.

Lemma store_middle {A} (l1 : list A) x l2 v :
  store (l1 ++ x :: l2) (length l1) v = l1 ++ v :: l2.
Proof. induction l1; simpl; congruence. Qed.

Lemma firstn_snoc (s : jsstring) j c :
  nth_error s j = Some c -> firstn (S j) s = firstn j s ++ [c].
Proof.
  revert j; induction s as [|x s IH]; intros [|j] H; simpl in *; try discriminate.
  - congruence.
  - f_equal. apply IH, H.
Qed.

Lemma prefixDistance_row0 j : j <= len1 -> prefixDistance str1 str2 0 j = j.
Proof.
  intros H. unfold prefixDistance. simpl. rewrite lev_nil_r, length_rev, length_firstn.
  unfold len1 in H. lia.
Qed.

Lemma prefixDistance_col0 i : i <= len2 -> prefixDistance str1 str2 i 0 = i.
Proof.
  intros H. unfold prefixDistance. simpl. rewrite length_rev, length_firstn.
  unfold len2 in H. lia.
Qed.

Lemma prefixDistance_step i j c2 c1 :
  charAt str2 i = Some c2 -> charAt str1 j = Some c1 ->
  prefixDistance str1 str2 (S i) (S j) =
  if N.eqb c2 c1 then prefixDistance str1 str2 i j
  else min3 (prefixDistance str1 str2 i j + 1)
            (prefixDistance str1 str2 (S i) j + 1)
            (prefixDistance str1 str2 i (S j) + 1).
Proof.
  unfold charAt, prefixDistance. intros H2 H1.
  rewrite (firstn_snoc _ _ _ H2), (firstn_snoc _ _ _ H1).
  rewrite !rev_app_distr. simpl. rewrite N.eqb_sym. reflexivity.
Qed.

(** The matrix during the fill: [pre] holds the finished rows, [cur] is the
    row being filled, [post] the rows still to fill. *)
Lemma matrixGet_cur (pre : list (list nat)) cur post i j :
  length pre = i ->
  matrixGet (pre ++ cur :: post) i j = nth j cur 0.
Proof. intros <-. unfold matrixGet. now rewrite nth_middle. Qed.

Lemma matrixGet_pre (pre : list (list nat)) cur post i j :
  i < length pre ->
  matrixGet (pre ++ cur :: post) i j = nth j (nth i pre []) 0.
Proof. intros H. unfold matrixGet. now rewrite app_nth1. Qed.

Lemma matrixSet_cur (pre : list (list nat)) cur post i j v :
  length pre = i ->
  matrixSet (pre ++ cur :: post) i j v = pre ++ store cur j v :: post.
Proof. intros <-. unfold matrixSet. now rewrite nth_middle, store_middle. Qed.

Lemma nth_map_seq (f : nat -> nat) n j : j < n -> nth j (map f (seq 0 n)) 0 = f j.
Proof.
  intros H. rewrite (nth_indep _ 0 (f 0)) by now rewrite length_map, length_seq.
  rewrite map_nth, seq_nth by assumption. reflexivity.
Qed.

Lemma map_seq_snoc (f : nat -> nat) n : map f (seq 0 (S n)) = map f (seq 0 n) ++ [f n].
Proof. rewrite seq_S, map_app. reflexivity. Qed.

Lemma store_map_seq (f : nat -> nat) n v :
  store (map f (seq 0 n)) n v = map f (seq 0 n) ++ [v].
Proof.
  rewrite <- store_at_length. f_equal. now rewrite length_map, length_seq.
Qed.

Lemma fill_row i pre post :
  length pre = S i -> S i <= len2 ->
  nth i pre [] = filledRow str1 str2 i ->
  forall n k, k + n = len1 ->
  fold_left (levenshteinCell str1 str2 (S i)) (seq (S k) n)
            (pre ++ map (prefixDistance str1 str2 (S i)) (seq 0 (S k)) :: post)
  = pre ++ filledRow str1 str2 (S i) :: post.
Proof.
  intros Hpre Hi Hrow n. induction n as [|n IH]; intros k Hk.
  - simpl. unfold filledRow; fold len1. replace len1 with k by lia. reflexivity.
  - change (seq (S k) (S n)) with (S k :: seq (S (S k)) n). cbn [fold_left].
    rewrite <- (IH (S k)) by lia. f_equal.
    unfold levenshteinCell.
    replace (S i - 1) with i by lia. replace (S k - 1) with k by lia.
    destruct (nth_error str2 i) as [c2|] eqn:E2.
    2:{ apply nth_error_None in E2. unfold len2 in Hi. lia. }
    destruct (nth_error str1 k) as [c1|] eqn:E1.
    2:{ apply nth_error_None in E1. unfold len1 in Hk. lia. }
    unfold charAt. rewrite E2, E1. cbn [charEq].
    rewrite !(matrixGet_cur pre _ post (S i)) by assumption.
    rewrite !(matrixSet_cur pre _ post (S i)) by assumption.
    rewrite !matrixGet_pre by lia. rewrite Hrow. unfold filledRow; fold len1.
    rewrite !nth_map_seq by lia.
    rewrite (map_seq_snoc (prefixDistance str1 str2 (S i)) (S k)).
    rewrite !store_map_seq.
    rewrite (prefixDistance_step i k c2 c1 E2 E1).
    destruct (N.eqb c2 c1); reflexivity.
Qed.

Lemma create_rows n k (m : list (list nat)) :
  length m = k ->
  fold_left (fun m i => store m i [i]) (seq k n) m = m ++ map freshRow (seq k n).
Proof.
  revert k m. induction n as [|n IH]; intros k m Hm; simpl.
  - now rewrite app_nil_r.
  - subst k. rewrite store_at_length.
    rewrite IH by (rewrite length_app; simpl; lia).
    now rewrite <- app_assoc.
Qed.

Lemma create_row0 (post : list (list nat)) n k :
  fold_left (fun m j => matrixSet m 0 j j) (seq (S k) n) (seq 0 (S k) :: post)
  = seq 0 (S k + n) :: post.
Proof.
  revert k. induction n as [|n IH]; intros k.
  - now rewrite Nat.add_0_r.
  - change (seq (S k) (S n)) with (S k :: seq (S (S k)) n). cbn [fold_left].
    unfold matrixSet at 2. cbn [nth store].
    replace (store (seq 0 (S k)) (S k) (S k)) with (seq 0 (S (S k))).
    + rewrite IH. f_equal. f_equal. lia.
    + rewrite (seq_S (S k)). rewrite <- store_at_length.
      now rewrite length_seq.
Qed.

Lemma filledRow_0 : filledRow str1 str2 0 = seq 0 (S len1).
Proof.
  unfold filledRow; fold len1. rewrite <- (map_id (seq 0 (S len1))) at 2.
  apply map_ext_in. intros j Hj. apply in_seq in Hj. apply prefixDistance_row0. lia.
Qed.

Lemma fill_rows n i :
  i + n = len2 ->
  fold_left (fun m i => fold_left (levenshteinCell str1 str2 i) (seq 1 len1) m)
            (seq (S i) n)
            (map (filledRow str1 str2) (seq 0 (S i)) ++ map freshRow (seq (S i) n))
  = map (filledRow str1 str2) (seq 0 (S len2)).
Proof.
  revert i. induction n as [|n IH]; intros i Hi.
  - simpl. rewrite app_nil_r. now replace len2 with i by lia.
  - change (seq (S i) (S n)) with (S i :: seq (S (S i)) n).
    cbn [fold_left map].
    replace (freshRow (S i)) with (map (prefixDistance str1 str2 (S i)) (seq 0 1))
      by (cbn [seq map]; rewrite prefixDistance_col0 by lia; reflexivity).
    rewrite (fill_row i) with (n := len1) (k := 0).
    + replace (map (filledRow str1 str2) (seq 0 (S i))
                 ++ filledRow str1 str2 (S i) :: map freshRow (seq (S (S i)) n))
        with (map (filledRow str1 str2) (seq 0 (S (S i)))
                ++ map freshRow (seq (S (S i)) n)).
      * apply IH. lia.
      * rewrite (seq_S (S i)), map_app, <- app_assoc. reflexivity.
    + now rewrite length_map, length_seq.
    + lia.
    + rewrite (nth_indep _ [] (filledRow str1 str2 0))
        by (rewrite length_map, length_seq; lia).
      rewrite map_nth, seq_nth by lia. reflexivity.
    + reflexivity.
Qed.

Theorem levenshteinDistance_lev :
  levenshteinDistance str1 str2 = lev (rev str1) (rev str2).
Proof.
  unfold levenshteinDistance. fold len1 len2.
  rewrite (create_rows (S len2) 0 []) by reflexivity.
  cbn [app]. change (seq 0 (S len2)) with (0 :: seq 1 len2) at 1.
  cbn [map]. change (seq 0 (S len1)) with (0 :: seq 1 len1) at 1.
  cbn [fold_left]. unfold matrixSet at 2. cbn [nth store freshRow].
  change [0] with (seq 0 1) at 1.
  rewrite create_row0. cbn [Nat.add].
  rewrite <- filledRow_0.
  change (filledRow str1 str2 0 :: map freshRow (seq 1 len2))
    with (map (filledRow str1 str2) (seq 0 1) ++ map freshRow (seq 1 len2)).
  rewrite fill_rows by reflexivity.
  unfold matrixGet.
  rewrite (nth_indep _ [] (filledRow str1 str2 0))
    by (rewrite length_map, length_seq; lia).
  rewrite map_nth, seq_nth by lia. unfold filledRow; fold len1.
  rewrite nth_map_seq by lia. unfold prefixDistance, len1, len2.
  cbn [Nat.add]. now rewrite !firstn_all.
Qed.

End Matrix.

Create HintDb edits.
#[local] Hint Constructors edits : edits.

Lemma edits_sym n s t : edits n s t -> edits n t s.
Proof. induction 1; eauto with edits. Qed.

Lemma edits_app n s t m u v :
  edits n s t -> edits m u v -> edits (n + m) (s ++ u) (t ++ v).
Proof. intros H K. induction H; simpl; eauto with edits. Qed.

Lemma edits_rev n s t : edits n s t -> edits n (rev s) (rev t).
Proof.
  induction 1; simpl.
  - constructor.
  - rewrite <- (Nat.add_0_r n). apply edits_app; auto with edits.
  - rewrite <- Nat.add_1_r. apply edits_app; auto with edits.
  - rewrite <- Nat.add_1_r, <- (app_nil_r (rev s)).
    apply edits_app; auto with edits.
  - rewrite <- Nat.add_1_r, <- (app_nil_r (rev t)).
    apply edits_app; auto with edits.
Qed.

Lemma edits_inserts t : edits (length t) [] t.
Proof. induction t; simpl; auto with edits. Qed.

Lemma edits_deletes s : edits (length s) s [].
Proof. induction s; simpl; auto with edits. Qed.

Lemma min3_cases a b c :
  (min3 a b c = a /\ a <= b /\ a <= c) \/
  (min3 a b c = b /\ b <= a /\ b <= c) \/
  (min3 a b c = c /\ c <= a /\ c <= b).
Proof. unfold min3. lia. Qed.

Lemma lev_sound s t : edits (lev s t) s t.
Proof.
  revert t. induction s as [|a s IHs]; intros t.
  - apply edits_inserts.
  - induction t as [|b t IHt].
    + apply (edits_deletes (a :: s)).
    + rewrite lev_cons. destruct (N.eqb_spec a b) as [->|_].
      * apply edits_keep, IHs.
      * destruct (min3_cases (lev s t + 1) (lev s (b :: t) + 1) (lev (a :: s) t + 1))
          as [[-> _]|[[-> _]|[-> _]]]; rewrite Nat.add_1_r; auto with edits.
Qed.

Lemma edits_drop_left n u t :
  edits n u t -> forall c s, u = c :: s -> exists m, m <= S n /\ edits m s t.
Proof.
  induction 1 as [|c0 s0 t0 n H IH|c0 d s0 t0 n H IH|d s0 t0 n H IH|c0 s0 t0 n H IH];
    intros c s E.
  - discriminate.
  - injection E as -> ->. exists (S n). auto with edits.
  - injection E as -> ->. exists (S n). auto with edits.
  - destruct (IH c s E) as (m & Hm & K). exists (S m). split; [lia|auto with edits].
  - injection E as -> ->. exists n. auto with edits.
Qed.

Lemma edits_drop_right n s d t :
  edits n s (d :: t) -> exists m, m <= S n /\ edits m s t.
Proof.
  intros H. apply edits_sym in H.
  destruct (edits_drop_left _ _ _ H _ _ eq_refl) as (m & Hm & K).
  exists m. split; [exact Hm|now apply edits_sym].
Qed.

Lemma lev_least k :
  forall s t n, length s + length t <= k -> edits n s t -> lev s t <= n.
Proof.
  induction k as [|k IH]; intros s t n Hk H.
  - destruct s, t; simpl in Hk; try lia. inversion H; subst. simpl. lia.
  - inversion H as [|c s' t' n' H'|c d s' t' n' H'|d s' t' n' H'|c s' t' n' H']; subst.
    + simpl. lia.
    + rewrite lev_cons, N.eqb_refl. apply IH; [simpl in Hk; lia|assumption].
    + assert (lev s' t' <= n') by (apply IH; [simpl in Hk; lia|assumption]).
      rewrite lev_cons. destruct (N.eqb c d); unfold min3; lia.
    + assert (L : lev s t' <= n') by (apply IH; [simpl in Hk; lia|assumption]).
      destruct s as [|c s''].
      * simpl in *. lia.
      * rewrite lev_cons. destruct (N.eqb c d).
        -- destruct (edits_drop_left _ _ _ H' _ _ eq_refl) as (m & Hm & K).
           assert (lev s'' t' <= m) by (apply IH; [simpl in Hk; lia|assumption]).
           lia.
        -- unfold min3; lia.
    + assert (L : lev s' t <= n') by (apply IH; [simpl in Hk; lia|assumption]).
      destruct t as [|d t''].
      * rewrite lev_nil_r in *. simpl. lia.
      * rewrite lev_cons. destruct (N.eqb c d).
        -- destruct (edits_drop_right _ _ _ _ H') as (m & Hm & K).
           assert (lev s' t'' <= m) by (apply IH; [simpl in Hk; lia|assumption]).
           lia.
        -- unfold min3; lia.
Qed.

Lemma lev_isEditDistance s t : isEditDistance (lev s t) s t.
Proof.
  split; [apply lev_sound|].
  intros n H. now apply (lev_least (length s + length t)).
Qed.

Theorem levenshteinDistance_isEditDistance s t :
  isEditDistance (levenshteinDistance s t) s t.
Proof.
  rewrite levenshteinDistance_lev.
  destruct (lev_isEditDistance (rev s) (rev t)) as [H1 H2]. split.
  - apply edits_rev in H1. now rewrite !rev_involutive in H1.
  - intros n H. apply H2, edits_rev, H.
Qed.




Lemma edits_max s : forall t, edits (Nat.max (length s) (length t)) s t.
Proof.
  induction s as [|c s IH]; intros t.
  - apply edits_inserts.
  - destruct t as [|d t].
    + apply (edits_deletes (c :: s)).
    + simpl. apply edits_substitute, IH.
Qed.

Lemma levenshteinDistance_le_max s t :
  levenshteinDistance s t <= Nat.max (length s) (length t).
Proof.
  destruct (levenshteinDistance_isEditDistance s t) as [_ H].
  apply H, edits_max.
Qed.

(** ** Strings and sets *)

Lemma strEq_eq s t : strEq s t = true <-> s = t.
Proof.
  revert t. induction s as [|c s IH]; intros [|d t]; simpl; split; intros H;
    try reflexivity; try discriminate.
  - apply andb_true_iff in H as [H1 H2]. apply N.eqb_eq in H1. apply IH in H2. congruence.
  - injection H as -> ->. rewrite N.eqb_refl. simpl. now apply IH.
Qed.

Lemma strEq_refl s : strEq s s = true.
Proof. now apply strEq_eq. Qed.


Lemma strEq_neq s t : strEq s t = false <-> s <> t.
Proof.
  split.
  - intros H E. subst. now rewrite strEq_refl in H.
  - intros H. destruct (strEq s t) eqn:E; [|reflexivity]. now apply strEq_eq in E.
Qed.

Lemma has_In s x : has s x = true <-> In x s.
Proof.
  unfold has. rewrite existsb_exists. split.
  - intros (y & Hy & E). apply strEq_eq in E. now subst.
  - intros H. exists x. split; [assumption|apply strEq_refl].
Qed.

Lemma has_false s x : has s x = false <-> ~ In x s.
Proof.
  rewrite <- has_In. destruct (has s x); split; congruence.
Qed.

Lemma setAdd_In s x y : In y (setAdd s x) <-> In y s \/ y = x.
Proof.
  unfold setAdd. destruct (has s x) eqn:E.
  - apply has_In in E. split; [auto|]. intros [H| ->]; assumption.
  - rewrite in_app_iff. simpl. intuition.
Qed.

Lemma setAdd_NoDup s x : NoDup s -> NoDup (setAdd s x).
Proof.
  intros H. unfold setAdd. destruct (has s x) eqn:E; [assumption|].
  apply has_false in E. apply NoDup_app; [assumption|repeat constructor; auto| ].
  intros a Ha [<-|[]]. contradiction.
Qed.

Lemma fold_setAdd_In l : forall s y, In y (fold_left setAdd l s) <-> In y s \/ In y l.
Proof.
  induction l as [|x l IH]; intros s y; simpl.
  - tauto.
  - rewrite IH, setAdd_In. intuition.
Qed.

Lemma fold_setAdd_NoDup l : forall s, NoDup s -> NoDup (fold_left setAdd l s).
Proof.
  induction l as [|x l IH]; intros s H; simpl; [assumption|].
  apply IH, setAdd_NoDup, H.
Qed.

Lemma mkSet_In l y : In y (mkSet l) <-> In y l.
Proof. unfold mkSet. rewrite fold_setAdd_In. simpl. tauto. Qed.

Lemma mkSet_NoDup l : NoDup (mkSet l).
Proof. apply fold_setAdd_NoDup. constructor. Qed.

Lemma mkSet_nil l : mkSet l = [] <-> l = [].
Proof.
  split; [|now intros ->].
  destruct l as [|x l]; [reflexivity|]. intros H.
  assert (K : In x (mkSet (x :: l))) by (apply mkSet_In; now left).
  rewrite H in K. destruct K.
Qed.





Lemma intersection_le_union (w1 w2 : list jsstring) :
  length (mkSet (filter (fun x => has w2 x) w1)) <= length (mkSet (w1 ++ w2)).
Proof.
  apply NoDup_incl_length; [apply mkSet_NoDup|].
  intros x. rewrite !mkSet_In, filter_In, in_app_iff. tauto.
Qed.

(** ** Keywords *)

Lemma wordRun3_app_r u v : wordRun3 (u ++ v) = false -> wordRun3 v = false.
Proof.
  induction u as [|c u IH]; simpl; [auto|].
  intros H. apply orb_false_iff in H as [_ H]. auto.
Qed.

Lemma wordRun3_word_prefix cur s :
  Forall (fun c => isWordChar c = true) cur ->
  wordRun3 (rev cur ++ s) = false -> length cur < 3.
Proof.
  intros F H.
  destruct (le_lt_dec 3 (length cur)) as [L|L]; [exfalso|assumption].
  assert (F' : Forall (fun c => isWordChar c = true) (rev cur))
    by (apply Forall_rev, F).
  rewrite <- length_rev in L.
  destruct (rev cur) as [|c1 [|c2 [|c3 r]]]; simpl in L; try lia.
  inversion F' as [|? ? W1 F1]; subst. inversion F1 as [|? ? W2 F2]; subst.
  inversion F2 as [|? ? W3 F3]; subst.
  simpl in H. rewrite W1, W2, W3 in H. discriminate.
Qed.

Lemma matchGo_nil s : forall cur,
  Forall (fun c => isWordChar c = true) cur ->
  wordRun3 (rev cur ++ s) = false -> matchGo cur s = [].
Proof.
  induction s as [|c s IH]; intros cur F H.
  - simpl. unfold emitRun.
    pose proof (wordRun3_word_prefix _ _ F H) as L.
    destruct (Nat.leb_spec 3 (length cur)); [lia|reflexivity].
  - simpl. destruct (isWordChar c) eqn:W.
    + apply IH; [constructor; assumption|].
      simpl. now rewrite <- app_assoc.
    + unfold emitRun.
      pose proof (wordRun3_word_prefix _ _ F H) as L.
      destruct (Nat.leb_spec 3 (length cur)); [lia|].
      apply (IH []); [constructor|].
      simpl. apply (wordRun3_app_r (rev cur ++ [c])). now rewrite <- app_assoc.
Qed.

Lemma matchKeywords_nil s : wordRun3 s = false -> matchKeywords s = [].
Proof. intros H. apply matchGo_nil; [constructor|exact H]. Qed.

Lemma keywordSimilarity_no_keywords s1 s2 :
  wordRun3 (toLowerCase s1) = false -> wordRun3 (toLowerCase s2) = false ->
  keywordSimilarity s1 s2 = Fin 100.
Proof.
  intros H1 H2. unfold keywordSimilarity.
  now rewrite (matchKeywords_nil _ H1), (matchKeywords_nil _ H2).
Qed.

Local Open Scope R_scope.

(** ** Numbers *)



Lemma js_add_assoc (x y z : number) : (x + (y + z))%js = (x + y + z)%js.
Proof. destruct x, y, z; simpl; try reflexivity. f_equal. lra. Qed.

Lemma js_add_NaN_r x : (x + NaN)%js = NaN.
Proof. now destruct x. Qed.

Lemma div_Fin a b : b <> 0 -> (Fin a / Fin b)%js = Fin (a / b).
Proof. intros H. simpl. destruct (Req_dec_T b 0); [contradiction|reflexivity]. Qed.

(** The comparisons of two numbers decide the comparisons of the reals. *)
Ltac compare_reals d :=
  simpl; destruct d; split; intros;
  try assumption; try reflexivity; try discriminate; try contradiction;
  try lra.

Lemma gtb_true a b : gtb (Fin a) (Fin b) = true <-> b < a.
Proof. compare_reals (Rlt_dec b a). Qed.

Lemma gtb_false a b : gtb (Fin a) (Fin b) = false <-> a <= b.
Proof. compare_reals (Rlt_dec b a). Qed.

Lemma geb_true a b : geb (Fin a) (Fin b) = true <-> b <= a.
Proof. compare_reals (Rle_dec b a). Qed.

Lemma geb_false a b : geb (Fin a) (Fin b) = false <-> a < b.
Proof. compare_reals (Rle_dec b a). Qed.

Lemma eqn_true a b : eqn (Fin a) (Fin b) = true <-> a = b.
Proof. compare_reals (Req_dec_T a b). Qed.

Lemma eqn_false a b : eqn (Fin a) (Fin b) = false <-> a <> b.
Proof. compare_reals (Req_dec_T a b). Qed.


Lemma Math_round_between (lo hi : Z) a :
  IZR lo <= a <= IZR hi ->
  IZR lo <= IZR (Zfloor (a + / 2)) <= IZR hi.
Proof.
  intros [H1 H2]. split.
  - apply IZR_le, Zfloor_lub. lra.
  - apply IZR_le. apply Z.lt_succ_r. apply lt_IZR.
    rewrite succ_IZR. pose proof (Zfloor_bound (a + / 2)). lra.
Qed.




Lemma cosineStep_fold freq1 freq2 l : forall d a b,
  fold_left (cosineStep freq1 freq2) l (d, a, b) =
  ((d + sumN (map (fun w => wordFreq freq1 w * wordFreq freq2 w) l),
    a + sumN (map (fun w => wordFreq freq1 w * wordFreq freq1 w) l),
    b + sumN (map (fun w => wordFreq freq2 w * wordFreq freq2 w) l))%js).
Proof.
  induction l as [|w l IH]; intros d a b; simpl.
  - destruct d, a, b; simpl; repeat f_equal; lra.
  - rewrite IH. unfold wordFreq. now rewrite !js_add_assoc.
Qed.





(** ** Word counts held in a plain object *)

Lemma getOwn_putOwn o k v w :
  getOwn (putOwn o k v) w = if strEq w k then Some v else getOwn o w.
Proof.
  induction o as [|[k' v'] o IH]; simpl.
  - reflexivity.
  - destruct (strEq k k') eqn:E; simpl.
    + apply strEq_eq in E. subst k'. now destruct (strEq w k).
    + rewrite IH. destruct (strEq w k') eqn:F, (strEq w k) eqn:G; try reflexivity.
      apply strEq_eq in F, G. subst. now rewrite strEq_refl in E.
Qed.

Lemma countIn_snoc w l x :
  countIn w (l ++ [x]) = (countIn w l + if strEq w x then 1 else 0)%nat.
Proof.
  unfold countIn. rewrite filter_app, length_app. simpl.
  now destruct (strEq w x).
Qed.

Lemma countWord_getOwn o l x :
  inherited x = false ->
  (forall w, getOwn o w = countVal (countIn w l)) ->
  forall w, getOwn (countWord o x) w = countVal (countIn w (l ++ [x])).
Proof.
  intros Hx Ho w. unfold countWord, setProp.
  destruct (strEq x (str "__proto__")) eqn:E.
  { apply strEq_eq in E. subst x. discriminate Hx. }
  rewrite getOwn_putOwn, countIn_snoc. destruct (strEq w x) eqn:F.
  - apply strEq_eq in F. subst w. unfold getProp. rewrite Ho, Hx.
    destruct (countIn x l); simpl; [reflexivity|].
    now rewrite Nat.add_1_r.
  - now rewrite Nat.add_0_r.
Qed.

Lemma freq_getOwn words : forall o l,
  Forall (fun x => inherited x = false) words ->
  (forall w, getOwn o w = countVal (countIn w l)) ->
  forall w, getOwn (fold_left countWord words o) w = countVal (countIn w (l ++ words)).
Proof.
  induction words as [|x words IH]; intros o l F Ho w; simpl.
  - now rewrite app_nil_r.
  - inversion F as [|? ? Hx F']; subst.
    replace (l ++ x :: words) with ((l ++ [x]) ++ words)
      by now rewrite <- app_assoc.
    apply IH; [assumption|]. now apply countWord_getOwn.
Qed.

Lemma wordFreq_count words w :
  Forall (fun x => inherited x = false) words -> inherited w = false ->
  toNumber (orZero (getProp (fold_left countWord words []) w)) = ofNat (countIn w words).
Proof.
  intros F Hw. unfold getProp.
  rewrite (freq_getOwn words [] [] F) by reflexivity. simpl. rewrite Hw.
  now destruct (countIn w words).
Qed.

(** ** The Cauchy-Schwarz inequality for the frequency vectors *)

Lemma sumN_Fin A (g : A -> R) l :
  sumN (map (fun w => Fin (g w)) l) = Fin (sumR (map g l)).
Proof. induction l as [|w l IH]; simpl; [reflexivity|]. now rewrite IH. Qed.

Lemma sumR_nonneg A (g : A -> R) l : (forall w, 0 <= g w) -> 0 <= sumR (map g l).
Proof.
  intros H. induction l as [|w l IH]; simpl; [lra|]. specialize (H w). lra.
Qed.

Lemma le_sqrt u v : 0 <= u -> u * u <= v -> u <= sqrt v.
Proof.
  intros Hu H. rewrite <- (sqrt_square u Hu). now apply sqrt_le_1_alt.
Qed.

Lemma cauchy_schwarz A (x y : A -> R) l :
  (forall w, 0 <= x w) -> (forall w, 0 <= y w) ->
  sumR (map (fun w => x w * y w) l)
  <= sqrt (sumR (map (fun w => x w * x w) l))
     * sqrt (sumR (map (fun w => y w * y w) l)).
Proof.
  intros Hx Hy. induction l as [|w l IH]; simpl.
  - rewrite sqrt_0. lra.
  - set (S := sumR (map (fun w => x w * y w) l)) in *.
    set (P := sumR (map (fun w => x w * x w) l)) in *.
    set (Q := sumR (map (fun w => y w * y w) l)) in *.
    assert (HP : 0 <= P) by (apply sumR_nonneg; intros; apply Rle_0_sqr).
    assert (HQ : 0 <= Q) by (apply sumR_nonneg; intros; apply Rle_0_sqr).
    assert (HS : 0 <= S)
      by (apply sumR_nonneg; intros; apply Rmult_le_pos; auto).
    pose proof (sqrt_pos P) as Hp. pose proof (sqrt_pos Q) as Hq.
    pose proof (sqrt_sqrt P HP) as Ep. pose proof (sqrt_sqrt Q HQ) as Eq.
    set (p := sqrt P) in *. set (q := sqrt Q) in *.
    specialize (Hx w). specialize (Hy w).
    set (a := x w) in *. set (b := y w) in *.
    rewrite <- sqrt_mult by nra.
    apply le_sqrt; [nra|].
    assert (0 <= (a * q - p * b) * (a * q - p * b)) by apply Rle_0_sqr.
    assert (S * S <= p * q * (p * q)) by nra.
    assert (a * b * S <= a * b * (p * q)) by (apply Rmult_le_compat_l; nra).
    nra.
Qed.

Lemma ratio_between (n d : nat) :
  (n <= d)%nat -> (d <> 0)%nat ->
  between 0 100 ((ofNat n / ofNat d) * Fin 100)%js.
Proof.
  intros Hn Hd. unfold ofNat.
  assert (0 < INR d) by (apply lt_0_INR; lia).
  assert (0 <= INR n) by apply pos_INR.
  assert (INR n <= INR d) by now apply le_INR.
  rewrite div_Fin by lra. simpl. eexists; split; [reflexivity|].
  assert (0 <= INR n / INR d <= 1).
  { split.
    - apply Rmult_le_pos; [lra|]. left. now apply Rinv_0_lt_compat.
    - apply Rmult_le_reg_r with (INR d); [lra|]. unfold Rdiv.
      rewrite Rmult_assoc, Rinv_l by lra. lra. }
  lra.
Qed.

Lemma levenshteinSimilarity_between s t :
  between 0 100 (levenshteinSimilarity s t).
Proof.
  unfold levenshteinSimilarity.
  destruct (Nat.eqb_spec (Nat.max (length s) (length t)) 0) as [E|E].
  - exists 100. split; [reflexivity|lra].
  - pose proof (levenshteinDistance_le_max s t) as L.
    set (m := Nat.max (length s) (length t)) in *.
    set (d := levenshteinDistance s t) in *.
    replace (ofNat m - ofNat d)%js with (ofNat (m - d)).
    + apply ratio_between; lia.
    + unfold ofNat. simpl. now rewrite minus_INR.
Qed.

Lemma jaccardSimilarity_between s t :
  between 0 100 (jaccardSimilarity s t).
Proof.
  unfold jaccardSimilarity.
  destruct (Nat.eqb_spec
              (length (mkSet (mkSet (splitSpaces (toLowerCase s))
                              ++ mkSet (splitSpaces (toLowerCase t))))) 0)
    as [E|E].
  - exists 100. split; [reflexivity|lra].
  - apply ratio_between; [apply intersection_le_union|assumption].
Qed.

Lemma keywordSimilarity_between s t :
  between 0 100 (keywordSimilarity s t).
Proof.
  unfold keywordSimilarity.
  destruct (Nat.eqb_spec (length (matchKeywords (toLowerCase s))) 0) as [E1|E1];
  destruct (Nat.eqb_spec (length (matchKeywords (toLowerCase t))) 0) as [E2|E2]; simpl.
  - exists 100. split; [reflexivity|lra].
  - exists 0. split; [reflexivity|lra].
  - exists 0. split; [reflexivity|lra].
  - apply ratio_between; [apply intersection_le_union|].
    intros H. apply length_zero_iff_nil in H. apply (proj1 (mkSet_nil _)) in H.
    apply app_eq_nil in H as [H _]. apply (proj1 (mkSet_nil _)) in H.
    rewrite H in E1. now apply E1.
Qed.

Lemma cosineSimilarity_between s t :
  ownWords s -> ownWords t ->
  between 0 100 (cosineSimilarity s t).
Proof.
  unfold ownWords. intros F1 F2. unfold cosineSimilarity.
  set (w1 := splitSpaces (toLowerCase s)) in *.
  set (w2 := splitSpaces (toLowerCase t)) in *.
  assert (F : forall w, In w (mkSet (w1 ++ w2)) -> inherited w = false).
  { intros w Hw. apply (proj1 (mkSet_In _ _)) in Hw. apply in_app_iff in Hw.
    rewrite Forall_forall in F1, F2. destruct Hw; auto. }
  set (x := fun w => INR (countIn w w1)). set (y := fun w => INR (countIn w w2)).
  set (aw := mkSet (w1 ++ w2)) in *.
  set (f1 := fold_left countWord w1 []). set (f2 := fold_left countWord w2 []).
  rewrite cosineStep_fold.
  assert (E : forall w, In w aw ->
            wordFreq f1 w = Fin (x w) /\ wordFreq f2 w = Fin (y w)).
  { intros w Hw. unfold wordFreq, f1, f2.
    rewrite !wordFreq_count by auto. now split. }
  rewrite (map_ext_in (fun w => wordFreq f1 w * wordFreq f2 w)%js
                      (fun w => Fin (x w * y w)))
    by (intros w Hw; destruct (E w Hw) as [-> ->]; reflexivity).
  rewrite (map_ext_in (fun w => wordFreq f1 w * wordFreq f1 w)%js
                      (fun w => Fin (x w * x w)))
    by (intros w Hw; destruct (E w Hw) as [-> _]; reflexivity).
  rewrite (map_ext_in (fun w => wordFreq f2 w * wordFreq f2 w)%js
                      (fun w => Fin (y w * y w)))
    by (intros w Hw; destruct (E w Hw) as [_ ->]; reflexivity).
  rewrite !sumN_Fin. cbn [add_ lift2].
  pose proof (cauchy_schwarz _ x y aw
                (fun w => pos_INR _) (fun w => pos_INR _)) as CS.
  set (S := sumR (map (fun w => x w * y w) aw)) in *.
  set (P := sumR (map (fun w => x w * x w) aw)) in *.
  set (Q := sumR (map (fun w => y w * y w) aw)) in *.
  assert (HP : 0 <= P) by (apply sumR_nonneg; intros; apply Rle_0_sqr).
  assert (HQ : 0 <= Q) by (apply sumR_nonneg; intros; apply Rle_0_sqr).
  assert (HS : 0 <= S)
    by (apply sumR_nonneg; intros; apply Rmult_le_pos; apply pos_INR).
  destruct (eqn (Fin (0 + P)) (Fin 0)) eqn:EP.
  { exists 0. split; [reflexivity|lra]. }
  destruct (eqn (Fin (0 + Q)) (Fin 0)) eqn:EQ.
  { exists 0. split; [reflexivity|lra]. }
  apply eqn_false in EP, EQ. cbn [orb].
  unfold Math_sqrt.
  destruct (Rlt_dec (0 + P) 0); [lra|]. destruct (Rlt_dec (0 + Q) 0); [lra|].
  cbn [mul_ lift2].
  replace (0 + P) with P by lra. replace (0 + Q) with Q by lra.
  replace (0 + S) with S by lra.
  assert (0 < sqrt P) by (apply sqrt_lt_R0; lra).
  assert (0 < sqrt Q) by (apply sqrt_lt_R0; lra).
  assert (0 < sqrt P * sqrt Q) by now apply Rmult_lt_0_compat.
  rewrite div_Fin by lra. cbn [mul_ lift2].
  eexists; split; [reflexivity|].
  assert (0 <= S / (sqrt P * sqrt Q) <= 1).
  { split.
    - apply Rmult_le_pos; [lra|]. left. now apply Rinv_0_lt_compat.
    - apply Rmult_le_reg_r with (sqrt P * sqrt Q); [lra|]. unfold Rdiv.
      rewrite Rmult_assoc, Rinv_l by lra. lra. }
  lra.
Qed.

Lemma weightedScore_between s t :
  ownWords s -> ownWords t ->
  between 0 100 (weightedScore s t).
Proof.
  intros Hs Ht. unfold weightedScore.
  destruct (levenshteinSimilarity_between s t) as (l & -> & Hl).
  destruct (jaccardSimilarity_between s t) as (j & -> & Hj).
  destruct (cosineSimilarity_between s t Hs Ht) as (c & -> & Hc).
  destruct (keywordSimilarity_between s t) as (k & -> & Hk).
  cbn [add_ mul_ lift2]. eexists; split; [reflexivity|lra].
Qed.

Lemma round2_between w :
  between 0 100 w -> between 0 100 (Math_round (w * Fin 100) / Fin 100)%js.
Proof.
  intros (r & -> & Hr). cbn [mul_ lift2 Math_round].
  rewrite div_Fin by lra. eexists; split; [reflexivity|].
  pose proof (Math_round_between 0 10000 (r * 100)) as H.
  assert (IZR 0 <= r * 100 <= IZR 10000) by lra.
  specialize (H H0). lra.
Qed.

Lemma calculateSimilarity_between a b :
  ownWords (normalize a) -> ownWords (normalize b) ->
  between 0 100 (calculateSimilarity a b).
Proof.
  intros Ha Hb. unfold calculateSimilarity.
  destruct (strEq _ _); [exists 100; split; [reflexivity|lra]|].
  destruct (_ || _); [exists 0; split; [reflexivity|lra]|].
  apply round2_between, weightedScore_between; assumption.
Qed.

Lemma calculateContextualSimilarity_between msg q ans tags :
  ownWords (normalize msg) -> ownWords (normalize q) ->
  ownWords (normalize ans) ->
  between 0 100 (calculateContextualSimilarity msg q ans tags).
Proof.
  intros Hm Hq Ha. unfold calculateContextualSimilarity.
  destruct (calculateSimilarity_between msg q Hm Hq) as (s & -> & Hs).
  destruct (calculateSimilarity_between msg ans Hm Ha) as (t & -> & Ht).
  set (n := length (filter _ tags)).
  assert (Hn : 0 <= INR n) by apply pos_INR.
  assert (B : exists s', (if (0 <? n)%nat
              then (Fin s + Math_min (ofNat n * Fin 5) (Fin 15))%js
              else Fin s) = Fin s' /\ 0 <= s').
  { destruct (0 <? n)%nat; cbn [ofNat add_ mul_ Math_min lift2].
    - eexists; split; [reflexivity|]. unfold Rmin. destruct (Rle_dec _ _); lra.
    - exists s. split; [reflexivity|lra]. }
  destruct B as (s' & -> & Hs').
  destruct (gtb (Fin t) (Fin 30)); cbn [add_ mul_ Math_min lift2].
  - eexists; split; [reflexivity|]. unfold Rmin.
    repeat destruct (Rle_dec _ _); lra.
  - eexists; split; [reflexivity|]. unfold Rmin. destruct (Rle_dec _ _); lra.
Qed.

(** ** Sorting *)

Section SortFacts.

Variable A : Type.
Variable compare : A -> A -> number.
(** The elements on which [compare] is a consistent comparison. *)
Variable dom : A -> Prop.

Hypothesis compare_total :
  forall x y, dom x -> dom y ->
    gtb (compare x y) (Fin 0) = true -> notAfter compare y x.
Hypothesis compare_trans :
  forall x y z, dom x -> dom y -> dom z ->
    notAfter compare x y -> notAfter compare y z -> notAfter compare x z.

Lemma insertBy_perm x l : Permutation (insertBy compare x l) (x :: l).
Proof.
  induction l as [|y l IH]; simpl; [reflexivity|].
  destruct (gtb (compare x y) (Fin 0)); [|reflexivity].
  rewrite IH. apply perm_swap.
Qed.

Lemma sort_perm l : Permutation (sort compare l) l.
Proof.
  induction l as [|x l IH]; simpl; [reflexivity|].
  rewrite insertBy_perm. now constructor.
Qed.

Lemma insertBy_sorted x l :
  dom x -> Forall dom l ->
  StronglySorted (notAfter compare) l ->
  StronglySorted (notAfter compare) (insertBy compare x l).
Proof.
  intros Hx Hl Hs. induction Hs as [|y l Hs IH Hy]; simpl.
  - repeat constructor.
  - inversion Hl as [|? ? Dy Dl]; subst.
    destruct (gtb (compare x y) (Fin 0)) eqn:E.
    + constructor; [now apply IH|].
      apply (Permutation_Forall (Permutation_sym (insertBy_perm x l))).
      constructor; [now apply compare_total|assumption].
    + constructor; [now constructor|].
      constructor; [exact E|].
      rewrite Forall_forall in *. intros z Hz.
      apply compare_trans with y; auto.
Qed.

Lemma sort_sorted l : Forall dom l -> StronglySorted (notAfter compare) (sort compare l).
Proof.
  induction l as [|x l IH]; intros Hl; simpl; [constructor|].
  inversion Hl; subst. apply insertBy_sorted; auto.
  apply (Permutation_Forall (Permutation_sym (sort_perm l))). assumption.
Qed.

End SortFacts.

Lemma sort_In A (compare : A -> A -> number) l x :
  In x (sort compare l) <-> In x l.
Proof.
  split; apply Permutation_in; [|apply Permutation_sym]; apply sort_perm.
Qed.

Lemma StronglySorted_firstn A (R : A -> A -> Prop) n l :
  StronglySorted R l -> StronglySorted R (firstn n l).
Proof.
  intros H. revert n. induction H as [|x l H IH F]; intros [|n]; simpl;
    try constructor.
  - apply IH.
  - rewrite Forall_forall in *. intros y Hy. apply F.
    rewrite <- (firstn_skipn n l). apply in_or_app. now left.
Qed.

Lemma StronglySorted_impl A (R S : A -> A -> Prop) (P : A -> Prop) l :
  (forall x y, P x -> P y -> R x y -> S x y) ->
  Forall P l -> StronglySorted R l -> StronglySorted S l.
Proof.
  intros H F Hs. induction Hs as [|x l Hs IH Hx]; [constructor|].
  inversion F as [|? ? Px Pl]; subst. constructor; [auto|].
  rewrite Forall_forall in *. intros y Hy. apply H; auto.
Qed.

(** ** The two orders used by the candidate search *)

Lemma bySimilarityThenPriority_gtb a b sa sb :
  similarity a = Fin sa -> similarity b = Fin sb ->
  gtb (bySimilarityThenPriority a b) (Fin 0) = true <->
  (sa < sb \/ (sa = sb /\ (priority (entry a) < priority (entry b))%Z)).
Proof.
  intros Ea Eb. unfold bySimilarityThenPriority. rewrite Ea, Eb.
  destruct (eqn (Fin sb) (Fin sa)) eqn:E; cbn [negb].
  - apply eqn_true in E. unfold ofZ. rewrite gtb_true. split.
    + intros H. apply lt_IZR in H. right. split; [lra|lia].
    + intros [H|[_ H]]; [lra|]. apply IZR_lt. lia.
  - apply eqn_false in E. cbn [sub_ lift2]. rewrite gtb_true. split.
    + intros H. left. lra.
    + intros [H|[H _]]; lra.
Qed.

Lemma notAfter_ranksBefore a b :
  scored a -> scored b ->
  notAfter bySimilarityThenPriority a b <-> ranksBefore a b.
Proof.
  intros [sa Ea] [sb Eb]. unfold notAfter, ranksBefore.
  pose proof (bySimilarityThenPriority_gtb a b sa sb Ea Eb) as G.
  destruct (gtb (bySimilarityThenPriority a b) (Fin 0)).
  - split; [discriminate|]. intros (sa' & sb' & Ea' & Eb' & H).
    rewrite Ea in Ea'. rewrite Eb in Eb'. injection Ea' as <-. injection Eb' as <-.
    destruct (proj1 G eq_refl) as [K|[K1 K2]]; destruct H as [H|[H1 H2]]; try lra; lia.
  - split; [|reflexivity]. intros _. exists sa, sb. repeat split; auto.
    destruct (Rlt_dec sb sa) as [L|L]; [now left|].
    destruct (Rlt_dec sa sb) as [L'|L'].
    + assert (false = true) by (apply G; now left). discriminate.
    + right. split; [lra|].
      destruct (Z_lt_le_dec (priority (entry a)) (priority (entry b))) as [Z|Z];
        [|assumption].
      assert (false = true) by (apply G; right; split; [lra|assumption]). discriminate.
Qed.

Lemma ranksBefore_trans a b c :
  ranksBefore a b -> ranksBefore b c -> ranksBefore a c.
Proof.
  intros (sa & sb & Ea & Eb & H) (sb' & sc & Eb' & Ec & K).
  rewrite Eb in Eb'. injection Eb' as <-.
  exists sa, sc. repeat split; auto.
  destruct H as [H|[H1 H2]], K as [K|[K1 K2]]; try (left; lra).
  right. split; [lra|lia].
Qed.

Lemma ranksBefore_total a b :
  scored a -> scored b -> ranksBefore a b \/ ranksBefore b a.
Proof.
  intros [sa Ea] [sb Eb].
  destruct (Rlt_dec sb sa); [left; exists sa, sb; auto|].
  destruct (Rlt_dec sa sb); [right; exists sb, sa; auto|].
  destruct (Z_le_gt_dec (priority (entry b)) (priority (entry a))).
  - left. exists sa, sb. repeat split; auto. right. split; [lra|assumption].
  - right. exists sb, sa. repeat split; auto. right. split; [lra|lia].
Qed.

Lemma sort_candidates_sorted l :
  Forall scored l ->
  StronglySorted ranksBefore (sort bySimilarityThenPriority l).
Proof.
  intros F.
  apply StronglySorted_impl with (R := notAfter bySimilarityThenPriority) (P := scored).
  - intros x y Hx Hy. now apply notAfter_ranksBefore.
  - apply (Permutation_Forall (Permutation_sym (sort_perm _ _ l))). assumption.
  - apply sort_sorted with (dom := scored); [| |assumption].
    + intros x y Hx Hy G. apply notAfter_ranksBefore; auto.
      destruct (ranksBefore_total x y Hx Hy) as [H|H]; [|assumption].
      apply notAfter_ranksBefore in H; auto. unfold notAfter in H. congruence.
    + intros x y z Hx Hy Hz H K.
      apply notAfter_ranksBefore in H, K; auto.
      apply notAfter_ranksBefore; auto. now apply ranksBefore_trans with y.
Qed.

Lemma notAfter_byPriority a b :
  notAfter byPriority a b <-> priorityAtLeast a b.
Proof.
  unfold notAfter, byPriority, priorityAtLeast, ofZ. rewrite gtb_false. split.
  - intros H. apply le_IZR in H. lia.
  - intros H. apply IZR_le. lia.
Qed.

Lemma sort_byPriority_sorted l :
  StronglySorted priorityAtLeast (sort byPriority l).
Proof.
  apply StronglySorted_impl with (R := notAfter byPriority) (P := fun _ => True).
  - intros x y _ _. apply notAfter_byPriority.
  - apply Forall_forall. auto.
  - apply sort_sorted with (dom := fun _ => True).
    + intros x y _ _ G. apply notAfter_byPriority.
      unfold byPriority, ofZ in G. apply gtb_true in G. apply lt_IZR in G.
      unfold priorityAtLeast. lia.
    + intros x y z _ _ _ H K. apply notAfter_byPriority in H, K.
      apply notAfter_byPriority. unfold priorityAtLeast in *. lia.
    + apply Forall_forall. auto.
Qed.

Lemma gtb_Fin x r : gtb x (Fin r) = true -> exists s, x = Fin s /\ r < s.
Proof.
  destruct x as [s|]; [|discriminate]. intros H. exists s. split; [reflexivity|].
  now apply gtb_true.
Qed.

Lemma filter_nil_all A (f : A -> bool) l :
  (forall x, In x l -> f x = false) -> filter f l = [].
Proof.
  induction l as [|x l IH]; intros H; simpl; [reflexivity|].
  rewrite (H x) by now left. apply IH. intros y Hy. apply H. now right.
Qed.

Lemma firstn_In A n (l : list A) x : In x (firstn n l) -> In x l.
Proof.
  intros H. rewrite <- (firstn_skipn n l). apply in_or_app. now left.
Qed.

Lemma legacyLookup_result env message limit :
  snd (legacyLookup env message limit) =
  match extractKeywords env message 2 with
  | Throw => Ok []
  | Ok keywords =>
      match (if length keywords =? 0
             then findMatchByFullMessage env message limit
             else findMatchByKeywords env keywords limit) with
      | Throw => Ok []
      | Ok fallbackResults =>
          Ok (map (fun qa => withSimilarity qa (Fin 50)) fallbackResults)
      end
  end.
Proof.
  unfold legacyLookup, tryCatch, bind, call, ret.
  destruct (extractKeywords env message 2) as [keywords|]; [|reflexivity].
  destruct (length keywords =? 0)%nat.
  - destruct (findMatchByFullMessage env message limit); reflexivity.
  - destruct (findMatchByKeywords env keywords limit); reflexivity.
Qed.

Lemma legacyLookup_total env message limit :
  exists candidates, snd (legacyLookup env message limit) = Ok candidates.
Proof.
  rewrite legacyLookup_result.
  destruct (extractKeywords env message 2) as [keywords|]; [|now eexists].
  destruct (if (length keywords =? 0)%nat then _ else _); now eexists.
Qed.

Lemma tryCatch_total A (body handler : M A) :
  (exists a, snd handler = Ok a) -> exists a, snd (tryCatch body handler) = Ok a.
Proof.
  intros [a Ha]. unfold tryCatch. destruct body as [log [b|]].
  - now exists b.
  - destruct handler as [log' r]. simpl in *. now exists a.
Qed.

Lemma findRelevantQAPairs_total env message limit :
  exists candidates, snd (findRelevantQAPairs env message limit) = Ok candidates.
Proof. apply tryCatch_total, legacyLookup_total. Qed.

Lemma findRelevantQAPairs_scoring env message limit :
  exactMatchFails env = false -> findManyFails env = false ->
  (forall qa, In qa (qaPairs env) -> isExactMatch message qa = false) ->
  findRelevantQAPairs env message limit =
  ([CallFindExactMatch message; CallFindMany],
   Ok (firstn limit
         (sort bySimilarityThenPriority
            (filter (fun qa => gtb (similarity qa) (Fin 20))
               (map (scoreQAPair message)
                  (sort byPriorityThenCreation
                     (filter isActive (qaPairs env)))))))).
Proof.
  intros He Hm Hno. unfold findRelevantQAPairs, findExactMatch, findMany.
  rewrite He, Hm, (filter_nil_all _ _ _ Hno).
  cbn [sort fold_right call bind length Nat.ltb Nat.leb ret app].
  destruct (sort byPriorityThenCreation (filter isActive (qaPairs env))) as [|qa l];
    cbn [length Nat.eqb tryCatch app]; [|reflexivity].
  now destruct limit.
Qed.

Lemma findRelevantQAPairs_exact env message limit qa matches :
  findExactMatch env message = Ok (qa :: matches) ->
  findRelevantQAPairs env message limit =
  ([CallFindExactMatch message],
   Ok (map (fun qa => withSimilarity qa (Fin 100)) (qa :: matches))).
Proof.
  intros H. unfold findRelevantQAPairs. rewrite H. reflexivity.
Qed.

Lemma findRelevantQAPairs_fallback env message limit :
  exactMatchFails env = true \/
  ((forall qa, In qa (qaPairs env) -> isExactMatch message qa = false) /\
   findManyFails env = true) ->
  snd (findRelevantQAPairs env message limit) = snd (legacyLookup env message limit).
Proof.
  intros [H|[Hno H]]; unfold findRelevantQAPairs, findExactMatch, findMany.
  - rewrite H. unfold call, bind, tryCatch.
    now destruct (legacyLookup env message limit).
  - destruct (exactMatchFails env).
    + unfold call, bind, tryCatch. now destruct (legacyLookup env message limit).
    + rewrite (filter_nil_all _ _ _ Hno), H.
      cbn [sort fold_right call bind length Nat.ltb Nat.leb ret app tryCatch].
      now destruct (legacyLookup env message limit).
Qed.


(** ** Rounding, and the router's building blocks *)

Lemma roundedTo2_Math_round (x : number) :
  roundedTo2 x (Math_round (x * Fin 100) / Fin 100)%js.
Proof.
  destruct x as [a|]; [|exact I].
  cbn [mul_ lift2 Math_round]. rewrite div_Fin by lra. cbn [roundedTo2].
  exists (Zfloor (a * 100 + / 2)). split; [reflexivity|].
  pose proof (Zfloor_bound (a * 100 + / 2)). lra.
Qed.

Lemma levenshteinSimilarity_editSimilarity (s t : jsstring) :
  s <> [] ->
  levenshteinSimilarity s t = editSimilarity (levenshteinDistance s t) s t.
Proof.
  intros Hs. unfold levenshteinSimilarity, editSimilarity.
  assert (Hm : Nat.max (length s) (length t) <> 0%nat)
    by (destruct s; [congruence|cbn [length]; lia]).
  destruct (Nat.eqb_spec (Nat.max (length s) (length t)) 0); [contradiction|].
  unfold ofNat. cbn [sub_ lift2].
  assert (0 < INR (Nat.max (length s) (length t))) by (apply lt_0_INR; lia).
  rewrite div_Fin by lra. cbn [mul_ lift2]. f_equal. field. lra.
Qed.

Lemma selectResponse_generative_failure (env : Env)
  (message from language : jsstring) (candidates : list QAPairWithSimilarity) :
  generateAIResponse env message language from = Throw ->
  snd (selectResponse env message from language candidates) =
  Ok match candidates with
     | [] => (defaultMessage env language, DefaultResponse)
     | best :: _ =>
         (answer (entry best),
          if geb (similarity best) (Fin 90)
          then QADatabase (similarity best)
          else QAFallback (similarity best))
     end.
Proof.
  intros H. unfold selectResponse. destruct candidates as [|best rest].
  - rewrite H. reflexivity.
  - destruct (geb (similarity best) (Fin 90)); [reflexivity|].
    rewrite H. reflexivity.
Qed.

(** [generateResponse] resolves: with the text [selectResponse] chose, or,
    when a collaborator outside the router rejects, with the error
    message. *)
Lemma generateResponse_resolves (env : Env) (message from senderName : jsstring) :
  exists text,
    snd (generateResponse env message from senderName) = Ok text /\
    (((persistenceWorks env -> False) /\ text = errorMessage) \/
     exists candidates source,
       snd (findRelevantQAPairs env message 5) = Ok candidates /\
       snd (selectResponse env message from (detectLanguage env message)
              candidates) = Ok (text, source)).
Proof.
  unfold generateResponse, bind, call, tryCatch, ret.
  destruct (findOrCreateClient env from senderName) as [client|] eqn:E1.
  2:{ exists errorMessage. split; [reflexivity|]. left. split; [|reflexivity].
      intros (P & _). destruct (P from senderName) as [c Hc]. congruence. }
  destruct (saveMessage env message (clientId client) false) eqn:E2.
  2:{ exists errorMessage. split; [reflexivity|]. left. split; [|reflexivity].
      intros (_ & P & _). rewrite P in E2. discriminate. }
  destruct (updateClientActivity env (clientId client) message) eqn:E3.
  2:{ exists errorMessage. split; [reflexivity|]. left. split; [|reflexivity].
      intros (_ & _ & P). rewrite P in E3. discriminate. }
  destruct (findRelevantQAPairs_total env message 5) as [candidates Hc].
  destruct (findRelevantQAPairs env message 5) as [log1 r] eqn:E6.
  cbn [snd] in Hc. subst r.
  assert (Hs : exists selected,
             snd (selectResponse env message from (detectLanguage env message)
                    candidates) = Ok selected).
  { unfold selectResponse. destruct candidates as [|best rest].
    - apply tryCatch_total. now eexists.
    - destruct (geb _ _); [now eexists|]. apply tryCatch_total. now eexists. }
  destruct Hs as [[text source] Hs].
  destruct (selectResponse env message from (detectLanguage env message)
              candidates) as [log2 r] eqn:E7.
  cbn [snd] in Hs. subst r.
  destruct (saveMessage env text (clientId client) true) eqn:E4.
  2:{ exists errorMessage. split; [reflexivity|]. left. split; [|reflexivity].
      intros (_ & P & _). rewrite P in E4. discriminate. }
  destruct (updateClientActivity env (clientId client) text) eqn:E5.
  2:{ exists errorMessage. split; [reflexivity|]. left. split; [|reflexivity].
      intros (_ & _ & P). rewrite P in E5. discriminate. }
  exists text. split; [reflexivity|]. right. exists candidates, source.
  rewrite E7. split; reflexivity.
Qed.

Lemma errorMessage_not_empty : errorMessage <> [].
Proof. discriminate. Qed.

(* ================================================================== *)
(** * Part XIII.  The claims                                          *)
(* ================================================================== *)

(** C1 (as amended).  When the exact lookup works and the table holds an
    active entry whose normalized question equals the normalized message,
    [findRelevantQAPairs] makes the exact lookup its only query (no entry is
    scored), returns exactly the active exact matches, each with similarity
    100, the first of them having the highest priority; [selectResponse]
    answers with that first entry's answer verbatim and calls no generative
    fallback.  The source it records is [QADatabase 100]: the label of the
    high-similarity branch; there is no separate label for exact matches. *)
Theorem exact_match_short_circuit (env : Env)
  (message from language : jsstring) (limit : nat) :
  exactMatchFails env = false ->
  (exists qa, In qa (qaPairs env) /\ isActive qa = true /\
              normalize (question qa) = normalize message) ->
  exists best rest,
    findRelevantQAPairs env message limit =
      ([CallFindExactMatch message],
       Ok (map (fun qa => withSimilarity qa (Fin 100)) (best :: rest))) /\
    (forall qa, In qa (best :: rest) <->
                In qa (qaPairs env) /\ isActive qa = true /\
                normalize (question qa) = normalize message) /\
    Forall (fun qa => (priority qa <= priority best)%Z) rest /\
    selectResponse env message from language
      (map (fun qa => withSimilarity qa (Fin 100)) (best :: rest)) =
      ([], Ok (answer best, QADatabase (Fin 100))).
Proof.
  intros Hup (qa0 & Hin & Hact & Hq).
  assert (Hm : In qa0 (sort byPriority (filter (isExactMatch message) (qaPairs env)))).
  { apply sort_In, filter_In. split; [assumption|].
    unfold isExactMatch. rewrite Hact, Hq. apply strEq_refl. }
  destruct (sort byPriority (filter (isExactMatch message) (qaPairs env)))
    as [|best rest] eqn:E; [destruct Hm|].
  exists best, rest. repeat split.
  - apply findRelevantQAPairs_exact. unfold findExactMatch. now rewrite Hup, E.
  - rewrite <- E in H. apply sort_In, filter_In in H. apply H.
  - rewrite <- E in H. apply sort_In, filter_In in H. destruct H as [_ H].
    unfold isExactMatch in H. now apply andb_true_iff in H.
  - rewrite <- E in H. apply sort_In, filter_In in H. destruct H as [_ H].
    unfold isExactMatch in H. apply andb_true_iff in H. now apply strEq_eq.
  - intros (H1 & H2 & H3). rewrite <- E. apply sort_In, filter_In.
    split; [assumption|]. unfold isExactMatch. rewrite H2, H3. apply strEq_refl.
  - pose proof (sort_byPriority_sorted
                  (filter (isExactMatch message) (qaPairs env))) as S.
    rewrite E in S. inversion S; subst. assumption.
  - unfold selectResponse. cbn [map similarity entry].
    rewrite (proj2 (geb_true 100 90)) by lra. reflexivity.
Qed.

(** C2.  For a non-empty candidate list whose best similarity is a number
    [s]: when [s >= 90] the router answers with the best candidate's answer
    verbatim and calls no generative fallback; when [s < 90] it calls the
    generative fallback, and when that call succeeds the response is the
    generated text followed by the related-topic suffix and the best
    candidate's question if [50 <= s], and the generated text alone if
    [s < 50]; so the suffix is there if and only if [50 <= s < 90]. *)
Theorem selectResponse_threshold (env : Env)
  (message from language : jsstring)
  (best : QAPairWithSimilarity) (rest : list QAPairWithSimilarity) (s : R) :
  similarity best = Fin s ->
  (90 <= s ->
   selectResponse env message from language (best :: rest) =
   ([], Ok (answer (entry best), QADatabase (Fin s)))) /\
  (s < 90 ->
   forall ai, generateAIResponse env message language from = Ok ai ->
   exists text,
     selectResponse env message from language (best :: rest) =
     ([CallGenerateAIResponse message language from],
      Ok (text, AIAgent (confidence ai))) /\
     (50 <= s -> text = response ai ++ relatedTopic ++ question (entry best)) /\
     (s < 50 -> text = response ai) /\
     (text = response ai ++ relatedTopic ++ question (entry best) <-> 50 <= s)).
Proof.
  intros Hs. unfold selectResponse. rewrite Hs. split.
  - intros H. rewrite (proj2 (geb_true s 90)) by assumption. reflexivity.
  - intros H ai Hai. rewrite (proj2 (geb_false s 90)) by assumption.
    rewrite Hai. cbn [call bind tryCatch ret app].
    destruct (Rle_dec 50 s) as [L|L].
    + rewrite (proj2 (geb_true s 50)) by assumption.
      eexists. split; [reflexivity|]. repeat split; auto. intros; lra.
    + rewrite (proj2 (geb_false s 50)) by lra.
      eexists. split; [reflexivity|]. repeat split; auto; try (intros; lra).
      intros E. exfalso.
      rewrite <- (app_nil_r (response ai)) in E at 1.
      apply app_inv_head in E. discriminate E.
Qed.

(** C3 (as amended).  When the generative fallback rejects the call: with a
    best candidate of similarity [s < 90] the router answers with that
    candidate's answer verbatim; with no candidate it answers with the
    default message of the detected language.  [generateResponse] always
    resolves, never rejects: with the best candidate's answer, with the
    default message, or with its fixed error message, and with one of the
    first two when the client lookup and the persistence calls work.  Its
    text is not empty provided the best candidate's stored answer and the
    default message are not empty. *)
Theorem generative_failure_recovered (env : Env)
  (message from senderName : jsstring) :
  let language := detectLanguage env message in
  generateAIResponse env message language from = Throw ->
  (forall best rest s,
     similarity best = Fin s -> s < 90 ->
     selectResponse env message from language (best :: rest) =
     ([CallGenerateAIResponse message language from],
      Ok (answer (entry best), QAFallback (Fin s)))) /\
  (selectResponse env message from language [] =
     ([CallGenerateAIResponse message language from],
      Ok (getDefaultResponse env message language, DefaultResponse)) /\
   getDefaultResponse env message language = defaultMessage env language) /\
  exists text,
    snd (generateResponse env message from senderName) = Ok text /\
    ((persistenceWorks env -> False) /\ text = errorMessage \/
     (exists best rest,
        snd (findRelevantQAPairs env message 5) = Ok (best :: rest) /\
        text = answer (entry best)) \/
     (snd (findRelevantQAPairs env message 5) = Ok [] /\
      text = defaultMessage env language)) /\
    ((forall best rest,
        snd (findRelevantQAPairs env message 5) = Ok (best :: rest) ->
        answer (entry best) <> []) ->
     defaultMessage env language <> [] ->
     text <> []).
Proof.
  intros language Hai. split; [|split; [split|]].
  - intros best rest s Hs Hlt. unfold selectResponse. rewrite Hs.
    rewrite (proj2 (geb_false s 90)) by assumption. rewrite Hai. reflexivity.
  - unfold selectResponse. rewrite Hai. reflexivity.
  - reflexivity.
  - destruct (generateResponse_resolves env message from senderName)
      as (text & Ht & Hwhy).
    exists text. split; [exact Ht|].
    assert (W : (persistenceWorks env -> False) /\ text = errorMessage \/
                (exists best rest,
                   snd (findRelevantQAPairs env message 5) = Ok (best :: rest) /\
                   text = answer (entry best)) \/
                (snd (findRelevantQAPairs env message 5) = Ok [] /\
                 text = defaultMessage env language)).
    { destruct Hwhy as [[Hp ->]|(candidates & source & Hc & Hsel)].
      - left. split; [exact Hp|reflexivity].
      - right. fold language in Hsel.
        rewrite (selectResponse_generative_failure _ _ _ _ candidates Hai) in Hsel.
        destruct candidates as [|best rest]; injection Hsel as <- _.
        + right. split; [exact Hc|reflexivity].
        + left. exists best, rest. split; [exact Hc|reflexivity]. }
    split; [exact W|]. intros Hans Hdef.
    destruct W as [[_ ->]|[(best & rest & Hc & ->)|[_ ->]]].
    + apply errorMessage_not_empty.
    + now apply (Hans best rest).
    + exact Hdef.
Qed.

(** C4 (as amended).  When the exact lookup rejects, or finds nothing and
    the query for the active entries rejects, [findRelevantQAPairs] falls
    back to the original lookup (by keywords, or by the full message when
    there is no keyword) and returns its results, each with the fixed
    similarity 50; only when that lookup rejects too does it return no
    candidate.  It never rejects. *)
Theorem lookup_failure_falls_back (env : Env) (message : jsstring)
  (limit : nat) :
  exactMatchFails env = true \/
  ((forall qa, In qa (qaPairs env) -> isExactMatch message qa = false) /\
   findManyFails env = true) ->
  snd (findRelevantQAPairs env message limit) =
  match extractKeywords env message 2 with
  | Throw => Ok []
  | Ok keywords =>
      match (if length keywords =? 0
             then findMatchByFullMessage env message limit
             else findMatchByKeywords env keywords limit) with
      | Throw => Ok []
      | Ok fallbackResults =>
          Ok (map (fun qa => withSimilarity qa (Fin 50)) fallbackResults)
      end
  end.
Proof.
  intros H. rewrite (findRelevantQAPairs_fallback env message limit H).
  apply legacyLookup_result.
Qed.

(** C6.  For inputs whose normalized forms are non-empty and distinct, the
    score is [Math.round(weighted * 100) / 100], where
    [weighted = editSim * 0.2 + jaccard * 0.3 + cosine * 0.3 + keyword * 0.2]
    is evaluated in double precision, every operation rounding, and
    [editSim = ((maxLen - d) / maxLen) * 100] with [d] the edit distance of
    the two normalized strings: the least number of single-character
    insertions, deletions and substitutions that turn one into the other.
    The two are the same value; when that value is a number (not [NaN]) they
    are equal numbers in the sense of [===]. *)
Theorem calculateSimilarity_weighted_sum (a b : jsstring) :
  normalize a <> [] -> normalize b <> [] -> normalize a <> normalize b ->
  exists d,
    isEditDistance d (normalize a) (normalize b) /\
    let maxLen := Nat.max (length (normalize a)) (length (normalize b)) in
    let editSim :=
      ((Binary64.ofNat maxLen - Binary64.ofNat d) / Binary64.ofNat maxLen
       * 100)%float in
    let weighted :=
      (editSim * 0.2
       + Binary64.jaccardSimilarity toLowerCase (normalize a) (normalize b) * 0.3
       + Binary64.cosineSimilarity toLowerCase (normalize a) (normalize b) * 0.3
       + Binary64.keywordSimilarity toLowerCase (normalize a) (normalize b) * 0.2
      )%float in
    let rounded := (Binary64.Math_round (weighted * 100) / 100)%float in
    Binary64.calculateSimilarity toLowerCase a b = rounded /\
    (PrimFloat.is_nan rounded = false ->
     PrimFloat.eqb (Binary64.calculateSimilarity toLowerCase a b) rounded
     = true).
Proof.
  unfold normalize. intros Ha Hb Hab.
  set (m1 := toLowerCase (trim a)) in *. set (m2 := toLowerCase (trim b)) in *.
  exists (levenshteinDistance m1 m2). split.
  - apply levenshteinDistance_isEditDistance.
  - cbv zeta.
    assert (E : Binary64.calculateSimilarity toLowerCase a b
                = (Binary64.Math_round
                     (Binary64.weightedScore toLowerCase m1 m2 * 100)
                   / 100)%float).
    { unfold Binary64.calculateSimilarity. fold m1 m2.
      rewrite (proj2 (strEq_neq m1 m2)) by assumption.
      destruct m1 as [|c1 r1]; [congruence|].
      destruct m2 as [|c2 r2]; [congruence|]. reflexivity. }
    assert (W : Binary64.weightedScore toLowerCase m1 m2
                = ((Binary64.ofNat (Nat.max (length m1) (length m2))
                    - Binary64.ofNat (levenshteinDistance m1 m2))
                   / Binary64.ofNat (Nat.max (length m1) (length m2)) * 100
                   * 0.2
                   + Binary64.jaccardSimilarity toLowerCase m1 m2 * 0.3
                   + Binary64.cosineSimilarity toLowerCase m1 m2 * 0.3
                   + Binary64.keywordSimilarity toLowerCase m1 m2 * 0.2)%float).
    { unfold Binary64.weightedScore, Binary64.levenshteinSimilarity.
      destruct (Nat.eqb_spec (Nat.max (length m1) (length m2)) 0) as [Z|Z];
        [|reflexivity].
      destruct m1; [congruence|]. cbn [length] in Z. lia. }
    rewrite E, W. split; [reflexivity|].
    unfold PrimFloat.is_nan. intros N. now apply negb_false_iff in N.
Qed.

(** C7.  When the exact lookup and the query for the active entries work and
    no entry is an exact match, [findRelevantQAPairs] returns the first
    [limit] (5 by default) of the ranked list: the active entries with their
    contextual scores for the message, those whose score is not strictly
    greater than 20 discarded (a score of [NaN] included), sorted by
    descending similarity with ties broken by descending priority.  The
    ranked list holds every active entry that scores above 20, once for each
    time it is in the table.  So the candidates all have a similarity
    strictly greater than 20, are sorted, are at most [limit], and each is an
    active entry of the table with its contextual score. *)
Theorem scoring_pass_candidates (env : Env) (message : jsstring) (limit : nat) :
  exactMatchFails env = false -> findManyFails env = false ->
  (forall qa, In qa (qaPairs env) -> isExactMatch message qa = false) ->
  let active := sort byPriorityThenCreation (filter isActive (qaPairs env)) in
  let above20 :=
    filter (fun c => gtb (similarity c) (Fin 20))
           (map (scoreQAPair message) active) in
  let ranked := sort bySimilarityThenPriority above20 in
  let candidates := firstn limit ranked in
  findRelevantQAPairs env message limit =
    ([CallFindExactMatch message; CallFindMany], Ok candidates) /\
  (forall c, In c ranked <->
     exists qa, In qa (qaPairs env) /\ isActive qa = true /\
                c = scoreQAPair message qa /\
                exists s, similarity c = Fin s /\ 20 < s) /\
  Permutation ranked above20 /\
  StronglySorted ranksBefore ranked /\
  length candidates = Nat.min limit (length ranked) /\
  Forall (fun c => exists s, similarity c = Fin s /\ 20 < s) candidates /\
  StronglySorted ranksBefore candidates /\
  (length candidates <= limit)%nat /\
  Forall (fun c => In (entry c) (qaPairs env) /\ isActive (entry c) = true /\
                   c = scoreQAPair message (entry c)) candidates.
Proof.
  intros He Hm Hno active above20 ranked candidates.
  assert (M : forall c, In c ranked <->
     exists qa, In qa (qaPairs env) /\ isActive qa = true /\
                c = scoreQAPair message qa /\
                exists s, similarity c = Fin s /\ 20 < s).
  { intros c. unfold ranked, above20, active.
    rewrite sort_In, filter_In, in_map_iff. split.
    - intros ((qa & <- & Hqa) & G).
      apply sort_In, filter_In in Hqa as [Hqa Hact].
      exists qa. repeat split; try assumption. now apply gtb_Fin.
    - intros (qa & Hqa & Hact & -> & s & Hs & G). split.
      + exists qa. split; [reflexivity|]. apply sort_In, filter_In. now split.
      + rewrite Hs. now apply gtb_true. }
  assert (G : Forall (fun c => exists s, similarity c = Fin s /\ 20 < s) ranked).
  { apply Forall_forall. intros c Hc. apply M in Hc as (qa & _ & _ & _ & Hs).
    exact Hs. }
  assert (S : StronglySorted ranksBefore ranked).
  { apply sort_candidates_sorted. apply Forall_forall. intros c Hc.
    apply (proj2 (sort_In _ bySimilarityThenPriority above20 c)) in Hc.
    rewrite Forall_forall in G. destruct (G c Hc) as (s & Hs & _).
    now exists s. }
  assert (K : forall c, In c candidates -> In c ranked).
  { intros c Hc. now apply firstn_In in Hc. }
  split; [now apply findRelevantQAPairs_scoring|].
  split; [exact M|].
  split; [apply sort_perm|].
  split; [exact S|].
  split; [apply length_firstn|].
  split; [apply Forall_forall; intros c Hc; rewrite Forall_forall in G; auto|].
  split; [now apply StronglySorted_firstn|].
  split; [apply firstn_le_length|].
  apply Forall_forall. intros c Hc. apply K, M in Hc as (qa & Hqa & Hact & -> & _).
  cbn [scoreQAPair entry]. auto.
Qed.

(** C8.  If the two inputs are identical after trimming and lower-casing
    (both empty included) the score is exactly 100; if exactly one of them is
    empty after normalization the score is 0. *)
Theorem calculateSimilarity_identical_or_empty (a b : jsstring) :
  (normalize a = normalize b -> calculateSimilarity a b = Fin 100) /\
  (normalize a = [] -> normalize b <> [] -> calculateSimilarity a b = Fin 0) /\
  (normalize a <> [] -> normalize b = [] -> calculateSimilarity a b = Fin 0).
Proof.
  unfold calculateSimilarity, normalize. repeat split.
  - intros ->. now rewrite strEq_refl.
  - intros Ha Hb. rewrite Ha.
    rewrite (proj2 (strEq_neq [] (toLowerCase (trim b)))) by congruence.
    reflexivity.
  - intros Ha Hb. rewrite Hb.
    rewrite (proj2 (strEq_neq (toLowerCase (trim a)) [])) by congruence.
    cbn [length Nat.eqb]. now rewrite orb_true_r.
Qed.

(** C9 (as amended).  The keywords are the maximal runs of at least three
    characters of [A-Za-z0-9_] in the lower-cased string.  For two strings
    whose lower-cased forms contain no three consecutive such characters,
    both keyword lists are empty, the keyword measure is 100, and it adds its
    full weight, 20 points, to the weighted sum. *)
Theorem keyword_component_without_keywords (s1 s2 : jsstring) :
  wordRun3 (toLowerCase s1) = false -> wordRun3 (toLowerCase s2) = false ->
  matchKeywords (toLowerCase s1) = [] /\
  matchKeywords (toLowerCase s2) = [] /\
  keywordSimilarity s1 s2 = Fin 100 /\
  weightedScore s1 s2 =
    (levenshteinSimilarity s1 s2 * Fin 0.2 + jaccardSimilarity s1 s2 * Fin 0.3
     + cosineSimilarity s1 s2 * Fin 0.3 + Fin 20)%js.
Proof.
  intros H1 H2. repeat split.
  - now apply matchKeywords_nil.
  - now apply matchKeywords_nil.
  - now apply keywordSimilarity_no_keywords.
  - unfold weightedScore. rewrite (keywordSimilarity_no_keywords _ _ H1 H2).
    f_equal. cbn [mul_ lift2]. f_equal. lra.
Qed.


(** X1.  Apart from the defect of C5 the scores are within range: when no
    word of the normalized message, question and answer is the name of a
    property of [Object.prototype], the score and the contextual score are
    numbers between 0 and 100 (the boosts are capped at 100); the
    edit-distance measure is between 0 and 100 for all strings, the distance
    never exceeding the length of the longer one. *)
Theorem similarity_range_of_own_words
  (userMessage qaQuestion qaAnswer : jsstring) (qaTags : list jsstring) :
  ownWords (normalize userMessage) -> ownWords (normalize qaQuestion) ->
  ownWords (normalize qaAnswer) ->
  between 0 100 (calculateSimilarity userMessage qaQuestion) /\
  between 0 100
    (calculateContextualSimilarity userMessage qaQuestion qaAnswer qaTags) /\
  (levenshteinDistance (normalize userMessage) (normalize qaQuestion)
   <= Nat.max (length (normalize userMessage)) (length (normalize qaQuestion)))%nat /\
  between 0 100
    (levenshteinSimilarity (normalize userMessage) (normalize qaQuestion)).
Proof.
  intros Hm Hq Ha. split; [|split; [|split]].
  - now apply calculateSimilarity_between.
  - now apply calculateContextualSimilarity_between.
  - apply levenshteinDistance_le_max.
  - apply levenshteinSimilarity_between.
Qed.

(* ================================================================== *)
(** * Part XIV.  Further properties of the similarity engine          *)
(* ================================================================== *)

(** ** The edit distance is a metric *)

Lemma edits_refl s : edits 0 s s.
Proof. induction s; auto with edits. Qed.

Lemma edits_zero n s t : edits n s t -> n = 0%nat -> s = t.
Proof. induction 1; intros E; try discriminate; [reflexivity|]. f_equal. auto. Qed.

Lemma edits_length n s t :
  edits n s t ->
  (length s <= length t + n)%nat /\ (length t <= length s + n)%nat.
Proof. induction 1; simpl; lia. Qed.

(** Two scripts in a row are worth one script that is no longer. *)
Lemma edits_trans n s t :
  edits n s t ->
  forall m u, edits m t u -> exists k, (k <= n + m)%nat /\ edits k s u.
Proof.
  induction 1 as [|c s t n H IH|c d s t n H IH|d s t n H IH|c s t n H IH];
    intros m u K.
  - exists m. split; [lia|exact K].
  - remember (c :: t) as ct eqn:E. revert c s t n H IH E.
    induction K as [|c' t' u n' K IK|c' d' t' u n' K IK|d' t' u n' K IK
                   |c' t' u n' K IK]; intros c s t n H IH E.
    + discriminate.
    + injection E as -> ->. destruct (IH _ _ K) as (k & L & D).
      exists k. split; [lia|auto with edits].
    + injection E as -> ->. destruct (IH _ _ K) as (k & L & D).
      exists (S k). split; [lia|auto with edits].
    + destruct (IK _ _ _ _ H IH E) as (k & L & D).
      exists (S k). split; [lia|auto with edits].
    + injection E as -> ->. destruct (IH _ _ K) as (k & L & D).
      exists (S k). split; [lia|auto with edits].
  - remember (d :: t) as dt eqn:E. revert c d s t n H IH E.
    induction K as [|c' t' u n' K IK|c' d' t' u n' K IK|d' t' u n' K IK
                   |c' t' u n' K IK]; intros c d s t n H IH E.
    + discriminate.
    + injection E as -> ->. destruct (IH _ _ K) as (k & L & D).
      exists (S k). split; [lia|auto with edits].
    + injection E as -> ->. destruct (IH _ _ K) as (k & L & D).
      exists (S k). split; [lia|auto with edits].
    + destruct (IK c d s t n H IH E) as (k & L & D).
      exists (S k). split; [lia|auto with edits].
    + injection E as -> ->. destruct (IH _ _ K) as (k & L & D).
      exists (S k). split; [lia|auto with edits].
  - remember (d :: t) as dt eqn:E. revert d s t n H IH E.
    induction K as [|c' t' u n' K IK|c' d' t' u n' K IK|d' t' u n' K IK
                   |c' t' u n' K IK]; intros d s t n H IH E.
    + discriminate.
    + injection E as -> ->. destruct (IH _ _ K) as (k & L & D).
      exists (S k). split; [lia|auto with edits].
    + injection E as -> ->. destruct (IH _ _ K) as (k & L & D).
      exists (S k). split; [lia|auto with edits].
    + destruct (IK _ _ _ _ H IH E) as (k & L & D).
      exists (S k). split; [lia|auto with edits].
    + injection E as -> ->. destruct (IH _ _ K) as (k & L & D).
      exists k. split; [lia|exact D].
  - destruct (IH _ _ K) as (k & L & D).
    exists (S k). split; [lia|auto with edits].
Qed.

Lemma levenshteinDistance_0 s t : levenshteinDistance s t = 0%nat <-> s = t.
Proof.
  destruct (levenshteinDistance_isEditDistance s t) as [E M]. split.
  - intros Z. now apply (edits_zero _ _ _ E).
  - intros <-. pose proof (M 0%nat (edits_refl s)). lia.
Qed.

(** X2.  [levenshteinDistance] is a metric on strings: it is 0 exactly for
    equal strings and obeys the triangle inequality (symmetry is part of
    C10).  It is at least the difference of the two lengths, and the
    distance to the empty string is the length. *)
Theorem levenshteinDistance_metric (s t u : jsstring) :
  (levenshteinDistance s t = 0%nat <-> s = t) /\
  (levenshteinDistance s u
   <= levenshteinDistance s t + levenshteinDistance t u)%nat /\
  (length s - length t <= levenshteinDistance s t)%nat /\
  (length t - length s <= levenshteinDistance s t)%nat /\
  levenshteinDistance s [] = length s.
Proof.
  destruct (levenshteinDistance_isEditDistance s t) as [Est Mst].
  destruct (levenshteinDistance_isEditDistance t u) as [Etu _].
  destruct (levenshteinDistance_isEditDistance s u) as [_ Msu].
  split; [apply levenshteinDistance_0|split; [|split; [|split]]].
  - destruct (edits_trans _ _ _ Est _ _ Etu) as (k & L & D).
    specialize (Msu k D). lia.
  - apply edits_length in Est. lia.
  - apply edits_length in Est. lia.
  - destruct (levenshteinDistance_isEditDistance s []) as [E M].
    apply edits_length in E. specialize (M _ (edits_deletes s)). simpl in E. lia.
Qed.

(** ** Extreme values of the measures *)

Lemma ratio_value (n d : nat) :
  (d <> 0)%nat -> ((ofNat n / ofNat d) * Fin 100)%js = Fin (INR n / INR d * 100).
Proof.
  intros Hd. unfold ofNat. rewrite div_Fin; [reflexivity|].
  apply not_0_INR. exact Hd.
Qed.

Lemma ratio_100 (n d : nat) :
  (d <> 0)%nat -> (INR n / INR d * 100 = 100 <-> n = d).
Proof.
  intros Hd. assert (0 < INR d) by (apply lt_0_INR; lia). split.
  - intros E. apply INR_eq.
    assert (E' : INR n / INR d = 1) by lra.
    apply (f_equal (fun x => x * INR d)) in E'. unfold Rdiv in E'.
    rewrite Rmult_assoc, Rinv_l in E' by lra. lra.
  - intros ->. unfold Rdiv. rewrite Rinv_r by lra. lra.
Qed.

Lemma ratio_0 (n d : nat) :
  (d <> 0)%nat -> (INR n / INR d * 100 = 0 <-> n = 0%nat).
Proof.
  intros Hd. assert (0 < INR d) by (apply lt_0_INR; lia). split.
  - intros E. apply INR_eq. simpl.
    assert (E' : INR n / INR d = 0) by lra.
    apply (f_equal (fun x => x * INR d)) in E'. unfold Rdiv in E'.
    rewrite Rmult_assoc, Rinv_l in E' by lra. lra.
  - intros ->. simpl. unfold Rdiv. lra.
Qed.

Lemma Fin_inj a b : Fin a = Fin b <-> a = b.
Proof. split; [now intros [= ->]|now intros ->]. Qed.

(** X3.  The edit-distance measure is 100 exactly for equal strings, and 0
    exactly when the strings differ and the distance is as large as it can
    be, the length of the longer one. *)
Theorem levenshteinSimilarity_extremes (s t : jsstring) :
  (levenshteinSimilarity s t = Fin 100 <-> s = t) /\
  (levenshteinSimilarity s t = Fin 0 <->
   s <> t /\ levenshteinDistance s t = Nat.max (length s) (length t)).
Proof.
  pose proof (levenshteinDistance_0 s t) as Z.
  pose proof (levenshteinDistance_le_max s t) as L.
  unfold levenshteinSimilarity.
  destruct (Nat.eqb_spec (Nat.max (length s) (length t)) 0) as [E|E].
  - assert (s = t) by (destruct s, t; simpl in E; try lia; reflexivity).
    split; [tauto|]. split; [intros [= K]; lra|tauto].
  - set (m := Nat.max (length s) (length t)) in *.
    set (d := levenshteinDistance s t) in *.
    replace (ofNat m - ofNat d)%js with (ofNat (m - d))
      by (unfold ofNat; simpl; now rewrite minus_INR).
    rewrite ratio_value by exact E. rewrite !Fin_inj.
    rewrite ratio_100, ratio_0 by exact E. split.
    + rewrite <- Z. lia.
    + split.
      * intros K. split; [|lia]. intros ->. apply proj2 in Z.
        specialize (Z eq_refl). lia.
      * intros [_ K]. lia.
Qed.

Lemma splitGo_not_nil s : forall inSep cur, splitGo inSep cur s <> [].
Proof.
  induction s as [|c s IH]; intros inSep cur; simpl; [discriminate|].
  destruct (isWhiteSpace c); [destruct inSep|]; try apply IH; discriminate.
Qed.

Lemma splitSpaces_not_nil s : splitSpaces s <> [].
Proof. apply splitGo_not_nil. Qed.

(** The overlap of two sets of strings, as the two word measures compute
    it. *)
Lemma overlap_extremes (w1 w2 : list jsstring) :
  let i := mkSet (filter (fun x => has (mkSet w2) x) (mkSet w1)) in
  let u := mkSet (mkSet w1 ++ mkSet w2) in
  let ratio := ((ofNat (length i) / ofNat (length u)) * Fin 100)%js in
  u <> [] ->
  (ratio = Fin 100 <-> forall w, In w w1 <-> In w w2) /\
  (ratio = Fin 0 <-> forall w, In w w1 -> ~ In w w2).
Proof.
  intros i u ratio N. unfold ratio.
  assert (Hi : forall x, In x i <-> In x w1 /\ In x w2).
  { intros x. unfold i. rewrite mkSet_In, filter_In, has_In, !mkSet_In. tauto. }
  assert (Hu : forall x, In x u <-> In x w1 \/ In x w2).
  { intros x. unfold u. rewrite mkSet_In, in_app_iff, !mkSet_In. tauto. }
  assert (Nl : length u <> 0%nat) by (destruct u; [congruence|discriminate]).
  rewrite ratio_value by exact Nl. rewrite !Fin_inj.
  rewrite ratio_100, ratio_0 by exact Nl.
  split.
  - split.
    + intros E w.
      assert (I : incl u i).
      { apply NoDup_length_incl; [apply mkSet_NoDup|lia|].
        intros x Hx. apply Hu. apply Hi in Hx. tauto. }
      split; intros Hw.
      * assert (K : In w u) by (apply Hu; tauto). apply I, Hi in K. tauto.
      * assert (K : In w u) by (apply Hu; tauto). apply I, Hi in K. tauto.
    + intros E. apply Permutation_length, NoDup_Permutation;
        try apply mkSet_NoDup.
      intros x. rewrite Hi, Hu, (E x). tauto.
  - split.
    + intros E w H1 H2. assert (K : In w i) by (apply Hi; tauto).
      destruct i; [destruct K|discriminate].
    + intros E. destruct i as [|x i'] eqn:Ei; [reflexivity|].
      assert (K : In x (x :: i')) by now left.
      apply Hi in K. destruct K as [K1 K2]. destruct (E x K1 K2).
Qed.

(** X4.  The word-set measure is 100 exactly when the two strings have the
    same set of words, whatever their order and repetitions, and 0 exactly
    when they have no word in common.  The set of all words is never empty
    (splitting a string yields at least one piece), so the test
    [union.size === 0] never succeeds. *)
Theorem jaccardSimilarity_extremes (s t : jsstring) :
  (jaccardSimilarity s t = Fin 100 <->
   forall w, In w (splitSpaces (toLowerCase s)) <->
             In w (splitSpaces (toLowerCase t))) /\
  (jaccardSimilarity s t = Fin 0 <->
   forall w, In w (splitSpaces (toLowerCase s)) ->
             ~ In w (splitSpaces (toLowerCase t))) /\
  mkSet (mkSet (splitSpaces (toLowerCase s))
         ++ mkSet (splitSpaces (toLowerCase t))) <> [].
Proof.
  unfold jaccardSimilarity.
  set (w1 := splitSpaces (toLowerCase s)).
  set (w2 := splitSpaces (toLowerCase t)).
  assert (N : mkSet (mkSet w1 ++ mkSet w2) <> []).
  { rewrite mkSet_nil. intros E. apply app_eq_nil in E as [E _].
    apply (proj1 (mkSet_nil _)) in E. exact (splitSpaces_not_nil _ E). }
  destruct (Nat.eqb_spec (length (mkSet (mkSet w1 ++ mkSet w2))) 0) as [E|_].
  { destruct (mkSet (mkSet w1 ++ mkSet w2)); [congruence|discriminate]. }
  destruct (overlap_extremes w1 w2 N) as [H100 H0].
  split; [exact H100|split; [exact H0|exact N]].
Qed.

(** X8.  The keyword measure is 100 exactly when the two strings have the
    same set of keywords (none on both sides included), and 0 exactly when
    they have no keyword in common and at least one has a keyword. *)
Theorem keywordSimilarity_extremes (s t : jsstring) :
  (keywordSimilarity s t = Fin 100 <->
   forall w, In w (matchKeywords (toLowerCase s)) <->
             In w (matchKeywords (toLowerCase t))) /\
  (keywordSimilarity s t = Fin 0 <->
   (forall w, In w (matchKeywords (toLowerCase s)) ->
              ~ In w (matchKeywords (toLowerCase t))) /\
   (matchKeywords (toLowerCase s) <> [] \/ matchKeywords (toLowerCase t) <> [])).
Proof.
  unfold keywordSimilarity.
  destruct (matchKeywords (toLowerCase s)) as [|x1 r1];
    destruct (matchKeywords (toLowerCase t)) as [|x2 r2];
    cbn [length Nat.eqb andb orb].
  - split; [tauto|]. split; [intros [= K]; lra|intros [_ [K|K]]; congruence].
  - split.
    + split; [intros [= K]; lra|]. intros K. destruct (proj2 (K x2)). now left.
    + split; [|reflexivity]. intros _. split; [intros w []|right; discriminate].
  - split.
    + split; [intros [= K]; lra|]. intros K. destruct (proj1 (K x1)). now left.
    + split; [|reflexivity]. intros _.
      split; [intros w _ []|left; discriminate].
  - assert (N : mkSet (mkSet (x1 :: r1) ++ mkSet (x2 :: r2)) <> []).
    { rewrite mkSet_nil. intros E. apply app_eq_nil in E as [E _].
      apply (proj1 (mkSet_nil _)) in E. discriminate E. }
    destruct (overlap_extremes (x1 :: r1) (x2 :: r2) N) as [H100 H0].
    split; [exact H100|]. rewrite H0. split; [|tauto].
    intros K. split; [exact K|]. left. discriminate.
Qed.

(** ** The contextual boosts *)

Lemma Math_min_Fin a b : Math_min (Fin a) (Fin b) = Fin (Rmin a b).
Proof. reflexivity. Qed.

(** X5.  The boosts of [calculateContextualSimilarity] never lower the
    score, and the result never exceeds 100: for a base score [b] it lies
    between [min(b, 100)] and 100.  When no tag matches and the similarity
    to the answer is not above 30, the result is the base score (capped).  A
    base score that is [NaN] stays [NaN]; a similarity to the answer that is
    [NaN] adds nothing. *)
Theorem calculateContextualSimilarity_boosts
  (userMessage qaQuestion qaAnswer : jsstring) (qaTags : list jsstring) :
  let tagMatches :=
    filter (fun tag =>
              existsb (fun word => includes word (toLowerCase tag)
                                   || includes (toLowerCase tag) word)
                      (splitSpaces (toLowerCase userMessage)))
           qaTags in
  match calculateSimilarity userMessage qaQuestion with
  | Fin b =>
      exists c,
        calculateContextualSimilarity userMessage qaQuestion qaAnswer qaTags
          = Fin c /\
        Rmin b 100 <= c <= 100 /\
        (tagMatches = [] ->
         gtb (calculateSimilarity userMessage qaAnswer) (Fin 30) = false ->
         c = Rmin b 100)
  | NaN =>
      calculateContextualSimilarity userMessage qaQuestion qaAnswer qaTags = NaN
  end.
Proof.
  intros tagMatches. unfold calculateContextualSimilarity. fold tagMatches.
  destruct (calculateSimilarity userMessage qaQuestion) as [b|].
  2:{ destruct (0 <? _)%nat; destruct (gtb _ _); reflexivity. }
  set (n := length tagMatches).
  assert (T : exists b1,
            (if (0 <? n)%nat
             then (Fin b + Math_min (ofNat n * Fin 5) (Fin 15))%js
             else Fin b) = Fin b1 /\ b <= b1 /\ (tagMatches = [] -> b1 = b)).
  { destruct (Nat.ltb_spec 0 n) as [L|L].
    - unfold ofNat. cbn [mul_ add_ lift2 Math_min].
      eexists; split; [reflexivity|].
      assert (1 <= INR n) by (apply (le_INR 1); lia).
      split; [unfold Rmin; destruct (Rle_dec _ _); lra|].
      intros E. unfold n in L. rewrite E in L. cbn [length] in L. lia.
    - exists b. split; [reflexivity|]. split; [lra|reflexivity]. }
  destruct T as (b1 & -> & Hb1 & Hn).
  destruct (calculateSimilarity userMessage qaAnswer) as [a|].
  - destruct (gtb (Fin a) (Fin 30)) eqn:G.
    + apply gtb_true in G. cbn [mul_ add_ lift2 Math_min].
      eexists; split; [reflexivity|].
      split; [unfold Rmin; repeat destruct (Rle_dec _ _); lra|discriminate].
    + cbn [Math_min lift2]. eexists; split; [reflexivity|].
      split; [unfold Rmin; repeat destruct (Rle_dec _ _); lra|].
      intros E _. now rewrite (Hn E).
  - cbn [gtb Math_min lift2]. eexists; split; [reflexivity|].
    split; [unfold Rmin; repeat destruct (Rle_dec _ _); lra|].
    intros E _. now rewrite (Hn E).
Qed.

(** *** White space around the message *)

Lemma dropWhile_all (p : N -> bool) w :
  Forall (fun c => p c = true) w -> forall s, dropWhile p (w ++ s) = dropWhile p s.
Proof. induction 1 as [|c w H _ IH]; intros s; simpl; [|rewrite H]; auto. Qed.

Lemma dropWhile_app_all (p : N -> bool) w :
  Forall (fun c => p c = true) w ->
  forall s, dropWhile p (s ++ w) =
            match dropWhile p s with [] => [] | _ => dropWhile p s ++ w end.
Proof.
  intros H s. induction s as [|c s IH]; simpl.
  - rewrite <- (app_nil_r w). rewrite (dropWhile_all p w H []). reflexivity.
  - destruct (p c); [exact IH|reflexivity].
Qed.

Lemma trim_padded before after s :
  Forall (fun c => isWhiteSpace c = true) before ->
  Forall (fun c => isWhiteSpace c = true) after ->
  trim (before ++ s ++ after) = trim s.
Proof.
  intros Hb Ha. unfold trim.
  rewrite (dropWhile_all _ _ Hb), (dropWhile_app_all _ _ Ha).
  destruct (dropWhile isWhiteSpace s) as [|c r] eqn:E; [reflexivity|].
  rewrite rev_app_distr. f_equal. apply dropWhile_all.
  apply Forall_rev. exact Ha.
Qed.

(** X6.  [calculateSimilarity] ignores white space around either argument:
    both are trimmed before anything is compared. *)
Theorem calculateSimilarity_ignores_padding
  (before after before' after' userMessage qaQuestion : jsstring) :
  Forall (fun c => isWhiteSpace c = true) (before ++ after) ->
  Forall (fun c => isWhiteSpace c = true) (before' ++ after') ->
  calculateSimilarity (before ++ userMessage ++ after)
                      (before' ++ qaQuestion ++ after')
  = calculateSimilarity userMessage qaQuestion.
Proof.
  intros H H'. apply Forall_app in H as [Hb Ha]. apply Forall_app in H' as [Hb' Ha'].
  unfold calculateSimilarity.
  now rewrite (trim_padded _ _ _ Hb Ha), (trim_padded _ _ _ Hb' Ha').
Qed.

Lemma splitGo_trailing c : isWhiteSpace c = true ->
  forall s inSep cur, (inSep = true -> cur = []) ->
  In [] (splitGo inSep cur (s ++ [c])).
Proof.
  intros Hc. induction s as [|d s IH]; intros inSep cur Inv; simpl.
  - rewrite Hc. destruct inSep.
    + rewrite (Inv eq_refl). now left.
    + right. now left.
  - destruct (isWhiteSpace d).
    + destruct inSep; [apply IH; exact Inv|]. right. apply IH. reflexivity.
    + apply IH. discriminate.
Qed.

Lemma includes_nil s : includes s [] = true.
Proof. destruct s; reflexivity. Qed.

(** The test a tag passes to count as a match. *)
Lemma tag_matches_empty_word (tag : jsstring) (userWords : list jsstring) :
  In [] userWords ->
  existsb (fun word => includes word (toLowerCase tag)
                       || includes (toLowerCase tag) word) userWords = true.
Proof.
  intros H. apply existsb_exists. exists []. split; [exact H|].
  rewrite includes_nil. apply orb_true_r.
Qed.

(** X7.  A message whose lower-cased form begins or ends with white space
    gets the tag boost for every tag of the entry, whatever the tags are:
    splitting it yields an empty word, and every string includes the empty
    string.  With at least one tag, [min(5 * number of tags, 15)] is added
    to the base score before the answer boost and the cap. *)
Theorem padded_message_matches_every_tag
  (userMessage qaQuestion qaAnswer : jsstring) (qaTags : list jsstring)
  (c : N) (rest : jsstring) :
  isWhiteSpace c = true ->
  toLowerCase userMessage = c :: rest \/ toLowerCase userMessage = rest ++ [c] ->
  qaTags <> [] ->
  filter (fun tag =>
            existsb (fun word => includes word (toLowerCase tag)
                                 || includes (toLowerCase tag) word)
                    (splitSpaces (toLowerCase userMessage)))
         qaTags = qaTags /\
  calculateContextualSimilarity userMessage qaQuestion qaAnswer qaTags
  = (let score :=
       (calculateSimilarity userMessage qaQuestion
        + Math_min (ofNat (length qaTags) * Fin 5) (Fin 15))%js in
     let answerSimilarity := calculateSimilarity userMessage qaAnswer in
     Math_min
       (if gtb answerSimilarity (Fin 30)
        then (score + Math_min (answerSimilarity * Fin 0.1) (Fin 10))%js
        else score)
       (Fin 100)).
Proof.
  intros Hc Hm Ht.
  assert (E : In [] (splitSpaces (toLowerCase userMessage))).
  { destruct Hm as [-> | ->].
    - unfold splitSpaces. simpl. rewrite Hc. now left.
    - apply splitGo_trailing; [exact Hc|discriminate]. }
  assert (F : filter (fun tag =>
            existsb (fun word => includes word (toLowerCase tag)
                                 || includes (toLowerCase tag) word)
                    (splitSpaces (toLowerCase userMessage)))
         qaTags = qaTags).
  { apply forallb_filter_id. apply forallb_forall. intros tag _.
    now apply tag_matches_empty_word. }
  split; [exact F|].
  unfold calculateContextualSimilarity. rewrite F.
  destruct qaTags as [|t0 tags']; [congruence|]. reflexivity.
Qed.

(** ** The frequency-vector measure on words of their own *)

Lemma sumR_term A (g : A -> R) l w0 :
  (forall w, 0 <= g w) -> In w0 l -> g w0 <= sumR (map g l).
Proof.
  intros H. induction l as [|w l IH]; intros K; [destruct K|]. simpl.
  pose proof (sumR_nonneg _ g l H). destruct K as [->|K].
  - lra.
  - specialize (IH K). specialize (H w). lra.
Qed.

Lemma sumR_zero A (g : A -> R) l :
  (forall w, 0 <= g w) ->
  (sumR (map g l) = 0 <-> forall w, In w l -> g w = 0).
Proof.
  intros H. split.
  - intros E w Hw. pose proof (sumR_term _ g l w H Hw). specialize (H w). lra.
  - intros E. induction l as [|w l IH]; simpl; [reflexivity|].
    rewrite (E w) by now left. rewrite IH; [lra|]. intros v Hv. apply E. now right.
Qed.

Lemma countIn_pos w l : In w l <-> (0 < countIn w l)%nat.
Proof.
  unfold countIn. induction l as [|x l IH]; simpl; [split; [tauto|lia]|].
  destruct (strEq w x) eqn:E; simpl.
  - apply strEq_eq in E. split; [lia|]. intros _. left. now symmetry.
  - apply strEq_neq in E. rewrite <- IH. split; [|tauto].
    intros [K|K]; [congruence|exact K].
Qed.

Lemma countIn_perm w l l' : Permutation l l' -> countIn w l = countIn w l'.
Proof.
  intros H. unfold countIn.
  induction H; simpl; try destruct (strEq w x); try destruct (strEq w y);
    simpl; congruence.
Qed.

(** The value of the measure in terms of the word counts. *)
Lemma cosineSimilarity_value s t :
  ownWords s -> ownWords t ->
  let w1 := splitSpaces (toLowerCase s) in
  let w2 := splitSpaces (toLowerCase t) in
  let aw := mkSet (w1 ++ w2) in
  let S := sumR (map (fun w => INR (countIn w w1) * INR (countIn w w2)) aw) in
  let P := sumR (map (fun w => INR (countIn w w1) * INR (countIn w w1)) aw) in
  let Q := sumR (map (fun w => INR (countIn w w2) * INR (countIn w w2)) aw) in
  0 < P /\ 0 < Q /\ cosineSimilarity s t = Fin (S / (sqrt P * sqrt Q) * 100).
Proof.
  intros F1 F2 w1 w2 aw. unfold ownWords in F1, F2. fold w1 in F1. fold w2 in F2.
  assert (F : forall w, In w aw -> inherited w = false).
  { intros w Hw. apply (proj1 (mkSet_In _ _)) in Hw. apply in_app_iff in Hw.
    rewrite Forall_forall in F1, F2. destruct Hw; auto. }
  set (x := fun w => INR (countIn w w1)). set (y := fun w => INR (countIn w w2)).
  intros S P Q.
  assert (HP : 0 < P).
  { destruct w1 as [|w0 r] eqn:E1; [destruct (splitSpaces_not_nil _ E1)|].
    assert (K : In w0 aw) by (apply mkSet_In; now left).
    pose proof (sumR_term _ (fun w => x w * x w) aw w0
                  (fun w => Rle_0_sqr _) K) as L. cbv beta in L.
    assert (1 <= x w0).
    { unfold x. apply (le_INR 1). apply (countIn_pos w0 (w0 :: r)). now left. }
    assert (L' : x w0 * x w0 <= P) by exact L. nra. }
  assert (HQ : 0 < Q).
  { destruct w2 as [|w0 r] eqn:E2; [destruct (splitSpaces_not_nil _ E2)|].
    assert (K : In w0 aw) by (apply mkSet_In, in_app_iff; right; now left).
    pose proof (sumR_term _ (fun w => y w * y w) aw w0
                  (fun w => Rle_0_sqr _) K) as L. cbv beta in L.
    assert (1 <= y w0).
    { unfold y. apply (le_INR 1). apply (countIn_pos w0 (w0 :: r)). now left. }
    assert (L' : y w0 * y w0 <= Q) by exact L. nra. }
  split; [exact HP|]. split; [exact HQ|].
  unfold cosineSimilarity. fold w1 w2 aw.
  set (f1 := fold_left countWord w1 []). set (f2 := fold_left countWord w2 []).
  rewrite cosineStep_fold.
  assert (E : forall w, In w aw ->
            wordFreq f1 w = Fin (x w) /\ wordFreq f2 w = Fin (y w)).
  { intros w Hw. unfold wordFreq, f1, f2.
    rewrite !wordFreq_count by auto. now split. }
  rewrite (map_ext_in (fun w => wordFreq f1 w * wordFreq f2 w)%js
                      (fun w => Fin (x w * y w)))
    by (intros w Hw; destruct (E w Hw) as [-> ->]; reflexivity).
  rewrite (map_ext_in (fun w => wordFreq f1 w * wordFreq f1 w)%js
                      (fun w => Fin (x w * x w)))
    by (intros w Hw; destruct (E w Hw) as [-> _]; reflexivity).
  rewrite (map_ext_in (fun w => wordFreq f2 w * wordFreq f2 w)%js
                      (fun w => Fin (y w * y w)))
    by (intros w Hw; destruct (E w Hw) as [_ ->]; reflexivity).
  rewrite !sumN_Fin. cbn [add_ lift2].
  change (sumR (map (fun w => x w * y w) aw)) with S.
  change (sumR (map (fun w => x w * x w) aw)) with P.
  change (sumR (map (fun w => y w * y w) aw)) with Q.
  rewrite (proj2 (eqn_false (0 + P) 0)) by lra.
  rewrite (proj2 (eqn_false (0 + Q) 0)) by lra.
  cbn [orb]. unfold Math_sqrt.
  destruct (Rlt_dec (0 + P) 0); [lra|]. destruct (Rlt_dec (0 + Q) 0); [lra|].
  cbn [mul_ lift2].
  replace (0 + P) with P by lra. replace (0 + Q) with Q by lra.
  replace (0 + S) with S by lra.
  assert (0 < sqrt P) by (apply sqrt_lt_R0; lra).
  assert (0 < sqrt Q) by (apply sqrt_lt_R0; lra).
  assert (0 < sqrt P * sqrt Q) by now apply Rmult_lt_0_compat.
  rewrite div_Fin by lra. reflexivity.
Qed.

Lemma cosineSimilarity_same_words s t :
  ownWords s -> ownWords t ->
  Permutation (splitSpaces (toLowerCase s)) (splitSpaces (toLowerCase t)) ->
  cosineSimilarity s t = Fin 100.
Proof.
  intros Hs Ht Hp.
  destruct (cosineSimilarity_value s t Hs Ht) as (HP & HQ & ->).
  cbv zeta in *.
  set (w1 := splitSpaces (toLowerCase s)) in *.
  set (w2 := splitSpaces (toLowerCase t)) in *.
  rewrite (map_ext (fun w => INR (countIn w w1) * INR (countIn w w2))
                   (fun w => INR (countIn w w1) * INR (countIn w w1)))
    by (intros w; now rewrite (countIn_perm w _ _ Hp)).
  rewrite (map_ext (fun w => INR (countIn w w2) * INR (countIn w w2))
                   (fun w => INR (countIn w w1) * INR (countIn w w1)))
    by (intros w; now rewrite (countIn_perm w _ _ Hp)).
  set (P := sumR _) in *. rewrite sqrt_sqrt by lra.
  f_equal. unfold Rdiv. rewrite Rinv_r by lra. lra.
Qed.

(** X9.  For strings none of whose words names a property of
    [Object.prototype], the frequency-vector measure is a number, and it is
    0 exactly when the strings have no word in common. *)
Theorem cosineSimilarity_extremes (s t : jsstring) :
  ownWords s -> ownWords t ->
  (exists c, cosineSimilarity s t = Fin c /\ 0 <= c) /\
  (cosineSimilarity s t = Fin 0 <->
   forall w, In w (splitSpaces (toLowerCase s)) ->
             ~ In w (splitSpaces (toLowerCase t))).
Proof.
  intros Hs Ht.
  split; [destruct (cosineSimilarity_between s t Hs Ht) as (c & E & Hc);
          exists c; split; [exact E|lra]|].
  destruct (cosineSimilarity_value s t Hs Ht) as (HP & HQ & ->).
  cbv zeta in *.
  set (w1 := splitSpaces (toLowerCase s)) in *.
  set (w2 := splitSpaces (toLowerCase t)) in *.
  set (aw := mkSet (w1 ++ w2)) in *.
  set (S := sumR (map (fun w => INR (countIn w w1) * INR (countIn w w2)) aw)).
  set (P := sumR _) in HP. set (Q := sumR _) in HQ.
  assert (0 < sqrt P * sqrt Q)
    by (apply Rmult_lt_0_compat; apply sqrt_lt_R0; lra).
  assert (Z : S = 0 <-> forall w, In w w1 -> ~ In w w2).
  { unfold S. rewrite sumR_zero
      by (intros w; apply Rmult_le_pos; apply pos_INR).
    split.
    - intros E w H1 H2.
      assert (K : In w aw) by (apply mkSet_In, in_app_iff; now left).
      specialize (E w K). apply countIn_pos in H1, H2.
      apply lt_INR in H1, H2. simpl in H1, H2. nra.
    - intros E w _. destruct (countIn w w1) eqn:C1; [simpl; lra|].
      destruct (countIn w w2) eqn:C2; [simpl; lra|].
      exfalso. apply (E w); apply countIn_pos; lia. }
  rewrite Fin_inj, <- Z. split.
  - intros E. assert (E' : S / (sqrt P * sqrt Q) = 0).
    { change (S / (sqrt P * sqrt Q) * 100 = 0) in E.
      remember (S / (sqrt P * sqrt Q)) as q. lra. }
    apply (f_equal (fun v => v * (sqrt P * sqrt Q))) in E'. unfold Rdiv in E'.
    rewrite Rmult_assoc, Rinv_l in E' by lra. lra.
  - intros ->. unfold Rdiv. lra.
Qed.

(** ** Questions that differ in the order of their words *)

Lemma isWhiteSpace_not_word c : isWhiteSpace c = true -> isWordChar c = false.
Proof.
  unfold isWhiteSpace, isWordChar, chars. intros H.
  repeat (apply orb_true_iff in H; destruct H as [H|H]);
    repeat (apply andb_true_iff in H; destruct H as [? H]);
    repeat match goal with
    | K : N.leb _ _ = true |- _ => apply N.leb_le in K
    | K : N.eqb _ _ = true |- _ => apply N.eqb_eq in K
    end;
    repeat (apply orb_false_iff; split);
    try (apply andb_false_iff;
         first [left; apply N.leb_gt; lia | right; apply N.leb_gt; lia]);
    apply N.eqb_neq; lia.
Qed.

Lemma emitRun_app cur rest : emitRun cur rest = emitRun cur [] ++ rest.
Proof. unfold emitRun. now destruct (3 <=? length cur)%nat. Qed.

(** No keyword spans a character that is not a word character. *)
Lemma matchGo_separator c v : isWordChar c = false ->
  forall u cur, matchGo cur (u ++ c :: v) = matchGo cur u ++ matchKeywords v.
Proof.
  intros Hc. induction u as [|d u IH]; intros cur; simpl.
  - rewrite Hc. apply emitRun_app.
  - destruct (isWordChar d); [apply IH|].
    rewrite IH, (emitRun_app cur (matchGo [] u)), (emitRun_app cur (_ ++ _)).
    now rewrite app_assoc.
Qed.

(** The keywords of a string are those of its words, in order. *)
Lemma keywords_of_pieces s : forall inSep piece,
  (inSep = true -> piece = []) ->
  flat_map matchKeywords (splitGo inSep piece s) = matchKeywords (rev piece ++ s).
Proof.
  induction s as [|c s IH]; intros inSep piece Inv; simpl.
  - now rewrite !app_nil_r.
  - destruct (isWhiteSpace c) eqn:W.
    + pose proof (isWhiteSpace_not_word c W) as NW.
      unfold matchKeywords at 2. rewrite (matchGo_separator c s NW).
      destruct inSep.
      * rewrite (Inv eq_refl). simpl. apply (IH true []). reflexivity.
      * simpl. f_equal. apply (IH true []). reflexivity.
    + rewrite (IH false (c :: piece)) by discriminate.
      simpl. now rewrite <- app_assoc.
Qed.

Lemma matchKeywords_words s :
  matchKeywords s = flat_map matchKeywords (splitSpaces s).
Proof. symmetry. apply (keywords_of_pieces s false []). discriminate. Qed.

Lemma round2_within (lo hi : Z) w :
  between (IZR lo / 100) (IZR hi / 100) w ->
  between (IZR lo / 100) (IZR hi / 100) (Math_round (w * Fin 100) / Fin 100)%js.
Proof.
  intros (r & -> & Hr). cbn [mul_ lift2 Math_round].
  rewrite div_Fin by lra. eexists; split; [reflexivity|].
  assert (H : IZR lo <= r * 100 <= IZR hi) by lra.
  apply Math_round_between in H. lra.
Qed.

(** X10.  Two non-empty messages whose normalized forms consist of the same
    words in a different order (none of them the name of a property of
    [Object.prototype]) score at least 80: the word-set and keyword measures
    are 100, so is the frequency-vector measure up to rounding, and only
    the edit-distance measure, with its weight of 0.2, tells the messages
    apart. *)
Theorem reordered_words_score (a b : jsstring) :
  normalize a <> [] -> normalize b <> [] ->
  ownWords (normalize a) -> ownWords (normalize b) ->
  Permutation (splitSpaces (toLowerCase (normalize a)))
              (splitSpaces (toLowerCase (normalize b))) ->
  jaccardSimilarity (normalize a) (normalize b) = Fin 100 /\
  keywordSimilarity (normalize a) (normalize b) = Fin 100 /\
  between 80 100 (calculateSimilarity a b).
Proof.
  intros Na Nb Oa Ob Hp.
  set (m1 := normalize a) in *. set (m2 := normalize b) in *.
  assert (J : jaccardSimilarity m1 m2 = Fin 100).
  { unfold jaccardSimilarity.
    set (w1 := splitSpaces (toLowerCase m1)) in *.
    set (w2 := splitSpaces (toLowerCase m2)) in *.
    assert (N : mkSet (mkSet w1 ++ mkSet w2) <> []).
    { rewrite mkSet_nil. intros E. apply app_eq_nil in E as [E _].
      apply (proj1 (mkSet_nil _)) in E. exact (splitSpaces_not_nil _ E). }
    destruct (Nat.eqb_spec (length (mkSet (mkSet w1 ++ mkSet w2))) 0) as [E|_];
      [reflexivity|].
    apply (overlap_extremes w1 w2 N). intros w.
    split; apply Permutation_in; [exact Hp|now apply Permutation_sym]. }
  assert (C : cosineSimilarity m1 m2 = Fin 100)
    by now apply cosineSimilarity_same_words.
  assert (K : keywordSimilarity m1 m2 = Fin 100).
  { unfold keywordSimilarity.
    assert (Hk : Permutation (matchKeywords (toLowerCase m1))
                             (matchKeywords (toLowerCase m2))).
    { rewrite !matchKeywords_words. now apply Permutation_flat_map. }
    destruct (matchKeywords (toLowerCase m1)) as [|x1 r1];
      destruct (matchKeywords (toLowerCase m2)) as [|x2 r2];
      cbn [length Nat.eqb andb orb]; try reflexivity.
    - apply Permutation_nil in Hk. discriminate.
    - apply Permutation_sym, Permutation_nil in Hk. discriminate.
    - assert (N : mkSet (mkSet (x1 :: r1) ++ mkSet (x2 :: r2)) <> []).
      { rewrite mkSet_nil. intros E. apply app_eq_nil in E as [E _].
        apply (proj1 (mkSet_nil _)) in E. discriminate E. }
      apply (overlap_extremes (x1 :: r1) (x2 :: r2) N). intros w.
      split; apply Permutation_in; [exact Hk|now apply Permutation_sym]. }
  split; [exact J|]. split; [exact K|].
  unfold calculateSimilarity. fold (normalize a) (normalize b). fold m1 m2.
  destruct (strEq m1 m2); [exists 100; split; [reflexivity|lra]|].
  destruct m1 as [|c1 r1]; [congruence|]. destruct m2 as [|c2 r2]; [congruence|].
  cbn [length Nat.eqb orb].
  replace 80 with (IZR 8000 / 100) by lra.
  replace 100 with (IZR 10000 / 100) at 2 by lra.
  apply round2_within. unfold weightedScore. rewrite J, C, K.
  destruct (levenshteinSimilarity_between (c1 :: r1) (c2 :: r2)) as (l & -> & Hl).
  cbn [add_ mul_ lift2]. eexists; split; [reflexivity|lra].
Qed.

(** ** Candidates and the router's effects *)

Lemma calculateContextualSimilarity_le_100 msg q ans tgs s :
  calculateContextualSimilarity msg q ans tgs = Fin s -> s <= 100.
Proof.
  unfold calculateContextualSimilarity.
  match goal with |- Math_min ?x _ = _ -> _ => destruct x as [v|] end;
    [|discriminate].
  cbn [Math_min lift2]. intros [= <-]. apply Rmin_r.
Qed.

Lemma legacyLookup_similarities env message limit :
  exists candidates,
    snd (legacyLookup env message limit) = Ok candidates /\
    Forall validSimilarity candidates.
Proof.
  rewrite legacyLookup_result.
  assert (F : forall l, Forall validSimilarity
                          (map (fun qa => withSimilarity qa (Fin 50)) l)).
  { intros l. apply Forall_forall. intros c Hc.
    apply in_map_iff in Hc as (qa & <- & _). exists 50. split; [reflexivity|lra]. }
  destruct (extractKeywords env message 2) as [keywords|];
    [|exists []; split; [reflexivity|constructor]].
  destruct (if (length keywords =? 0)%nat then _ else _) as [l|].
  - eexists. split; [reflexivity|apply F].
  - exists []. split; [reflexivity|constructor].
Qed.

(** X11.  Whatever the collaborators do, [findRelevantQAPairs] resolves, and
    every candidate it returns carries a similarity that is a number above
    20 and at most 100 (100 for exact matches, the score for scored entries,
    50 for the results of the fallback lookup): never [NaN], so an entry
    whose score is [NaN] is never a candidate. *)
Theorem findRelevantQAPairs_similarities
  (env : Env) (message : jsstring) (limit : nat) :
  exists candidates,
    snd (findRelevantQAPairs env message limit) = Ok candidates /\
    Forall validSimilarity candidates.
Proof.
  destruct (legacyLookup_similarities env message limit) as (lc & Hl & Fl).
  unfold findRelevantQAPairs, findExactMatch, findMany.
  destruct (legacyLookup env message limit) as [llog lr]. cbn [snd] in Hl. subst lr.
  destruct (exactMatchFails env).
  { exists lc. split; [reflexivity|exact Fl]. }
  destruct (sort byPriority (filter (isExactMatch message) (qaPairs env)))
    as [|qa matches].
  2:{ eexists. split; [reflexivity|]. apply Forall_forall. intros c Hc.
      apply in_map_iff in Hc as (x & <- & _). exists 100. split; [reflexivity|lra]. }
  cbn [call bind length Nat.ltb Nat.leb].
  destruct (findManyFails env).
  { exists lc. split; [reflexivity|exact Fl]. }
  destruct (length _ =? 0)%nat.
  { exists []. split; [reflexivity|constructor]. }
  eexists. split; [reflexivity|]. apply Forall_forall. intros c Hc.
  apply firstn_In, sort_In, filter_In in Hc as [Hc G].
  apply gtb_Fin in G as (s & Hs & L). exists s. split; [exact Hs|]. split; [exact L|].
  apply in_map_iff in Hc as (qa & <- & _). cbn [scoreQAPair similarity] in Hs.
  now apply calculateContextualSimilarity_le_100 in Hs.
Qed.

Lemma legacyLookup_no_generative env message limit :
  filter isGenerativeCall (fst (legacyLookup env message limit)) = [].
Proof.
  unfold legacyLookup, tryCatch, bind, call, ret.
  destruct (extractKeywords env message 2) as [keywords|]; [|reflexivity].
  destruct (length keywords =? 0)%nat.
  - destruct (findMatchByFullMessage env message limit); reflexivity.
  - destruct (findMatchByKeywords env keywords limit); reflexivity.
Qed.

Lemma findRelevantQAPairs_no_generative env message limit :
  filter isGenerativeCall (fst (findRelevantQAPairs env message limit)) = [].
Proof.
  pose proof (legacyLookup_no_generative env message limit) as L.
  unfold findRelevantQAPairs, findExactMatch, findMany.
  destruct (legacyLookup env message limit) as [llog lr]. cbn [fst] in L.
  destruct (exactMatchFails env).
  { cbn [call bind tryCatch fst]. rewrite filter_app, L. reflexivity. }
  destruct (sort byPriority (filter (isExactMatch message) (qaPairs env)));
    [|reflexivity].
  cbn [call bind length Nat.ltb Nat.leb].
  destruct (findManyFails env).
  { cbn [tryCatch fst app filter isGenerativeCall]. exact L. }
  destruct (length _ =? 0)%nat; reflexivity.
Qed.

Lemma selectResponse_one_generative env message from language candidates :
  (length (filter isGenerativeCall
             (fst (selectResponse env message from language candidates)))
   <= 1)%nat.
Proof.
  unfold selectResponse. destruct candidates as [|best rest].
  - destruct (generateAIResponse env message language from); simpl; lia.
  - destruct (geb _ _); [simpl; lia|].
    destruct (generateAIResponse env message language from); simpl; lia.
Qed.

Lemma selectResponse_total env message from language candidates :
  exists selected,
    snd (selectResponse env message from language candidates) = Ok selected.
Proof.
  unfold selectResponse. destruct candidates as [|best rest].
  - apply tryCatch_total. now eexists.
  - destruct (geb _ _); [now eexists|]. apply tryCatch_total. now eexists.
Qed.

(** X12.  [generateResponse] always resolves.  Its first call is the client
    lookup; it calls the generative fallback at most once; and the text it
    resolves with has been stored as a bot message, the client's activity
    updated with it, as the last two calls of the run, unless the text is
    the error message, which is returned without being stored.  When the
    client lookup rejects, nothing else is called. *)
Theorem generateResponse_effects
  (env : Env) (message from senderName : jsstring) :
  exists log text,
    generateResponse env message from senderName = (log, Ok text) /\
    (exists rest, log = CallFindOrCreateClient from senderName :: rest) /\
    (length (filter isGenerativeCall log) <= 1)%nat /\
    ((exists before,
        log = before ++ [CallSaveMessage text true;
                         CallUpdateClientActivity text]) \/
     text = errorMessage) /\
    (findOrCreateClient env from senderName = Throw ->
     log = [CallFindOrCreateClient from senderName] /\ text = errorMessage).
Proof.
  pose proof (findRelevantQAPairs_no_generative env message 5) as N1.
  destruct (findRelevantQAPairs_total env message 5) as [candidates Hc].
  pose proof (selectResponse_one_generative env message from
                (detectLanguage env message) candidates) as N2.
  destruct (selectResponse_total env message from
              (detectLanguage env message) candidates) as [[text source] Hs].
  unfold generateResponse, bind, call, tryCatch, ret.
  destruct (findOrCreateClient env from senderName) as [client|].
  2:{ do 2 eexists. split; [reflexivity|]. split; [now eexists|].
      split; [simpl; lia|]. split; [now right|]. intros _. now split. }
  destruct (findRelevantQAPairs env message 5) as [log1 r1].
  cbn [fst snd] in N1, Hc. subst r1.
  destruct (selectResponse env message from (detectLanguage env message)
              candidates) as [log2 r2].
  cbn [fst snd] in N2, Hs. subst r2.
  destruct (saveMessage env message (clientId client) false).
  2:{ do 2 eexists. split; [reflexivity|]. split; [now eexists|].
      split; [simpl; lia|]. split; [now right|]. discriminate. }
  destruct (updateClientActivity env (clientId client) message).
  2:{ do 2 eexists. split; [reflexivity|]. split; [now eexists|].
      split; [simpl; lia|]. split; [now right|]. discriminate. }
  assert (C : forall tl, filter isGenerativeCall tl = [] ->
            (length (filter isGenerativeCall
                       ([CallFindOrCreateClient from senderName] ++
                        [CallSaveMessage message false] ++
                        [CallUpdateClientActivity message] ++
                        log1 ++ log2 ++ tl)) <= 1)%nat).
  { intros tl Htl. cbn [app filter isGenerativeCall].
    rewrite !filter_app, N1, Htl, app_nil_r. exact N2. }
  destruct (saveMessage env text (clientId client) true).
  2:{ do 2 eexists. split; [reflexivity|]. split; [now eexists|].
      split; [|split; [now right|discriminate]].
      rewrite !app_nil_r. apply (C [_; _]). reflexivity. }
  destruct (updateClientActivity env (clientId client) text).
  2:{ do 2 eexists. split; [reflexivity|]. split; [now eexists|].
      split; [|split; [now right|discriminate]].
      rewrite !app_nil_r. apply (C [_; _; _]). reflexivity. }
  do 2 eexists. split; [reflexivity|]. split; [now eexists|].
  split; [|split; [|discriminate]].
  - rewrite !app_nil_r. apply (C [_; _; _]). reflexivity.
  - left. rewrite !app_nil_r.
    exists ([CallFindOrCreateClient from senderName] ++
            [CallSaveMessage message false] ++
            [CallUpdateClientActivity message] ++
            log1 ++ log2 ++ [LogResponseSource source]).
    rewrite <- !app_assoc. reflexivity.
Qed.

(* ================================================================== *)
(** * Part XV.  Properties of message delivery                        *)
(* ================================================================== *)

(** Runs one step of a computation of the delivery layer. *)
Ltac io_run :=
  cbv beta iota zeta delta [attempt andThen perform pure settle throw].

Lemma nonEmpty_true s : nonEmpty s = true <-> s <> [].
Proof.
  destruct s; cbn; split; intros H; try discriminate; try reflexivity.
  now destruct H.
Qed.

Lemma callWhatsAppAPI_run (sv : Services)
  (phoneNumberId accessToken to text : jsstring) (trackReadReceipts : bool)
  (now : nat) :
  exists r,
    callWhatsAppAPI sv phoneNumberId accessToken to text trackReadReceipts now
    = ([Post (messagesUrl phoneNumberId) accessToken
          (mkMessagePayload to text trackReadReceipts)], r, S now) /\
    forall messageId, r = Resolved messageId -> messageId <> [].
Proof.
  unfold callWhatsAppAPI, messagesUrl, andThen, perform, settle, throw, pure.
  destruct (fetch sv now _ accessToken _) as [response|m].
  2:{ eexists. split; [reflexivity|]. intros; congruence. }
  destruct (ok response); cbn [negb].
  - destruct (json response) as [body|m].
    2:{ eexists. split; [reflexivity|]. intros; congruence. }
    destruct (negb (nonEmpty (orElse (firstMessageId body) []))) eqn:N.
    + eexists. split; [reflexivity|]. intros; congruence.
    + eexists. split; [reflexivity|]. intros messageId [= <-].
      apply nonEmpty_true. now destruct (nonEmpty _).
  - destruct (json response) as [body|m];
      (eexists; split; [reflexivity|]; intros; congruence).
Qed.

(** X13.  [callWhatsAppAPI] makes exactly one request.  It resolves only
    with a message id that is not empty and that is the id of the first
    message of the body of a response that was ok; it rejects every response
    that is not ok. *)
Theorem callWhatsAppAPI_message_id (sv : Services)
  (phoneNumberId accessToken to text : jsstring) (trackReadReceipts : bool)
  (now : nat) :
  let apiUrl :=
    str "https://graph.facebook.com/v17.0/" ++ phoneNumberId ++ str "/messages" in
  let payload := mkMessagePayload to text trackReadReceipts in
  let run := callWhatsAppAPI sv phoneNumberId accessToken to text
               trackReadReceipts now in
  traceOf run = [Post apiUrl accessToken payload] /\
  timeOf run = S now /\
  (forall messageId, outcomeOf run = Resolved messageId ->
     messageId <> [] /\
     exists response body,
       fetch sv now apiUrl accessToken payload = Resolved response /\
       ok response = true /\ json response = Resolved body /\
       firstMessageId body = Some messageId) /\
  (forall response,
     fetch sv now apiUrl accessToken payload = Resolved response ->
     ok response = false -> exists message, outcomeOf run = Rejected message).
Proof.
  intros apiUrl payload run. unfold run, callWhatsAppAPI.
  fold apiUrl. fold payload.
  unfold andThen, perform, settle, throw, pure, traceOf, outcomeOf, timeOf.
  destruct (fetch sv now apiUrl accessToken payload) as [response|m] eqn:F.
  2:{ cbn [fst snd]. repeat split; intros; congruence. }
  destruct (ok response) eqn:O; cbn [negb].
  - destruct (json response) as [body|m] eqn:J.
    2:{ cbn [fst snd app]. repeat split; intros; congruence. }
    destruct (firstMessageId body) as [i|] eqn:I; cbn [orElse].
    + destruct (nonEmpty i) eqn:N; [rewrite N|]; cbn [negb nonEmpty length Nat.eqb fst snd app].
      * split; [reflexivity|]. split; [reflexivity|]. split.
        -- intros messageId [= <-]. split; [now apply nonEmpty_true|].
           exists response, body. auto.
        -- intros r [= <-]. congruence.
      * repeat split; intros; congruence.
    + cbn [negb nonEmpty length Nat.eqb fst snd app].
      repeat split; intros; congruence.
  - destruct (json response) as [body|m] eqn:J; cbn [fst snd app];
      (split; [reflexivity|]; split; [reflexivity|]; split;
       [intros; congruence|intros; eexists; reflexivity]).
Qed.

(** The runs of [sendWhatsAppMessage]. *)
Lemma sendWhatsAppMessage_cases (sv : Services) (to text : jsstring)
  (internalMessageId : option jsstring) (trackReadReceipts isAutomated : bool)
  (responseSource : option jsstring) (now : nat) :
  let run := sendWhatsAppMessage sv to text internalMessageId
               trackReadReceipts isAutomated responseSource now in
  let payload := mkMessagePayload to text trackReadReceipts in
  (exists why,
     getWhatsAppConfig sv now = Rejected why /\
     run = ([ReadConfig],
            Resolved (notSent (str "Failed to send WhatsApp message: " ++ why)),
            S now)) \/
  (exists config why,
     getWhatsAppConfig sv now = Resolved config /\
     outcomeOf (callWhatsAppAPI sv (phoneNumberId config) (accessToken config)
                  to text trackReadReceipts (S now)) = Rejected why /\
     run = ([ReadConfig;
             Post (messagesUrl (phoneNumberId config)) (accessToken config) payload],
            Resolved (notSent (str "Failed to send WhatsApp message: " ++ why)),
            S (S now))) \/
  (exists config whatsappMessageId,
     getWhatsAppConfig sv now = Resolved config /\
     outcomeOf (callWhatsAppAPI sv (phoneNumberId config) (accessToken config)
                  to text trackReadReceipts (S now))
     = Resolved whatsappMessageId /\
     whatsappMessageId <> [] /\ truthy internalMessageId = false /\
     run = ([ReadConfig;
             Post (messagesUrl (phoneNumberId config)) (accessToken config) payload],
            Resolved (sent whatsappMessageId), S (S now))) \/
  (exists config whatsappMessageId recordId,
     getWhatsAppConfig sv now = Resolved config /\
     outcomeOf (callWhatsAppAPI sv (phoneNumberId config) (accessToken config)
                  to text trackReadReceipts (S now))
     = Resolved whatsappMessageId /\
     whatsappMessageId <> [] /\
     internalMessageId = Some recordId /\ recordId <> [] /\
     run = ([ReadConfig;
             Post (messagesUrl (phoneNumberId config)) (accessToken config) payload;
             UpdateMessage recordId
               (TrackingStarted whatsappMessageId isAutomated responseSource)],
            Resolved (sent whatsappMessageId), S (S (S now)))).
Proof.
  intros run payload. unfold run, sendWhatsAppMessage. io_run.
  destruct (getWhatsAppConfig sv now) as [config|why].
  2:{ left. exists why. split; reflexivity. }
  destruct (callWhatsAppAPI_run sv (phoneNumberId config) (accessToken config)
              to text trackReadReceipts (S now)) as (r & E & Hr).
  rewrite E. destruct r as [whatsappMessageId|why].
  2:{ right. left. exists config, why. rewrite E. repeat split. }
  specialize (Hr _ eq_refl). rewrite (proj2 (nonEmpty_true _) Hr), andb_true_r.
  destruct (truthy internalMessageId) eqn:T.
  - right. right. right.
    destruct internalMessageId as [recordId|]; [|discriminate].
    cbn [truthy] in T. cbn [orElse]. rewrite T.
    exists config, whatsappMessageId, recordId. rewrite E.
    split; [reflexivity|]. split; [reflexivity|]. split; [exact Hr|].
    split; [reflexivity|]. split; [now apply nonEmpty_true|].
    unfold trackSentMessage. io_run.
    destruct (messageUpdate sv (S (S now)) recordId _); reflexivity.
  - right. right. left. exists config, whatsappMessageId. rewrite E.
    repeat split; auto.
Qed.

(** X14.  [sendWhatsAppMessage] never rejects.  It reports success exactly
    when the configuration was read and [callWhatsAppAPI] resolved, whether
    or not the tracking update worked; a success carries a message id that is
    not empty and no error, a failure carries no id and an error that starts
    with the fixed prefix.  It makes at most one request, and it updates the
    message record exactly when the send succeeded and it was given an
    internal message id that is not empty. *)
Theorem sendWhatsAppMessage_result (sv : Services) (to text : jsstring)
  (internalMessageId : option jsstring) (trackReadReceipts isAutomated : bool)
  (responseSource : option jsstring) (now : nat) :
  exists result,
    outcomeOf (sendWhatsAppMessage sv to text internalMessageId
                 trackReadReceipts isAutomated responseSource now)
    = Resolved result /\
    (success result = true <->
     exists config whatsappMessageId,
       getWhatsAppConfig sv now = Resolved config /\
       outcomeOf (callWhatsAppAPI sv (phoneNumberId config) (accessToken config)
                    to text trackReadReceipts (S now))
       = Resolved whatsappMessageId) /\
    ((exists whatsappMessageId,
        whatsappMessageId <> [] /\ result = sent whatsappMessageId) \/
     (exists why,
        result = notSent (str "Failed to send WhatsApp message: " ++ why))) /\
    (length (filter isPost
               (traceOf (sendWhatsAppMessage sv to text internalMessageId
                           trackReadReceipts isAutomated responseSource now)))
     <= 1)%nat /\
    (existsb isUpdateMessage
       (traceOf (sendWhatsAppMessage sv to text internalMessageId
                   trackReadReceipts isAutomated responseSource now))
     = success result && truthy internalMessageId).
Proof.
  destruct (sendWhatsAppMessage_cases sv to text internalMessageId
              trackReadReceipts isAutomated responseSource now)
    as [(w & K & ->)|[(c & w & K & A & ->)|[(c & i & K & A & Hi & T & ->)
       |(c & i & rec & K & A & Hi & -> & Hrec & ->)]]];
    unfold outcomeOf, traceOf; cbn [fst snd];
    eexists; (split; [reflexivity|]).
  - split.
    + split; [discriminate|]. intros (c & i & K' & _). congruence.
    + split; [right; now eexists|]. split; [simpl; lia|reflexivity].
  - split.
    + split; [discriminate|]. intros (c' & i & K' & A').
      rewrite K in K'. injection K' as <-. unfold outcomeOf in *. congruence.
    + split; [right; now eexists|]. split; [simpl; lia|reflexivity].
  - split.
    + split; [|reflexivity]. intros _. now exists c, i.
    + split; [left; now exists i|]. rewrite T. split; [simpl; lia|reflexivity].
  - split.
    + split; [|reflexivity]. intros _. now exists c, i.
    + split; [left; now exists i|]. split; [simpl; lia|].
      cbn. symmetry. now apply nonEmpty_true.
Qed.

Lemma generateResponse_total (env : Env) (message from senderName : jsstring) :
  exists text, snd (generateResponse env message from senderName) = Ok text.
Proof.
  destruct (generateResponse_resolves env message from senderName)
    as (text & H & _). now exists text.
Qed.

Lemma filter_map_Routed (p : Action -> bool) (log : list Event) :
  (forall e, p (Routed e) = false) -> filter p (map Routed log) = [].
Proof.
  intros H. induction log as [|e log IH]; simpl; [reflexivity|].
  now rewrite H.
Qed.

Lemma In_map_Routed (log : list Event) apiUrl accessToken payload :
  ~ In (Post apiUrl accessToken payload) (map Routed log).
Proof. intros H. apply in_map_iff in H as (e & E & _). discriminate. Qed.

Lemma existsb_map_Routed (p : Action -> bool) (log : list Event) :
  (forall e, p (Routed e) = false) -> existsb p (map Routed log) = false.
Proof.
  intros H. induction log as [|e log IH]; simpl; [reflexivity|].
  now rewrite H.
Qed.

(** What a reply or an apology sent without an internal message id leaves in
    the trace: the configuration is read and at most one request is made,
    for the given recipient and text; the message record is not touched. *)
Lemma untracked_send (sv : Services) (to text : jsstring)
  (internalMessageId : option jsstring) (responseSource : option jsstring)
  (now : nat) :
  truthy internalMessageId = false ->
  exists trace result now',
    sendWhatsAppMessage sv to text internalMessageId true true responseSource now
    = (trace, Resolved result, now') /\
    existsb isUpdateMessage trace = false /\
    (length (filter isPost trace) <= 1)%nat /\
    (forall apiUrl accessToken payload,
       In (Post apiUrl accessToken payload) trace ->
       payload = mkMessagePayload to text true).
Proof.
  intros T.
  destruct (sendWhatsAppMessage_cases sv to text internalMessageId true true
              responseSource now)
    as [(w & K & ->)|[(c & w & K & A & ->)|[(c & i & K & A & Hi & _ & ->)
       |(c & i & rec & K & A & Hi & -> & Hrec & ->)]]].
  - do 3 eexists. split; [reflexivity|]. split; [reflexivity|].
    split; [simpl; lia|]. intros u a p [H|[]]. discriminate.
  - do 3 eexists. split; [reflexivity|]. split; [reflexivity|].
    split; [simpl; lia|]. intros u a p [H|[H|[]]]; congruence.
  - do 3 eexists. split; [reflexivity|]. split; [reflexivity|].
    split; [simpl; lia|]. intros u a p [H|[H|[]]]; congruence.
  - cbn in T. apply nonEmpty_true in Hrec. congruence.
Qed.

(** X15.  [processTextMessage] never rejects.  A message without text causes
    no call at all.  Otherwise at most one request is sent, to the sender of
    the message and with read receipts requested: its text is what
    [generateResponse] resolved with or, when the sender's name cannot be
    determined, the error message.  The record of the reply is never
    updated: the internal message id handed to [sendWhatsAppMessage] is the
    empty string (or [undefined] for the apology), so the reply is not
    tracked. *)
Theorem processTextMessage_effects
  (sv : Services) (env : Env) (message : WhatsAppMessage) (now : nat) :
  let run := processTextMessage sv env message now in
  outcomeOf run = Resolved tt /\
  (msgText message = None -> traceOf run = []) /\
  existsb isUpdateMessage (traceOf run) = false /\
  (length (filter isPost (traceOf run)) <= 1)%nat /\
  (forall apiUrl accessToken payload,
     In (Post apiUrl accessToken payload) (traceOf run) ->
     payloadTo payload = msgFrom message /\
     payloadStatusRead payload = true /\
     exists text,
       msgText message = Some text /\
       match getSenderName sv (msgFrom message) with
       | Resolved senderName =>
           snd (generateResponse env text (msgFrom message) senderName)
           = Ok (payloadBody payload)
       | Rejected _ => payloadBody payload = errorMessage
       end).
Proof.
  intros run. unfold run, processTextMessage, markAsRead, routed.
  unfold traceOf, outcomeOf. io_run.
  destruct (msgText message) as [text|].
  2:{ cbn [fst snd]. split; [reflexivity|]. split; [reflexivity|].
      split; [reflexivity|]. split; [simpl; lia|]. intros u a p []. }
  destruct (getSenderName sv (msgFrom message)) as [senderName|why].
  - destruct (generateResponse_total env text (msgFrom message) senderName)
      as [reply Hr].
    destruct (generateResponse env text (msgFrom message) senderName)
      as [log r] eqn:G. cbn [fst snd] in *. subst r.
    destruct (untracked_send sv (msgFrom message) reply (Some [])
                (Some (str "Intelligent System")) now eq_refl)
      as (trace & result & now' & -> & U & P & I).
    cbn [fst snd app]. split; [reflexivity|]. split; [discriminate|].
    rewrite !app_nil_r, existsb_app, filter_app.
    rewrite existsb_map_Routed, filter_map_Routed by reflexivity.
    split; [exact U|]. split; [exact P|].
    intros u a p H. apply in_app_iff in H as [H|H];
      [destruct (In_map_Routed _ _ _ _ H)|].
    apply I in H. subst p. cbn. split; [reflexivity|]. split; [reflexivity|].
    exists text. split; [reflexivity|]. now rewrite G.
  - destruct (untracked_send sv (msgFrom message) errorMessage None
                (Some (str "Error Fallback")) now eq_refl)
      as (trace & result & now' & E & U & P & I).
    change (str "Sorry, there was an error processing your message. Please try again later.")
      with errorMessage.
    rewrite E. cbn [fst snd app]. rewrite !app_nil_r.
    split; [reflexivity|]. split; [discriminate|].
    split; [exact U|]. split; [exact P|].
    intros u a p H. apply I in H. subst p. cbn. repeat split. now exists text.
Qed.

(** ** The retry loop of [sendMessage] *)

Lemma backoffsFollowSent_app t1 t2 :
  backoffsFollowSent t1 -> backoffsFollowSent t2 -> backoffsFollowSent (t1 ++ t2).
Proof. induction 1; intros K; simpl; auto using backoffsFollowSent. Qed.

Lemma backoffsFollowSent_quiet trace :
  Forall (fun a => isSleep a = false) trace -> backoffsFollowSent trace.
Proof. induction 1; auto using backoffsFollowSent. Qed.

Lemma totalSleep_app t1 t2 : totalSleep (t1 ++ t2) = (totalSleep t1 + totalSleep t2)%nat.
Proof. unfold totalSleep. now rewrite map_app, list_sum_app. Qed.

Lemma totalSleep_quiet trace :
  Forall (fun a => isSleep a = false) trace -> totalSleep trace = 0%nat.
Proof.
  unfold totalSleep. induction 1 as [|a t H _ IH]; [reflexivity|].
  simpl. rewrite IH. now destruct a.
Qed.

Lemma postsCarry_app to text t1 t2 :
  postsCarry to text t1 -> postsCarry to text t2 -> postsCarry to text (t1 ++ t2).
Proof.
  intros H1 H2 u a p H. apply in_app_iff in H as [H|H]; [exact (H1 _ _ _ H)|exact (H2 _ _ _ H)].
Qed.

Lemma postsCarry_quiet to text trace :
  Forall (fun a => isPost a = false) trace -> postsCarry to text trace.
Proof.
  intros F u a p H. rewrite Forall_forall in F. apply F in H. discriminate.
Qed.

(** What one call of [sendWhatsAppMessage] leaves in the trace. *)
Lemma sendWhatsAppMessage_trace (sv : Services) (to text : jsstring)
  (internalMessageId : option jsstring) (trackReadReceipts isAutomated : bool)
  (responseSource : option jsstring) (now : nat) :
  exists trace result now',
    sendWhatsAppMessage sv to text internalMessageId trackReadReceipts
      isAutomated responseSource now = (trace, Resolved result, now') /\
    Forall (fun a => isSleep a = false) trace /\
    (length (filter isPost trace) <= 1)%nat /\
    postsCarry to text trace /\
    ((exists whatsappMessageId,
        whatsappMessageId <> [] /\ result = sent whatsappMessageId) \/
     (exists why, result = notSent why /\ why <> [])).
Proof.
  assert (P : forall c, postsCarry to text
                [ReadConfig;
                 Post (messagesUrl (phoneNumberId c)) (accessToken c)
                   (mkMessagePayload to text trackReadReceipts)]).
  { intros c u a p [H|[H|[]]]; [discriminate|]. injection H as _ _ <-. now split. }
  destruct (sendWhatsAppMessage_cases sv to text internalMessageId
              trackReadReceipts isAutomated responseSource now)
    as [(w & K & ->)|[(c & w & K & A & ->)|[(c & i & K & A & Hi & _ & ->)
       |(c & i & rec & K & A & Hi & -> & Hrec & ->)]]];
    do 3 eexists; (split; [reflexivity|]);
    (split; [repeat constructor|]); (split; [simpl; lia|]).
  - split; [apply postsCarry_quiet; repeat constructor|].
    right. eexists. split; [reflexivity|discriminate].
  - split; [apply P|]. right. eexists. split; [reflexivity|discriminate].
  - split; [apply P|]. left. now exists i.
  - split; [|left; now exists i].
    apply (postsCarry_app _ _ [_; _] [_]); [apply P|].
    apply postsCarry_quiet. repeat constructor.
Qed.

(** What one turn of the loop leaves in the trace. *)
Lemma sendAttempt_trace (sv : Services) (to text recordId : jsstring)
  (trackReadReceipts isAutomated : bool) (responseSource : jsstring)
  (retryAttempts attemptNo now : nat) :
  exists trace turn now',
    sendAttempt sv to text recordId trackReadReceipts isAutomated
      responseSource retryAttempts attemptNo now = (trace, Resolved turn, now') /\
    backoffsFollowSent trace /\
    (length (filter isPost trace) <= 1)%nat /\
    postsCarry to text trace /\
    (totalSleep trace
     <= if attemptNo <? retryAttempts then 2 ^ attemptNo * 1000 else 0)%nat /\
    (forall result, turn = inl result ->
       exists before whatsappMessageId,
         whatsappMessageId <> [] /\ result = sent whatsappMessageId /\
         trace = before ++ [UpdateMessage recordId (MarkedSent whatsappMessageId)]).
Proof.
  destruct (sendWhatsAppMessage_trace sv to text (Some recordId)
              trackReadReceipts isAutomated (Some responseSource) now)
    as (tr & result & now' & E & Q & P & C & R).
  pose proof (backoffsFollowSent_quiet _ Q) as B.
  pose proof (totalSleep_quiet _ Q) as Z.
  unfold sendAttempt. io_run. rewrite E.
  destruct R as [(i & Hi & ->)|(why & -> & Hwhy)].
  - cbn [success messageId sent truthy andb orElse].
    rewrite (proj2 (nonEmpty_true _) Hi).
    destruct (messageUpdate sv now' recordId (MarkedSent i)).
    + do 3 eexists. split; [reflexivity|]. rewrite app_nil_r.
      split; [apply backoffsFollowSent_app; [exact B|repeat constructor]|].
      split; [rewrite filter_app; simpl; rewrite app_nil_r; exact P|].
      split; [apply postsCarry_app; [exact C|apply postsCarry_quiet;
                                              repeat constructor]|].
      split; [rewrite totalSleep_app, Z; unfold totalSleep; simpl; lia|].
      intros r [= <-]. now exists tr, i.
    + destruct (attemptNo <? retryAttempts)%nat.
      * do 3 eexists. split; [reflexivity|].
        rewrite ?app_nil_r, <- ?app_assoc. cbn [app].
        split; [apply backoffsFollowSent_app;
                [exact B|apply bfs_backoff; constructor]|].
        split; [rewrite filter_app; simpl; rewrite app_nil_r; exact P|].
        split; [apply postsCarry_app; [exact C|apply postsCarry_quiet;
                                                repeat constructor]|].
        split; [rewrite totalSleep_app, Z; unfold totalSleep; simpl; lia|].
        discriminate.
      * do 3 eexists. split; [reflexivity|]. rewrite !app_nil_r.
        split; [apply backoffsFollowSent_app; [exact B|repeat constructor]|].
        split; [rewrite filter_app; simpl; rewrite app_nil_r; exact P|].
        split; [apply postsCarry_app; [exact C|apply postsCarry_quiet;
                                                repeat constructor]|].
        split; [rewrite totalSleep_app, Z; unfold totalSleep; simpl; lia|]. discriminate.
  - cbn [success notSent andb].
    do 3 eexists. split; [reflexivity|]. rewrite app_nil_r.
    split; [exact B|]. split; [exact P|]. split; [exact C|].
    split; [rewrite Z; lia|]. discriminate.
Qed.

Lemma pow2_step a n : (a < n)%nat ->
  (2 ^ a * 1000 + (2 ^ n - 2 ^ S a) * 1000 = (2 ^ n - 2 ^ a) * 1000)%nat.
Proof.
  intros H. assert (2 ^ S a <= 2 ^ n)%nat by (apply Nat.pow_le_mono_r; lia).
  rewrite Nat.pow_succ_r' in *. lia.
Qed.

Lemma sendAttempts_trace (sv : Services) (to text recordId : jsstring)
  (trackReadReceipts isAutomated : bool) (responseSource : jsstring)
  (retryAttempts : nat) :
  forall remaining attemptNo lastError now,
    (attemptNo + remaining = S retryAttempts)%nat ->
    exists trace turns now',
      sendAttempts sv to text recordId trackReadReceipts isAutomated
        responseSource retryAttempts remaining attemptNo lastError now
      = (trace, Resolved turns, now') /\
      backoffsFollowSent trace /\
      (length (filter isPost trace) <= remaining)%nat /\
      postsCarry to text trace /\
      (totalSleep trace <= (2 ^ retryAttempts - 2 ^ attemptNo) * 1000)%nat /\
      (forall result, turns = inl result ->
         exists before whatsappMessageId,
           whatsappMessageId <> [] /\ result = sent whatsappMessageId /\
           trace = before ++ [UpdateMessage recordId (MarkedSent whatsappMessageId)]).
Proof.
  induction remaining as [|remaining IH]; intros attemptNo lastError now Hn.
  - do 3 eexists. split; [reflexivity|].
    split; [constructor|]. split; [simpl; lia|].
    split; [intros u a p []|].
    split; [change (totalSleep []) with 0%nat; lia|]. discriminate.
  - cbn [sendAttempts]. io_run.
    destruct (sendAttempt_trace sv to text recordId trackReadReceipts
                isAutomated responseSource retryAttempts attemptNo now)
      as (tr & turn & now1 & -> & B & P & C & Z & R).
    destruct turn as [result|lastError'].
    + do 3 eexists. split; [reflexivity|]. rewrite app_nil_r.
      split; [exact B|]. split; [lia|]. split; [exact C|]. split.
      * destruct (Nat.ltb_spec attemptNo retryAttempts) as [L|L]; [|lia].
        assert (2 ^ S attemptNo <= 2 ^ retryAttempts)%nat
          by (apply Nat.pow_le_mono_r; lia).
        rewrite Nat.pow_succ_r' in *. lia.
      * intros r [= <-]. exact (R _ eq_refl).
    + destruct (IH (S attemptNo) lastError' now1 ltac:(lia))
        as (tr2 & turns & now2 & -> & B2 & P2 & C2 & Z2 & R2).
      do 3 eexists. split; [reflexivity|].
      split; [now apply backoffsFollowSent_app|].
      split; [rewrite filter_app, length_app; lia|].
      split; [now apply postsCarry_app|]. split.
      * rewrite totalSleep_app.
        destruct (Nat.ltb_spec attemptNo retryAttempts) as [L|L].
        -- rewrite <- (pow2_step _ _ L). lia.
        -- assert (remaining = 0)%nat by lia. subst remaining.
           assert (E : (2 ^ retryAttempts - 2 ^ S attemptNo = 0)%nat).
           { apply Nat.sub_0_le, Nat.pow_le_mono_r; lia. }
           rewrite E in Z2. lia.
      * intros r Hr. destruct (R2 r Hr) as (before & i & Hi & -> & ->).
        exists (tr ++ before), i. split; [exact Hi|]. split; [reflexivity|].
        now rewrite app_assoc.
Qed.

(** The facts a trace of [sendMessage] keeps, for [n] attempts. *)
Lemma retry_facts_wrap (to text : jsstring) (n : nat) (pre post trace : list Action) :
  Forall (fun a => isSleep a = false /\ isPost a = false) pre ->
  Forall (fun a => isSleep a = false /\ isPost a = false) post ->
  (length (filter isPost trace) <= n)%nat ->
  postsCarry to text trace ->
  backoffsFollowSent trace ->
  (totalSleep trace <= (2 ^ n - 2 ^ 1) * 1000)%nat ->
  (length (filter isPost (pre ++ trace ++ post)) <= n)%nat /\
  postsCarry to text (pre ++ trace ++ post) /\
  backoffsFollowSent (pre ++ trace ++ post) /\
  (totalSleep (pre ++ trace ++ post) <= (2 ^ n - 2) * 1000)%nat.
Proof.
  intros Hpre Hpost P C B Z.
  assert (Q : forall l, Forall (fun a => isSleep a = false /\ isPost a = false) l ->
              Forall (fun a => isSleep a = false) l /\
              Forall (fun a => isPost a = false) l /\
              filter isPost l = []).
  { intros l H. split; [|split].
    - eapply Forall_impl; [|exact H]. now intros a [? ?].
    - eapply Forall_impl; [|exact H]. now intros a [? ?].
    - induction H as [|a l [_ Ha] _ IH]; simpl; [reflexivity|]. now rewrite Ha. }
  destruct (Q _ Hpre) as (S1 & P1 & F1). destruct (Q _ Hpost) as (S2 & P2 & F2).
  split; [rewrite !filter_app, F1, F2, app_nil_r; exact P|].
  split; [repeat apply postsCarry_app; try exact C; now apply postsCarry_quiet|].
  split; [repeat apply backoffsFollowSent_app; try exact B;
          now apply backoffsFollowSent_quiet|].
  rewrite !totalSleep_app, (totalSleep_quiet _ S1), (totalSleep_quiet _ S2).
  change (2 ^ 1)%nat with 2%nat in Z. lia.
Qed.

Ltac quiet_actions := repeat constructor.

Ltac wrap_facts W trace :=
  match goal with
  | |- context [filter isPost (?a :: ?b :: ?c :: trace ++ ?post)] =>
      apply (W [a; b; c] post trace)
  | |- context [filter isPost (?a :: ?b :: trace ++ ?post)] =>
      apply (W [a; b] post trace)
  | |- context [filter isPost (?a :: ?b :: ?c :: trace)] =>
      apply (W [a; b; c] [] trace)
  | |- context [filter isPost (?a :: ?b :: trace)] =>
      apply (W [a; b] [] trace)
  end.

Ltac ends_with before recordId i :=
  match goal with
  | |- exists _ _ _, _ /\ _ /\ ?a :: ?b :: ?c :: before ++ _ = _ =>
      exists (a :: b :: c :: before), recordId, i
  | |- exists _ _ _, _ /\ _ /\ ?a :: ?b :: before ++ _ = _ =>
      exists (a :: b :: before), recordId, i
  end.

Ltac wrap_quiet W :=
  match goal with
  | |- context [filter isPost ?t] => apply (W t [] [])
  end.

(** X16.  [sendMessage] never rejects.  It makes at most [retryAttempts]
    requests (3 by default), all with the recipient and the text of the
    options.  It waits only directly after an update that marks the message
    as sent, that is, when a request had been accepted and the update of its
    record was rejected; a request the API turns down is followed by the
    next attempt without delay.  The waits add up to at most
    [(2 ^ retryAttempts - 2)] seconds.  A success carries the id of an
    accepted request, and the run then ends with the update that marks the
    record as sent. *)
Theorem sendMessage_retries (sv : Services) (options : WhatsAppMessageOptions)
  (now : nat) :
  let retryAttempts := fromOption (optRetryAttempts options) 3%nat in
  let run := sendMessage sv options now in
  exists result,
    outcomeOf run = Resolved result /\
    ((length (filter isPost (traceOf run)) <= retryAttempts)%nat /\
     postsCarry (optTo options) (optText options) (traceOf run) /\
     backoffsFollowSent (traceOf run) /\
     (totalSleep (traceOf run) <= (2 ^ retryAttempts - 2) * 1000)%nat) /\
    (success result = true ->
     exists before recordId whatsappMessageId,
       whatsappMessageId <> [] /\ result = sent whatsappMessageId /\
       traceOf run
       = before ++ [UpdateMessage recordId (MarkedSent whatsappMessageId)]).
Proof.
  intros retryAttempts run. unfold run, sendMessage, getOrCreateClientId.
  fold retryAttempts. unfold traceOf, outcomeOf. io_run.
  set (to := optTo options). set (text := optText options).
  assert (Z0 : (totalSleep [] <= (2 ^ retryAttempts - 2 ^ 1) * 1000)%nat)
    by (change (totalSleep []) with 0%nat; lia).
  assert (C0 : postsCarry to text []) by (intros u a p []).
  pose proof (retry_facts_wrap to text retryAttempts) as W.
  destruct (clientFindUnique sv now to) as [[clientId|]|why];
    [|destruct (clientCreate sv (S now) to (str "Client " ++ to))
        as [clientId|why]|].
  3,4: eexists; cbn [fst snd app]; rewrite ?app_nil_r;
       (split; [reflexivity|]);
       (split; [|discriminate]);
       wrap_quiet W;
       [quiet_actions|constructor|simpl; lia|exact C0|constructor|exact Z0].
  all: match goal with |- context [messageCreate _ ?n ?d] =>
         destruct (messageCreate sv n d) as [recordId|why] eqn:MC
       end.
  2,4: eexists; cbn [fst snd app]; rewrite ?app_nil_r;
       (split; [reflexivity|]);
       (split; [|discriminate]);
       wrap_quiet W;
       [quiet_actions|constructor|simpl; lia|exact C0|constructor|exact Z0].
  all: match goal with |- context [sendAttempts _ _ _ ?rid ?tr ?au ?rs _ _ 1 [] ?n] =>
         destruct (sendAttempts_trace sv to text rid tr au rs retryAttempts
                     retryAttempts 1 [] n ltac:(lia))
           as (trace & turns & now2 & -> & B & P & C & Z & R)
       end.
  all: destruct turns as [result|lastError].
  1,3: eexists; cbn [fst snd app];
       (split; [reflexivity|]); split;
       [ wrap_facts W trace; [quiet_actions|constructor| | | |]; assumption
       | intros _; destruct (R result eq_refl) as (before & i & Hi & -> & ->);
         rewrite app_nil_r; ends_with before recordId i;
         split; [exact Hi|]; split; reflexivity ].
  all: match goal with |- context [messageUpdate _ ?n ?rid ?d] =>
         destruct (messageUpdate sv n rid d)
       end.
  all: eexists; cbn [fst snd app];
       (split; [reflexivity|]);
       (split; [|discriminate]);
       rewrite ?app_nil_r;
       wrap_facts W trace; [quiet_actions|quiet_actions| | | |]; assumption.
Qed.

(* ================================================================== *)
(** * Part XVI.  Properties of the property search                    *)
(* ================================================================== *)

(** ** Substrings *)

Lemma isPrefix_spec p : forall s, isPrefix p s = true <-> exists b, s = p ++ b.
Proof.
  induction p as [|c p IH]; intros s; simpl.
  - split; [intros _; now exists s|reflexivity].
  - destruct s as [|d s]; [split; [discriminate|intros [b H]; discriminate]|].
    rewrite andb_true_iff, N.eqb_eq, IH. split.
    + intros [-> [b ->]]. now exists b.
    + intros [b [= -> ->]]. split; [reflexivity|now exists b].
Qed.

Lemma includes_spec p : forall s,
  includes s p = true <-> exists a b, s = a ++ p ++ b.
Proof.
  induction s as [|d s IH]; cbn [includes]; rewrite orb_true_iff, isPrefix_spec.
  - split.
    + intros [[b H]|H]; [|discriminate]. now exists [], b.
    + intros (a & b & H). left. destruct a; [now exists b|discriminate].
  - rewrite IH. split.
    + intros [[b H]|(a & b & H)]; [now exists [], b|].
      exists (d :: a), b. simpl. now rewrite H.
    + intros (a & b & H). destruct a as [|e a].
      * left. now exists b.
      * right. injection H as _ ->. now exists a, b.
Qed.

(** A string that includes [p] includes what [p] includes. *)
Lemma includes_trans s p q :
  includes s p = true -> includes p q = true -> includes s q = true.
Proof.
  rewrite !includes_spec. intros (a & b & ->) (a' & b' & ->).
  exists (a ++ a'), (b' ++ b). now rewrite <- !app_assoc.
Qed.

(** ** Reading the criteria *)

(** X17.  [extractFurnishedStatus] never answers [false]: the words it would
    take for "not furnished" contain the words it takes for "furnished", and
    those are looked for first.  It answers [true] exactly when the message
    includes "furnished" or its Arabic counterpart, and nothing otherwise. *)
Theorem extractFurnishedStatus_never_false (message : jsstring) :
  extractFurnishedStatus message <> Some false /\
  (extractFurnishedStatus message = Some true <->
   includes message mafrush = true \/ includes message (str "furnished") = true) /\
  (includes message (str "unfurnished") = true ->
   extractFurnishedStatus message = Some true) /\
  (includes message ghayrMafrush = true ->
   extractFurnishedStatus message = Some true).
Proof.
  assert (U : includes message (str "unfurnished") = true ->
              includes message (str "furnished") = true).
  { intros H. apply (includes_trans _ _ _ H). reflexivity. }
  assert (G : includes message ghayrMafrush = true ->
              includes message mafrush = true).
  { intros H. apply (includes_trans _ _ _ H). reflexivity. }
  unfold extractFurnishedStatus.
  destruct (includes message mafrush) eqn:E1;
    destruct (includes message (str "furnished")) eqn:E2; cbn [orb];
    try (repeat split; intros; try discriminate; auto; fail).
  destruct (includes message ghayrMafrush) eqn:E3;
    [specialize (G eq_refl); discriminate|].
  destruct (includes message (str "unfurnished")) eqn:E4;
    [specialize (U eq_refl); discriminate|].
  cbn [orb]. repeat split; intros; try discriminate.
  destruct H; discriminate.
Qed.

(** X18.  The features [extractFeatures] reads are among the four the code
    knows, each at most once.  The parking feature is read exactly when the
    message mentions parking, and then [extractParkingRequirement] holds as
    well. *)
Theorem extractFeatures_parking (message : jsstring) :
  NoDup (extractFeatures message) /\
  incl (extractFeatures message) [masbah; hadiqa; mawaqifSayyarat; misad] /\
  (In mawaqifSayyarat (extractFeatures message) <->
   includes message mawaqif = true \/ includes message (str "parking") = true) /\
  (In mawaqifSayyarat (extractFeatures message) ->
   extractParkingRequirement message = true).
Proof.
  unfold extractFeatures, extractParkingRequirement.
  destruct (includes message masbah || includes message (str "pool"));
    destruct (includes message hadiqa || includes message (str "garden"));
    destruct (includes message misad || includes message (str "elevator"));
    destruct (includes message mawaqif) eqn:P1;
    destruct (includes message (str "parking")) eqn:P2;
    cbn [orb app];
    (split; [repeat constructor; cbn [In]; intuition discriminate|]);
    (split; [intros x Hx; cbn [In] in *; intuition auto|]);
    (split; [cbn [In]; split; [intros H; try (intuition discriminate); auto
                              |intros [H|H]; try discriminate; auto]
            |cbn [In]; intros H; try reflexivity; intuition discriminate]).
Qed.

(** X19.  [extractPropertyType] answers nothing exactly when the message
    includes none of the keywords, and otherwise one of six types.  A
    message that includes a keyword for an apartment, a town house, a
    studio, a duplex or a penthouse is given the type VILLA only when it
    includes one of the words for a villa: the words "house" and "home",
    which "town house" and "penthouse" contain, are looked for last. *)
Theorem extractPropertyType_precedence (message : jsstring) :
  (extractPropertyType message = None <->
   forall entry keyword,
     In entry propertyTypes -> In keyword (fst entry) ->
     includes message keyword = false) /\
  (forall t, extractPropertyType message = Some t ->
     In t [str "VILLA"; str "APARTMENT"; str "TOWNHOUSE"; str "STUDIO";
           str "DUPLEX"; str "PENTHOUSE"]) /\
  (forall entry keyword,
     In entry propertyTypes -> snd entry <> str "VILLA" ->
     In keyword (fst entry) -> includes message keyword = true ->
     extractPropertyType message = Some (str "VILLA") ->
     existsb (fun keyword => includes message keyword)
             [fila; filah; str "villa"; filal] = true).
Proof.
  unfold extractPropertyType. split; [|split].
  - destruct (find _ propertyTypes) as [entry|] eqn:F.
    + split; [discriminate|]. intros H. exfalso.
      apply find_some in F as [Hin Hex]. apply existsb_exists in Hex as (k & Hk & Hi).
      rewrite (H entry k Hin Hk) in Hi. discriminate.
    + split; [|reflexivity]. intros _ entry keyword Hin Hk.
      pose proof (find_none _ _ F entry Hin) as N. cbv beta in N.
      destruct (includes message keyword) eqn:E; [|reflexivity].
      assert (X : existsb (fun keyword => includes message keyword) (fst entry)
                  = true) by (apply existsb_exists; now exists keyword).
      congruence.
  - intros t. destruct (find _ propertyTypes) as [entry|] eqn:F; [|discriminate].
    intros [= <-]. apply find_some in F as [Hin _].
    unfold propertyTypes in Hin. cbn [In] in Hin.
    repeat (destruct Hin as [<-|Hin]; [cbn [snd In]; auto 10|]). destruct Hin.
  - intros entry keyword Hin Hv Hk Hi.
    assert (X : existsb (fun keyword => includes message keyword) (fst entry)
                = true) by (apply existsb_exists; now exists keyword).
    unfold propertyTypes in *. cbn [find fst snd] in *.
    destruct (existsb _ [fila; filah; str "villa"; filal]); [reflexivity|].
    cbn [In] in Hin.
    destruct Hin as [<-|[<-|[<-|[<-|[<-|[<-|[<-|[]]]]]]]]; cbn [fst snd] in *;
      try congruence;
      repeat match goal with
      | |- context [if existsb ?f ?l then _ else _] =>
          destruct (existsb f l) eqn:?; try discriminate
      end; try congruence.
Qed.

(** ** Quantities *)






(** ** Scoring *)

Lemma notAfter_byMatchScore a b :
  notAfter byMatchScore a b <-> (matchScore b <= matchScore a)%nat.
Proof.
  unfold notAfter, byMatchScore, ofZ. rewrite gtb_false. split.
  - intros H. apply le_IZR in H. lia.
  - intros H. apply IZR_le. lia.
Qed.

Lemma scoreProperties_sorted properties criteria :
  StronglySorted (fun a b => (matchScore b <= matchScore a)%nat)
    (scoreProperties properties criteria).
Proof.
  apply StronglySorted_impl with (R := notAfter byMatchScore) (P := fun _ => True).
  - intros x y _ _. apply notAfter_byMatchScore.
  - apply Forall_forall. auto.
  - apply sort_sorted with (dom := fun _ => True).
    + intros x y _ _ G. apply notAfter_byMatchScore.
      unfold byMatchScore, ofZ in G. apply gtb_true in G. apply lt_IZR in G. lia.
    + intros x y z _ _ _ H K. apply notAfter_byMatchScore in H, K.
      apply notAfter_byMatchScore. lia.
    + apply Forall_forall. auto.
Qed.

Lemma scoreProperty_facts criteria p :
  property (scoreProperty criteria p) = p /\
  (matchScore (scoreProperty criteria p)
   <= 113 + 5 * length (fromOption (criteriaFeatures criteria) []))%nat /\
  (matchScore (scoreProperty criteria p) = 0%nat <->
   matchReasons (scoreProperty criteria p) = []).
Proof.
  unfold scoreProperty.
  assert (L : forall t, (length (getMatchedFeatures p t) <= length t)%nat)
    by (intros t; apply filter_length_le).
  destruct (criteriaCity criteria) as [c|];
    [destruct (nonEmpty c && cityMatches p c)|];
    (destruct (criteriaBedrooms criteria) as [w|]; destruct (bedrooms p) as [f|];
     [destruct (negb (w =? 0)%Z && (f =? w)%Z)| | |]);
    (destruct (criteriaArea criteria) as [t|];
     [destruct ((if Req_dec_T t 0 then false else true)
                && areaMatches (area p) t)|]);
    (destruct (criteriaPropertyType criteria) as [w'|];
     [destruct (nonEmpty w' && strEq (propertyType p) w')|]);
    (destruct (criteriaFeatures criteria) as [tf|];
     [specialize (L tf);
      destruct (length (getMatchedFeatures p tf)) as [|k] eqn:K|]);
    (destruct (criteriaPriceRange criteria) as [r|];
     [destruct (priceInRange (price p) r)|]);
    destruct (isFeatured p);
    cbn [property matchScore matchReasons fromOption length Nat.ltb Nat.leb app];
    (split; [reflexivity|]); (split; [lia|]);
    (split; [intros H; first [reflexivity|exfalso; lia]
            |intros H; first [reflexivity|discriminate H]]).
Qed.

(** X21.  [scoreProperties] scores every property it is given and loses
    none; the result is in descending order of score.  A score is at most
    113 plus 5 for each feature asked for, and it is 0 exactly when there is
    no reason for a match. *)
Theorem scoreProperties_ranked
  (properties : list Property) (criteria : SearchCriteria) :
  Permutation (map property (scoreProperties properties criteria)) properties /\
  StronglySorted (fun a b => (matchScore b <= matchScore a)%nat)
    (scoreProperties properties criteria) /\
  Forall (fun scored =>
            scored = scoreProperty criteria (property scored) /\
            (matchScore scored
             <= 113 + 5 * length (fromOption (criteriaFeatures criteria) []))%nat /\
            (matchScore scored = 0%nat <-> matchReasons scored = []))
         (scoreProperties properties criteria).
Proof.
  split; [|split].
  - unfold scoreProperties. rewrite (sort_perm _ byMatchScore), map_map.
    rewrite (map_ext _ (fun p => p)), map_id; [reflexivity|].
    intros p. apply scoreProperty_facts.
  - apply scoreProperties_sorted.
  - apply Forall_forall. intros scored H. unfold scoreProperties in H.
    apply sort_In, in_map_iff in H as (p & <- & _).
    destruct (scoreProperty_facts criteria p) as (E & B & Z).
    rewrite E. auto.
Qed.

(** ** [searchProperties] *)



End Core.

(* ================================================================== *)
(** * Part XVII.  The claims at concrete inputs                       *)
(* ================================================================== *)

Local Open Scope R_scope.

(** ** Evaluating the model

    The integer parts of a score (lengths, counts, distances) are computed;
    what is left is a formula over the reals, whose comparisons are
    decided by [lra]. *)

Ltac js_eval t :=
  let v := eval cbv -[Rplus Rmult Rminus Rdiv Rinv Ropp INR IZR sqrt Rmin Zfloor
                      Req_dec_T Rlt_dec Rle_dec] in t in
  change t with v.

Ltac js_sqrt v :=
  repeat match goal with
  | |- context [sqrt ?x] => progress (replace x with v by (simpl; lra))
  end.

Ltac js_absurd := try (exfalso; lra); try (exfalso; simpl in *; lra).

Ltac js_plain t :=
  lazymatch t with
  | context [Req_dec_T _ _] => fail
  | context [Rlt_dec _ _] => fail
  | context [Rle_dec _ _] => fail
  | _ => idtac
  end.

Ltac js_decide :=
  match goal with
  | |- context [Req_dec_T ?a ?b] =>
      js_plain a; js_plain b; destruct (Req_dec_T a b); js_absurd
  | |- context [Rlt_dec ?a ?b] =>
      js_plain a; js_plain b; destruct (Rlt_dec a b); js_absurd
  | |- context [Rle_dec ?a ?b] =>
      js_plain a; js_plain b; destruct (Rle_dec a b); js_absurd
  end.

Ltac js_run :=
  repeat first
    [ progress (rewrite sqrt_1)
    | match goal with
      | |- context [sqrt ?x * sqrt ?x] => rewrite (sqrt_sqrt x) by lra
      end
    | progress (cbv beta iota)
    | js_decide ].

Lemma round_bounds (lo hi : Z) (a : R) :
  IZR lo <= a <= IZR hi ->
  IZR lo / 100 <= IZR (Zfloor (a + / 2)) / 100 <= IZR hi / 100.
Proof. intros H. apply Math_round_between in H. lra. Qed.

(** Stricter variants for scores that are computed to the digit: a
    comparison is decided only when one of its branches is refuted. *)
Ltac js_sqrt_to v :=
  repeat match goal with
  | |- context [sqrt ?x] =>
      lazymatch x with v => fail | _ => idtac end;
      replace x with v by (simpl; lra)
  end.

Ltac js_lra := solve [lra | simpl in *; lra].

Ltac js_pick d :=
  first [ destruct d; [exfalso; js_lra|] | destruct d; [|exfalso; js_lra] ].

Ltac js_branch :=
  match goal with
  | |- context [Req_dec_T ?a ?b] =>
      js_plain a; js_plain b; js_pick (Req_dec_T a b)
  | |- context [Rlt_dec ?a ?b] =>
      js_plain a; js_plain b; js_pick (Rlt_dec a b)
  | |- context [Rle_dec ?a ?b] =>
      js_plain a; js_plain b; js_pick (Rle_dec a b)
  end.

(** A product of two different roots, of which a score needs the sign
    only: the numerator over it is zero. *)
Ltac js_root :=
  match goal with
  | |- context [sqrt ?a * sqrt ?b] =>
      let p := fresh "root" in
      let H := fresh "Hroot" in
      assert (H : 0 < sqrt a * sqrt b)
        by (apply Rmult_lt_0_compat; apply sqrt_lt_R0; lra);
      set (p := sqrt a * sqrt b) in *; clearbody p
  end.

Ltac js_go tac :=
  repeat first
    [ progress tac
    | match goal with
      | |- context [sqrt ?x * sqrt ?x] => rewrite (sqrt_sqrt x) by lra
      end
    | js_root
    | progress (cbv beta iota)
    | js_branch ].

(** [Math.round] at a known value. *)
Ltac js_round k :=
  repeat match goal with
  | |- context [Zfloor ?x] =>
      replace (Zfloor x) with k by (symmetry; apply Zfloor_eq; simpl; lra)
  end.

(** A contextual score whose two roundings give [answer] and [question]
    hundredths, with roots of [m] and [n]. *)
Ltac js_score m n q answerRounds questionRounds :=
  match goal with |- ?t = _ => js_eval t end;
  js_sqrt_to m; js_sqrt_to n; js_sqrt_to q; js_go idtac;
  js_round answerRounds; js_round questionRounds;
  unfold Rmin; js_go idtac; f_equal; js_lra.

(** ** The scores of this part in double precision

    The scores that the statements of this part evaluate with exact
    arithmetic are the same numbers in double precision. *)
Lemma scores_in_binary64 :
  Binary64.calculateContextualSimilarity lowerCase (str "abc") (str "abd") []
    [str "abc"; str "ab"] = 23.33%float /\
  Binary64.calculateContextualSimilarity lowerCase (str "abc def")
    (str "def abc") (str "abc def") [str "abc"; str "def"; str "ab"]
    = 100%float /\
  PrimFloat.is_nan
    (Binary64.calculateSimilarity lowerCase (str "constructor") (str "builder"))
    = true /\
  Binary64.calculateSimilarity lowerCase (str "  Hello World ")
    (str "hello world") = 100%float /\
  Binary64.calculateSimilarity lowerCase (str "   ") (str "hello") = 0%float /\
  Binary64.keywordSimilarity lowerCase kelvin3 marhaba = 0%float /\
  Binary64.keywordSimilarity lowerCase marhaba kayfaUjadwil = 100%float.
Proof. vm_compute. repeat split. Qed.

(** The score of "abd" for the message "abc", two of whose tags occur in the
    message, lies between the floor 20 and the threshold 90. *)
Lemma score_abc_abd :
  exists r,
    calculateContextualSimilarity lowerCase (str "abc") (str "abd") []
      [str "abc"; str "ab"] = Fin r /\ 20 < r < 90.
Proof.
  js_eval (calculateContextualSimilarity lowerCase (str "abc") (str "abd") []
             [str "abc"; str "ab"]).
  js_sqrt 1. js_run.
  eexists; split; [reflexivity|].
  simpl INR.
  match goal with |- context [IZR (Zfloor (?x + _))] =>
    assert (H := round_bounds 1300 1400 x ltac:(lra)) end.
  unfold Rmin. js_run. all: lra.
Qed.

(** The score of "def abc" for the message "abc def" reaches the cap. *)
Lemma score_reordered :
  calculateContextualSimilarity lowerCase (str "abc def") (str "def abc")
    (str "abc def") [str "abc"; str "def"; str "ab"] = Fin 100.
Proof.
  js_eval (calculateContextualSimilarity lowerCase (str "abc def")
             (str "def abc") (str "abc def") [str "abc"; str "def"; str "ab"]).
  js_sqrt 2. js_run.
  f_equal. simpl INR.
  match goal with |- context [IZR (Zfloor (?x + _))] =>
    assert (H := round_bounds 8000 10000 x ltac:(lra)) end.
  unfold Rmin. js_run. all: lra.
Qed.

Lemma candidates_reordered :
  findRelevantQAPairs lowerCase envReordered (str "abc def") 5 =
  ([CallFindExactMatch (str "abc def"); CallFindMany],
   Ok [withSimilarity qaReordered (Fin 100)]).
Proof.
  rewrite findRelevantQAPairs_scoring;
    [|reflexivity|reflexivity|intros qa [<-|[]]; reflexivity].
  change (sort byPriorityThenCreation (filter isActive (qaPairs envReordered)))
    with [qaReordered].
  cbn [map]. unfold scoreQAPair.
  change (question qaReordered) with (str "def abc").
  change (answer qaReordered) with (str "abc def").
  change (tags qaReordered) with [str "abc"; str "def"; str "ab"].
  rewrite score_reordered. cbn [filter similarity].
  rewrite (proj2 (gtb_true 100 20)) by lra. reflexivity.
Qed.

Lemma candidates_emptyAnswer :
  exists r,
    findRelevantQAPairs lowerCase envEmptyAnswer (str "abc") 5 =
    ([CallFindExactMatch (str "abc"); CallFindMany],
     Ok [withSimilarity qaEmptyAnswer (Fin r)]) /\ 20 < r < 90.
Proof.
  destruct score_abc_abd as (r & Hr & Hb). exists r. split; [|exact Hb].
  rewrite findRelevantQAPairs_scoring;
    [|reflexivity|reflexivity|intros qa [<-|[]]; reflexivity].
  change (sort byPriorityThenCreation (filter isActive (qaPairs envEmptyAnswer)))
    with [qaEmptyAnswer].
  cbn [map]. unfold scoreQAPair.
  change (question qaEmptyAnswer) with (str "abd").
  change (answer qaEmptyAnswer) with (@nil N).
  change (tags qaEmptyAnswer) with [str "abc"; str "ab"].
  rewrite Hr. cbn [filter similarity].
  rewrite (proj2 (gtb_true r 20)) by lra. reflexivity.
Qed.

(** ** C1 *)

(** C1, the claim as stated fails: the source recorded for an exact match
    is the source recorded for a scored match that reaches 100; it is not a
    tag of its own.  The first run matches the question of [qaSchedule]
    exactly (up to case and surrounding blanks); in the second no entry is an
    exact match and the single entry is scored. *)
Lemma exact_match_source_not_distinct :
  (findRelevantQAPairs lowerCase envSeed
     (str "  how do I schedule an APPOINTMENT? ") 5 =
   ([CallFindExactMatch (str "  how do I schedule an APPOINTMENT? ")],
    Ok [withSimilarity qaSchedule (Fin 100)]) /\
   selectResponse envSeed (str "  how do I schedule an APPOINTMENT? ")
     (str "+15550100") (str "en") [withSimilarity qaSchedule (Fin 100)] =
   ([], Ok (answer qaSchedule, QADatabase (Fin 100)))) /\
  ((forall qa, In qa (qaPairs envReordered) ->
               isExactMatch lowerCase (str "abc def") qa = false) /\
   findRelevantQAPairs lowerCase envReordered (str "abc def") 5 =
   ([CallFindExactMatch (str "abc def"); CallFindMany],
    Ok [withSimilarity qaReordered (Fin 100)]) /\
   selectResponse envReordered (str "abc def") (str "+15550100") (str "en")
     [withSimilarity qaReordered (Fin 100)] =
   ([], Ok (answer qaReordered, QADatabase (Fin 100)))).
Proof.
  assert (G : geb (Fin 100) (Fin 90) = true) by (apply geb_true; lra).
  split; [split|split; [|split]].
  - reflexivity.
  - unfold selectResponse. cbn [similarity entry]. rewrite G. reflexivity.
  - intros qa [<-|[]]. reflexivity.
  - apply candidates_reordered.
  - unfold selectResponse. cbn [similarity entry]. rewrite G. reflexivity.
Qed.

Lemma exact_match_short_circuit_witness :
  exists best rest,
    findRelevantQAPairs lowerCase envSeed
      (str "  how do I schedule an APPOINTMENT? ") 5 =
      ([CallFindExactMatch (str "  how do I schedule an APPOINTMENT? ")],
       Ok (map (fun qa => withSimilarity qa (Fin 100)) (best :: rest))) /\
    (forall qa, In qa (best :: rest) <->
                In qa (qaPairs envSeed) /\ isActive qa = true /\
                normalize lowerCase (question qa) =
                normalize lowerCase (str "  how do I schedule an APPOINTMENT? ")) /\
    Forall (fun qa => (priority qa <= priority best)%Z) rest /\
    selectResponse envSeed (str "  how do I schedule an APPOINTMENT? ")
      (str "+15550100") (str "en")
      (map (fun qa => withSimilarity qa (Fin 100)) (best :: rest)) =
      ([], Ok (answer best, QADatabase (Fin 100))).
Proof.
  apply (exact_match_short_circuit lowerCase envSeed
           (str "  how do I schedule an APPOINTMENT? ") (str "+15550100")
           (str "en") 5).
  - reflexivity.
  - exists qaSchedule. repeat split. simpl. auto.
Defined.

(** ** C2 *)

Lemma selectResponse_threshold_witness :
  selectResponse envAnswering (str "When can I come?") (str "+15550100")
    (str "en") [withSimilarity qaSchedule (Fin 90)] =
  ([], Ok (answer qaSchedule, QADatabase (Fin 90))) /\
  (exists text,
     selectResponse envAnswering (str "When can I come?") (str "+15550100")
       (str "en") [withSimilarity qaSchedule (Fin 89.99)] =
     ([CallGenerateAIResponse (str "When can I come?") (str "en")
         (str "+15550100")],
      Ok (text, AIAgent (Fin 0.8))) /\
     text = response generatedReply ++ relatedTopic ++ question qaSchedule) /\
  (exists text,
     selectResponse envAnswering (str "When can I come?") (str "+15550100")
       (str "en") [withSimilarity qaSchedule (Fin 40)] =
     ([CallGenerateAIResponse (str "When can I come?") (str "en")
         (str "+15550100")],
      Ok (text, AIAgent (Fin 0.8))) /\
     text = response generatedReply).
Proof.
  split; [|split].
  - apply (proj1 (selectResponse_threshold envAnswering (str "When can I come?")
                    (str "+15550100") (str "en")
                    (withSimilarity qaSchedule (Fin 90)) [] 90 eq_refl)).
    lra.
  - destruct (proj2 (selectResponse_threshold envAnswering
                       (str "When can I come?") (str "+15550100") (str "en")
                       (withSimilarity qaSchedule (Fin 89.99)) [] 89.99 eq_refl)
                ltac:(lra) generatedReply eq_refl)
      as (text & Hsel & Hhint & _).
    exists text. split; [exact Hsel|]. apply Hhint. lra.
  - destruct (proj2 (selectResponse_threshold envAnswering
                       (str "When can I come?") (str "+15550100") (str "en")
                       (withSimilarity qaSchedule (Fin 40)) [] 40 eq_refl)
                ltac:(lra) generatedReply eq_refl)
      as (text & Hsel & _ & Hplain & _).
    exists text. split; [exact Hsel|]. apply Hplain. lra.
Defined.

(** ** C3 *)

(** C3, the claim as stated fails: the entry matched by the message "abc"
    scores between 20 and 90, the generative fallback is called and rejects,
    and the response is the entry's stored answer, which is empty. *)
Lemma empty_answer_gives_empty_response :
  generateAIResponse envEmptyAnswer (str "abc") (str "en") (str "+15550100")
    = Throw /\
  In (CallGenerateAIResponse (str "abc") (str "en") (str "+15550100"))
     (fst (generateResponse lowerCase envEmptyAnswer (str "abc")
             (str "+15550100") (str "Ann"))) /\
  snd (generateResponse lowerCase envEmptyAnswer (str "abc")
         (str "+15550100") (str "Ann")) = Ok [].
Proof.
  destruct candidates_emptyAnswer as (r & Hc & Hr).
  assert (G : geb (Fin r) (Fin 90) = false) by (apply geb_false; lra).
  split; [reflexivity|].
  unfold generateResponse. rewrite Hc.
  cbn -[geb str]. rewrite G. cbn -[str].
  split; [|reflexivity]. auto 10.
Qed.

Lemma generative_failure_recovered_witness :
  generateAIResponse envSeed (str "Hello there!")
    (detectLanguage envSeed (str "Hello there!")) (str "+15550100") = Throw /\
  selectResponse envSeed (str "Hello there!") (str "+15550100")
    (detectLanguage envSeed (str "Hello there!")) [] =
  ([CallGenerateAIResponse (str "Hello there!")
      (detectLanguage envSeed (str "Hello there!")) (str "+15550100")],
   Ok (getDefaultResponse envSeed (str "Hello there!")
         (detectLanguage envSeed (str "Hello there!")), DefaultResponse)).
Proof.
  split; [reflexivity|].
  apply (generative_failure_recovered lowerCase envSeed (str "Hello there!")
           (str "+15550100") (str "Ann") eq_refl).
Defined.

(** ** C4 *)

(** C4, the claim as stated fails: the exact lookup rejects, the keyword
    lookup of the [catch] branch answers, and its entry comes back as a
    candidate with the assigned similarity 50. *)
Lemma lookup_failure_yields_candidates :
  exactMatchFails envLegacy = true /\
  findRelevantQAPairs lowerCase envLegacy (str "an appointment please") 5 =
  ([CallFindExactMatch (str "an appointment please");
    CallExtractKeywords (str "an appointment please");
    CallFindMatchByKeywords [str "appointment"] 5],
   Ok [withSimilarity qaSchedule (Fin 50)]).
Proof. split; reflexivity. Qed.

Lemma lookup_failure_falls_back_witness :
  exactMatchFails envLegacy = true /\
  snd (findRelevantQAPairs lowerCase envLegacy (str "an appointment please") 5) =
  Ok [withSimilarity qaSchedule (Fin 50)].
Proof.
  split; [reflexivity|].
  apply (lookup_failure_falls_back lowerCase envLegacy
           (str "an appointment please") 5 (or_introl eq_refl)).
Defined.

(** ** C5 *)

(** C5, the defect.  A message that contains the word "constructor" gets
    the score [NaN] against a question without it, whatever the answer and
    the tags: [freq["constructor"]] finds the function that every object
    inherits, not a count, and the sums of the cosine measure are [NaN]. *)
Theorem similarity_of_inherited_word_is_NaN :
  calculateSimilarity lowerCase (str "constructor") (str "builder") = NaN /\
  (forall qaAnswer qaTags,
     calculateContextualSimilarity lowerCase (str "constructor")
       (str "builder") qaAnswer qaTags = NaN) /\
  (forall lo hi, ~ between lo hi
     (calculateSimilarity lowerCase (str "constructor") (str "builder"))).
Proof.
  assert (E : calculateSimilarity lowerCase (str "constructor") (str "builder") = NaN).
  { unfold calculateSimilarity.
    change (strEq (lowerCase (trim (str "constructor")))
                  (lowerCase (trim (str "builder")))) with false.
    change (lowerCase (trim (str "constructor"))) with (str "constructor").
    change (lowerCase (trim (str "builder"))) with (str "builder").
    cbn [length str orb Nat.eqb]. unfold weightedScore.
    change (cosineSimilarity lowerCase (str "constructor") (str "builder"))
      with NaN.
    cbn [mul_ lift2]. rewrite js_add_NaN_r. reflexivity. }
  repeat split.
  - exact E.
  - intros qaAnswer qaTags. unfold calculateContextualSimilarity. rewrite E.
    destruct (0 <? _)%nat; destruct (gtb _ _); reflexivity.
  - intros lo hi (r & Hr & _). rewrite E in Hr. discriminate Hr.
Qed.

(** ** C6 *)

Lemma sqrt_2_8 : sqrt 2 * sqrt 8 = 4.
Proof.
  rewrite <- sqrt_mult by lra. replace (2 * 8) with (4 * 4) by lra.
  apply sqrt_square. lra.
Qed.

(** C6, the claim as stated fails.  For "abc def" and "villa abc what def
    schedule what" the edit distance is 25 of 32, the word sets and the
    keywords share 2 of 5, and the cosine is [2 / (sqrt 2 * sqrt 8)]: the
    weighted sum is 39.375, which rounds to 39.38.  In double precision
    [Math.sqrt(2) * Math.sqrt(8)] is just above 4, the sum just below
    39.375, and the score is 39.37.  And for "constructor" and "builder"
    the score is [NaN], no number at all. *)
Lemma weighted_sum_not_exactly_rounded :
  Binary64.calculateSimilarity lowerCase msgAbcDef questionVilla
    = 39.37%float /\
  isEditDistance 25 (normalize lowerCase msgAbcDef)
    (normalize lowerCase questionVilla) /\
  (Fin 0.20 * editSimilarity 25 (normalize lowerCase msgAbcDef)
                (normalize lowerCase questionVilla)
   + Fin 0.30 * jaccardSimilarity lowerCase (normalize lowerCase msgAbcDef)
                  (normalize lowerCase questionVilla)
   + Fin 0.30 * cosineSimilarity lowerCase (normalize lowerCase msgAbcDef)
                  (normalize lowerCase questionVilla)
   + Fin 0.20 * keywordSimilarity lowerCase (normalize lowerCase msgAbcDef)
                  (normalize lowerCase questionVilla))%js
    = Fin 39.375 /\
  roundedTo2 (Fin 39.375) (Fin 39.38) /\
  PrimFloat.is_nan
    (Binary64.calculateSimilarity lowerCase (str "constructor") (str "builder"))
    = true.
Proof.
  split; [vm_compute; reflexivity|].
  split.
  { replace 25%nat
      with (levenshteinDistance (normalize lowerCase msgAbcDef)
              (normalize lowerCase questionVilla))
      by (vm_compute; reflexivity).
    apply levenshteinDistance_isEditDistance. }
  split.
  { match goal with |- ?t = _ => js_eval t end.
    js_sqrt_to 2. js_sqrt_to 8. js_go ltac:(rewrite ?sqrt_2_8).
    f_equal. simpl INR. lra. }
  split; [|vm_compute; reflexivity].
  exists 3938%Z. split; lra.
Qed.

Lemma calculateSimilarity_weighted_sum_witness :
  exists d,
    isEditDistance d (normalize lowerCase msgAbcDef)
      (normalize lowerCase questionVilla) /\
    Binary64.calculateSimilarity lowerCase msgAbcDef questionVilla
    = (Binary64.Math_round
         ((((Binary64.ofNat
               (Nat.max (length (normalize lowerCase msgAbcDef))
                  (length (normalize lowerCase questionVilla)))
             - Binary64.ofNat d)
            / Binary64.ofNat
                (Nat.max (length (normalize lowerCase msgAbcDef))
                   (length (normalize lowerCase questionVilla)))
            * 100) * 0.2
           + Binary64.jaccardSimilarity lowerCase
               (normalize lowerCase msgAbcDef)
               (normalize lowerCase questionVilla) * 0.3
           + Binary64.cosineSimilarity lowerCase
               (normalize lowerCase msgAbcDef)
               (normalize lowerCase questionVilla) * 0.3
           + Binary64.keywordSimilarity lowerCase
               (normalize lowerCase msgAbcDef)
               (normalize lowerCase questionVilla) * 0.2)
          * 100)
       / 100)%float.
Proof.
  destruct (calculateSimilarity_weighted_sum lowerCase msgAbcDef questionVilla)
    as (d & D & E & _); [vm_compute; discriminate ..|].
  exists d. split; [exact D|exact E].
Defined.

(** ** C7 *)

(** The scores of the entries of [envBooking] for [msgBooking]. *)
Lemma score_qaRoom :
  scoreQAPair lowerCase msgBooking qaRoom = withSimilarity qaRoom (Fin 60.1).
Proof. unfold scoreQAPair. f_equal. js_score 6 7 6 686%Z 6010%Z. Qed.

Lemma score_qaRoomReception :
  scoreQAPair lowerCase msgBooking qaRoomReception
  = withSimilarity qaRoomReception (Fin 60.1).
Proof. unfold scoreQAPair. f_equal. js_score 6 7 6 353%Z 6010%Z. Qed.

Lemma score_qaMove :
  scoreQAPair lowerCase msgBooking qaMove = withSimilarity qaMove (Fin 64.33).
Proof. unfold scoreQAPair. f_equal. js_score 6 6 6 267%Z 6433%Z. Qed.

Lemma score_qaTable :
  scoreQAPair lowerCase msgBooking qaTable = withSimilarity qaTable (Fin 59.41).
Proof. unfold scoreQAPair. f_equal. js_score 6 5 6 552%Z 5941%Z. Qed.

Lemma score_qaCancel :
  scoreQAPair lowerCase msgBooking qaCancel
  = withSimilarity qaCancel (Fin 51.55).
Proof. unfold scoreQAPair. f_equal. js_score 6 7 6 426%Z 4655%Z. Qed.

Lemma score_qaAppointment :
  scoreQAPair lowerCase msgBooking qaAppointment
  = withSimilarity qaAppointment (Fin 50.73).
Proof. unfold scoreQAPair. f_equal. js_score 6 5 6 452%Z 4573%Z. Qed.

Lemma score_qaHours :
  scoreQAPair lowerCase msgBooking qaHours = withSimilarity qaHours (Fin 3.45).
Proof. unfold scoreQAPair. f_equal. js_score 6 6 5 414%Z 345%Z. Qed.

(** In double precision the scores are the same numbers. *)
Lemma booking_scores_binary64 :
  map (fun qa => Binary64.calculateContextualSimilarity lowerCase msgBooking
                   (question qa) (answer qa) (tags qa))
      [qaMove; qaRoomReception; qaRoom; qaTable; qaCancel; qaAppointment;
       qaHours]
  = [64.33; 60.1; 60.1; 59.41; 51.55; 50.73; 3.45]%float.
Proof. vm_compute. reflexivity. Qed.

(** What [findMany] returns: the active entries by descending priority. *)
Lemma findMany_booking :
  sort byPriorityThenCreation (filter isActive (qaPairs envBooking))
  = [qaAppointment; qaHours; qaRoomReception; qaCancel; qaMove; qaRoom;
     qaTable].
Proof.
  match goal with |- ?t = _ => js_eval t end.
  js_go idtac. reflexivity.
Qed.

Lemma ranked_booking :
  sort (bySimilarityThenPriority)
    (filter (fun c => gtb (similarity c) (Fin 20))
       (map (scoreQAPair lowerCase msgBooking)
          [qaAppointment; qaHours; qaRoomReception; qaCancel; qaMove; qaRoom;
           qaTable]))
  = bookingRanked.
Proof.
  cbn [map].
  rewrite score_qaRoom, score_qaRoomReception, score_qaMove, score_qaTable,
    score_qaCancel, score_qaAppointment, score_qaHours.
  match goal with |- ?t = _ => js_eval t end.
  js_go idtac. reflexivity.
Qed.

Lemma no_exact_match_booking (qa : QAPair) :
  In qa (qaPairs envBooking) -> isExactMatch lowerCase msgBooking qa = false.
Proof.
  intros H. cbn [qaPairs envBooking envWith In] in H.
  repeat (destruct H as [<-|H]; [reflexivity|]). destruct H.
Qed.

(** C7 at the booking desk, with the default limit: the six entries that
    score above 20 are ranked; the two with the same score are in the order
    of their priorities; the entry that scores 3.45 and the withdrawn entry
    are not among them; the sixth, which has the highest priority of all, is
    cut off by the limit. *)
Lemma scoring_pass_candidates_witness :
  findRelevantQAPairs lowerCase envBooking msgBooking 5 =
    ([CallFindExactMatch msgBooking; CallFindMany],
     Ok [ withSimilarity qaMove (Fin 64.33);
          withSimilarity qaRoomReception (Fin 60.1);
          withSimilarity qaRoom (Fin 60.1);
          withSimilarity qaTable (Fin 59.41);
          withSimilarity qaCancel (Fin 51.55) ]) /\
  StronglySorted ranksBefore bookingRanked /\
  StronglySorted ranksBefore (firstn 5 bookingRanked) /\
  Forall (fun c => exists s, similarity c = Fin s /\ 20 < s)
         (firstn 5 bookingRanked) /\
  length (firstn 5 bookingRanked) = Nat.min 5 (length bookingRanked).
Proof.
  pose proof (scoring_pass_candidates lowerCase envBooking msgBooking 5
                eq_refl eq_refl no_exact_match_booking) as T.
  cbv zeta in T. rewrite findMany_booking, ranked_booking in T.
  destruct T as (E & _ & _ & R & L & F & S & _).
  split; [exact E|]. split; [exact R|]. split; [exact S|].
  split; [exact F|exact L].
Defined.

(** ** C8 *)

Lemma calculateSimilarity_identical_or_empty_witness :
  calculateSimilarity lowerCase (str "  Hello World ") (str "hello world")
    = Fin 100 /\
  calculateSimilarity lowerCase (str "   ") [] = Fin 100 /\
  calculateSimilarity lowerCase (str "   ") (str "hello") = Fin 0.
Proof.
  split; [|split].
  - apply (calculateSimilarity_identical_or_empty lowerCase
             (str "  Hello World ") (str "hello world")). reflexivity.
  - apply (calculateSimilarity_identical_or_empty lowerCase (str "   ") []).
    reflexivity.
  - apply (proj1 (proj2 (calculateSimilarity_identical_or_empty lowerCase
                            (str "   ") (str "hello"))));
      [reflexivity|discriminate].
Defined.

(** ** C9 *)

(** C9, the claim as stated fails: neither string contains an ASCII word
    character, yet lower-casing turns the three Kelvin signs into "kkk", a
    keyword; the other string has none, and the keyword measure is 0. *)
Lemma kelvin_sign_is_a_keyword :
  wordRun3 kelvin3 = false /\ wordRun3 marhaba = false /\
  matchKeywords (lowerCase kelvin3) = [str "kkk"] /\
  keywordSimilarity lowerCase kelvin3 marhaba = Fin 0 /\
  keywordSimilarity lowerCase (normalize lowerCase kelvin3)
    (normalize lowerCase marhaba) = Fin 0 /\
  keywordSimilarity lowerCase kelvin3 marhaba <> Fin 100.
Proof.
  repeat split. intros H. injection H as H'. lra.
Qed.

Lemma keyword_component_without_keywords_witness :
  matchKeywords (lowerCase marhaba) = [] /\
  matchKeywords (lowerCase kayfaUjadwil) = [] /\
  keywordSimilarity lowerCase marhaba kayfaUjadwil = Fin 100 /\
  weightedScore lowerCase marhaba kayfaUjadwil =
    (levenshteinSimilarity marhaba kayfaUjadwil * Fin 0.2
     + jaccardSimilarity lowerCase marhaba kayfaUjadwil * Fin 0.3
     + cosineSimilarity lowerCase marhaba kayfaUjadwil * Fin 0.3 + Fin 20)%js.
Proof.
  apply (keyword_component_without_keywords lowerCase marhaba kayfaUjadwil);
    reflexivity.
Defined.

(** ** C10 *)





(** ** X1 *)

Lemma similarity_range_of_own_words_witness :
  between 0 100
    (calculateSimilarity lowerCase (str "How can I add a new client?")
       (question qaClient)) /\
  between 0 100
    (calculateContextualSimilarity lowerCase (str "How can I add a new client?")
       (question qaClient) (answer qaClient) (tags qaClient)).
Proof.
  pose proof (similarity_range_of_own_words lowerCase
                (str "How can I add a new client?") (question qaClient)
                (answer qaClient) (tags qaClient)) as H.
  split; apply H; vm_compute; repeat constructor.
Defined.

(* ================================================================== *)
(** * Part XVIII.  Further properties at concrete inputs              *)
(* ================================================================== *)

(** ** X6 *)

Lemma calculateSimilarity_ignores_padding_witness :
  calculateSimilarity lowerCase (str "  abc ") (str "abd" ++ [10%N])
  = calculateSimilarity lowerCase (str "abc") (str "abd").
Proof.
  apply (calculateSimilarity_ignores_padding lowerCase
           (str "  ") (str " ") [] [10%N] (str "abc") (str "abd"));
    repeat constructor.
Defined.

(** ** X7 *)

(** The tag "zzz" has nothing in common with the message "abc "; it counts
    as a match all the same. *)
Lemma padded_message_matches_every_tag_witness :
  filter (fun tag =>
            existsb (fun word => includes word (lowerCase tag)
                                 || includes (lowerCase tag) word)
                    (splitSpaces (lowerCase (str "abc "))))
         [str "zzz"] = [str "zzz"].
Proof.
  apply (padded_message_matches_every_tag lowerCase (str "abc ") (str "abd") []
           [str "zzz"] 32%N (str "abc")).
  - reflexivity.
  - right. reflexivity.
  - discriminate.
Defined.

(** ** X9 *)

Lemma cosineSimilarity_extremes_witness :
  cosineSimilarity lowerCase (str "abc def") (str "ghi") = Fin 0 <->
  forall w, In w (splitSpaces (lowerCase (str "abc def"))) ->
            ~ In w (splitSpaces (lowerCase (str "ghi"))).
Proof.
  apply (cosineSimilarity_extremes lowerCase (str "abc def") (str "ghi"));
    vm_compute; repeat constructor.
Defined.

(** ** X10 *)

Lemma reordered_words_score_witness :
  jaccardSimilarity lowerCase (normalize lowerCase (str "abc def"))
    (normalize lowerCase (str "def abc")) = Fin 100 /\
  keywordSimilarity lowerCase (normalize lowerCase (str "abc def"))
    (normalize lowerCase (str "def abc")) = Fin 100 /\
  between 80 100 (calculateSimilarity lowerCase (str "abc def") (str "def abc")).
Proof.
  apply (reordered_words_score lowerCase (str "abc def") (str "def abc")).
  - vm_compute. discriminate.
  - vm_compute. discriminate.
  - vm_compute. repeat constructor.
  - vm_compute. repeat constructor.
  - vm_compute. apply perm_swap.
Defined.
